(** * The immutable range tree of [rangetree/immutable.go]

    The Go code works on pointers: a tree holds a slice of node pointers,
    a node holds the slice of its children, and the mutating operations
    write through [*orderedNodes] and [*node] pointers.  Whether an older
    tree observes such a write is decided by what is shared, so the
    embedding keeps an explicit store:

    - nodes live in the store and are named by their address;
    - a slice is a header (backing array, length, capacity) and the
      backing arrays live in the store, so two headers may share an array;
    - a slice variable whose address is taken ([&top], [&nodes]) is a cell
      of the store as well, and a [*orderedNodes] pointer is either such a
      cell or the [orderedNodes] field of a node.

    Dimensions are Go [uint64] values; they are counted with [nat] here
    (no dimension count near 2^64 is considered).  Coordinates are [int64]
    values and are only ever compared, so they are plain integers.  The
    entry counter is a [uint64] and wraps. *)

From stdpp Require Import base option list numbers.
From stdpp Require sorting.

(** Addresses of the store. *)
Abbreviation addr := nat.

(** A Go slice header.  Every slice of this file starts at offset 0 of its
    backing array. *)
Record slice := Slice { s_arr : addr; s_len : nat; s_cap : nat }.

(** The nil slice (a field that was never assigned). *)
Definition nil_slice : slice := Slice 0 0 0.

(** A [*orderedNodes] value: the address of a slice variable, or of the
    [orderedNodes] field of a node. *)
Inductive sref := SVar (a : addr) | SField (n : addr).

(** The [Interval] interface, as the record of its two methods. *)
Record Interval := mkInterval
  { LowAtDimension : nat -> Z; HighAtDimension : nat -> Z }.

Definition wrap64 (z : Z) : Z := (z mod 2 ^ 64)%Z.

(** Whether the coordinates [p], which start at [dimension], lie inside
    the interval at every dimension. *)
Fixpoint in_range (interval : Interval) (dimension : nat) (p : list Z) : bool :=
  match p with
  | [] => true
  | v :: p' =>
      (LowAtDimension interval dimension <=? v)%Z
      && (v <=? HighAtDimension interval dimension)%Z
      && in_range interval (S dimension) p'
  end.

(** The lexicographic order of coordinate tuples. *)
Fixpoint lex_lt (p q : list Z) : Prop :=
  match p, q with
  | x :: p', y :: q' => (x < y)%Z \/ (x = y /\ lex_lt p' q')
  | [], _ :: _ => True
  | _, _ => False
  end.

(** [isLastDimension(value, test)]: the level [test] is the last one of a
    tree of [value] dimensions. *)
Definition isLastDimension (value test : nat) : bool := (value <=? test).

(** ** The per-batch cache: one sorted [Int64Slice] per dimension. *)

(** Modelled from the spec: the [slice.Int64Slice] package is not part of
    the sources; [Exists] tests membership and [Insert] records the value
    in the slice it is called on, keeping it sorted and duplicate-free. *)
Definition Exists (s : list Z) (x : Z) : bool := existsb (Z.eqb x) s.

(** Modelled from the spec: [Insert] of [slice.Int64Slice] is missing; the
    call [cache[i-1].Insert(v)] records [v] in [cache[i-1]]. *)
Fixpoint Insert (s : list Z) (x : Z) : list Z :=
  match s with
  | [] => [x]
  | y :: s' =>
      if (x <? y)%Z then x :: s else if (x =? y)%Z then s else y :: Insert s' x
  end.

(** [newCache]: [make] with capacity [dimensions-1] panics when
    [dimensions] is 0, the subtraction wrapping around. *)
Definition newCache (dimensions : nat) : option (list (list Z)) :=
  match dimensions with
  | O => None
  | S _ => Some (replicate dimensions [])
  end.

Section Store.
Context {Entry : Type}.

Record node := Node
  { value : Z; entry : option Entry; orderedNodes : slice }.

Record heap := Heap
  { h_nodes : list node;
    h_arrays : list (list (option addr));
    h_vars : list slice }.

Definition empty_heap : heap := Heap [] [] [].

(** ** Reading and running: two small monads

    [R] is for code that only reads the store, [M] for code that may
    change it.  [None] is a Go panic (nil dereference, index out of
    range) or a dangling address. *)
Definition R (A : Type) : Type := heap -> option A.
Definition M (A : Type) : Type := heap -> option (A * heap).

Definition retR {A} (a : A) : R A := fun _ => Some a.
Definition bindR {A B} (c : R A) (k : A -> R B) : R B :=
  fun h => match c h with Some a => k a h | None => None end.
Definition panicR {A} : R A := fun _ => None.

Definition ret {A} (a : A) : M A := fun h => Some (a, h).
Definition bind {A B} (c : M A) (k : A -> M B) : M B :=
  fun h => match c h with Some (a, h') => k a h' | None => None end.
Definition panic {A} : M A := fun _ => None.
Definition lift {A} (c : R A) : M A :=
  fun h => match c h with Some a => Some (a, h) | None => None end.

End Store.

Arguments node : clear implicits.
Arguments heap : clear implicits.
Arguments R : clear implicits.
Arguments M : clear implicits.

Notation "'let?' x ':=' c 'in' k" := (bindR c (fun x => k))
  (at level 10, x pattern, c at level 100, k at level 200).
Notation "'let*' x ':=' c 'in' k" := (bind c (fun x => k))
  (at level 10, x pattern, c at level 100, k at level 200).

Section Primitives.
Context {Entry : Type}.
Local Abbreviation node := (node Entry).
Local Abbreviation heap := (heap Entry).
Local Abbreviation R := (R Entry).
Local Abbreviation M := (M Entry).

(** *** Nodes *)
Definition load_node (a : addr) : R node := fun h => h_nodes h !! a.

(** Dereferencing a [*node]; nil panics. *)
Definition deref (p : option addr) : R node :=
  match p with Some a => load_node a | None => panicR end.

Definition new_node (n : node) : M addr := fun h =>
  Some (length (h_nodes h), Heap (h_nodes h ++ [n]) (h_arrays h) (h_vars h)).

Definition store_node (a : addr) (n : node) : M unit := fun h =>
  if (a <? length (h_nodes h))
  then Some (tt, Heap (<[a:=n]> (h_nodes h)) (h_arrays h) (h_vars h))
  else None.

(** *** Backing arrays *)
Definition load_array (a : addr) : R (list (option addr)) :=
  fun h => h_arrays h !! a.

Definition new_array (cells : list (option addr)) : M addr := fun h =>
  Some (length (h_arrays h), Heap (h_nodes h) (h_arrays h ++ [cells]) (h_vars h)).

Definition store_array (a : addr) (cells : list (option addr)) : M unit :=
  fun h =>
    if (a <? length (h_arrays h))
    then Some (tt, Heap (h_nodes h) (<[a:=cells]> (h_arrays h)) (h_vars h))
    else None.

(** *** Slice variables and [*orderedNodes] pointers *)
Definition new_var (s : slice) : M addr := fun h =>
  Some (length (h_vars h), Heap (h_nodes h) (h_arrays h) (h_vars h ++ [s])).

(** [*list] *)
Definition load (r : sref) : R slice :=
  match r with
  | SVar a => fun h => h_vars h !! a
  | SField n => let? nd := load_node n in retR (orderedNodes nd)
  end.

(** [*list = s] *)
Definition store (r : sref) (s : slice) : M unit :=
  match r with
  | SVar a => fun h =>
      if (a <? length (h_vars h))
      then Some (tt, Heap (h_nodes h) (h_arrays h) (<[a:=s]> (h_vars h)))
      else None
  | SField n =>
      let* nd := lift (load_node n) in
      store_node n (Node (value nd) (entry nd) s)
  end.

(** *** Slices *)

(** The elements a header denotes: the first [s_len] cells of its
    backing array.  A slice of length 0 reads no memory. *)
Definition elems (s : slice) : R (list (option addr)) :=
  if (s_len s =? 0) then retR []
  else
    let? cells := load_array (s_arr s) in
    if (s_len s <=? length cells) then retR (take (s_len s) cells)
    else panicR.

(** [s[i]], bounds-checked against the length. *)
Definition index (s : slice) (i : nat) : R (option addr) :=
  let? es := elems s in
  match es !! i with Some c => retR c | None => panicR end.

(** [s[i] = c] *)
Definition set_index (s : slice) (i : nat) (c : option addr) : M unit :=
  if (i <? s_len s) then
    let* cells := lift (load_array (s_arr s)) in
    if (i <? length cells)
    then store_array (s_arr s) (<[i:=c]> cells)
    else panic
  else panic.

(** [make(orderedNodes, n)]: a fresh array of [n] nil cells; the
    capacity equals the length. *)
Definition make (n : nat) : M slice :=
  let* a := new_array (replicate n None) in
  ret (Slice a n n).

(** [copy(dst, src)] *)
Definition copy (dst src : slice) : M unit :=
  let n := Nat.min (s_len dst) (s_len src) in
  if (n =? 0) then ret tt
  else
    let* es := lift (elems src) in
    let* cells := lift (load_array (s_arr dst)) in
    if (n <=? length cells)
    then store_array (s_arr dst) (take n es ++ drop n cells)
    else panic.

(** The idiom [nodes := make(orderedNodes, len(l)); copy(nodes, l)]. *)
Definition clone (l : slice) : M slice :=
  let* nodes := make (s_len l) in
  let* _ := copy nodes l in
  ret nodes.

(** Capacity chosen by [append] when it has to reallocate.  The Go
    runtime doubles small slices; the exact figure is never observed
    here, only that a full slice moves to a fresh array. *)
Definition grow (cap : nat) : nat := Nat.max 1 (2 * cap).

(** [append(s, c)]: in place when there is spare capacity, otherwise
    into a fresh, larger array. *)
Definition append (s : slice) (c : option addr) : M slice :=
  if (s_len s <? s_cap s) then
    let* cells := lift (load_array (s_arr s)) in
    if (s_len s <? length cells) then
      let* _ := store_array (s_arr s) (<[s_len s:=c]> cells) in
      ret (Slice (s_arr s) (S (s_len s)) (s_cap s))
    else panic
  else
    let* es := lift (elems s) in
    let c' := grow (s_cap s) in
    let* a := new_array (es ++ c :: replicate (c' - S (s_len s)) None) in
    ret (Slice a (S (s_len s)) c').

End Primitives.

(** The tree value.  Trees are built once and never written to afterwards,
    so a tree is a plain record; what it shares with other trees is the
    store behind [top]. *)
Record ImmutableRangeTree := Tree
  { number : Z; top : slice; dimensions : nat }.

Definition NewImmutableRangeTree (dimensions : nat) : ImmutableRangeTree :=
  Tree 0 nil_slice dimensions.

Definition Len (irt : ImmutableRangeTree) : Z := number irt.

(** One step of the path recorded by [delete]. *)
Record immutableNodeBundle := Bundle
  { nb_list : sref; nb_index : nat;
    previousNode : option addr; nb_newNode : option addr }.

Section Model.
Context {Entry : Type}.
Variable ValueAtDimension : Entry -> nat -> Z.
Local Abbreviation node := (node Entry).
Local Abbreviation heap := (heap Entry).
Local Abbreviation R := (R Entry).
Local Abbreviation M := (M Entry).

(** ** The ordered node list

    The file that implements [orderedNodes] and [newNode] is not part of
    the sources; the operations below follow the contract the
    specification gives for them, on Go slices of node pointers. *)

(** Modelled from the spec: [newNode(value, entry, needNextDimension)]
    is missing; a node that needs a next dimension gets a new empty
    children list and no entry, any other node keeps the entry and has
    no children list. *)
Definition newNode (v : Z) (e : option Entry) (needNextDimension : bool)
  : M addr :=
  if needNextDimension
  then let* s := make 0 in new_node (Node v None s)
  else new_node (Node v e nil_slice).

(** Modelled from the spec: the binary search of [orderedNodes] is
    missing; it returns the first index whose node has a value not below
    [v], or the length.  [fuel] bounds the halving steps. *)
Fixpoint bisect (fuel : nat) (es : list (option addr)) (v : Z)
    (lo hi : nat) : R nat :=
  match fuel with
  | O => retR lo
  | S fuel' =>
      if lo <? hi then
        let mid := (lo + hi) `div` 2 in
        match es !! mid with
        | Some c =>
            let? n := deref c in
            if (v <=? value n)%Z then bisect fuel' es v lo mid
            else bisect fuel' es v (S mid) hi
        | None => panicR
        end
      else retR lo
  end.

Definition list_search (s : slice) (v : Z) : R nat :=
  let? es := elems s in
  bisect (length es) es v 0 (length es).

(** Modelled from the spec: [get(value)] is missing; it returns the node
    with that value and its index, or no node. *)
Definition list_get (s : slice) (v : Z) : R (option addr * nat) :=
  let? i := list_search s v in
  if i =? s_len s then retR (None, i)
  else
    let? c := index s i in
    let? n := deref c in
    if (value n =? v)%Z then retR (c, i) else retR (None, i).

(** Opening a gap at [i]: grow by one cell, move the tail up, write the
    node.  The pointer [r] receives the grown header. *)
Definition insert_at (r : sref) (s : slice) (i : nat) (p : addr) : M unit :=
  let* s' := append s None in
  let* _ := store r s' in
  let* cells := lift (load_array (s_arr s')) in
  store_array (s_arr s')
    (take i cells ++ Some p :: take (s_len s - i) (drop i cells)
       ++ drop (S (s_len s)) cells).

(** Modelled from the spec: the insert-or-overwrite of [orderedNodes]
    (called [add] in the sources) is missing; a node of equal value is
    replaced in place and returned, otherwise the node is inserted at
    its sorted position and nothing is returned. *)
Definition list_add (r : sref) (p : addr) : M (option addr) :=
  let* s := lift (load r) in
  let* n := lift (load_node p) in
  let* i := lift (list_search s (value n)) in
  if i =? s_len s then
    let* s' := append s (Some p) in
    let* _ := store r s' in
    ret None
  else
    let* c := lift (index s i) in
    let* old := lift (deref c) in
    if (value old =? value n)%Z then
      let* _ := set_index s i (Some p) in
      ret c
    else
      let* _ := insert_at r s i p in
      ret None.

(** Modelled from the spec: [getOrAdd(entry, dimension, lastDimension)]
    is missing; it fetches the node for the entry's coordinate at
    [dimension], or creates it (with a new empty children list unless
    the dimension is the last) and inserts it at its sorted position. *)
Definition list_getOrAdd (r : sref) (e : Entry) (dimension lastDimension : nat)
  : M (addr * bool) :=
  let v := ValueAtDimension e dimension in
  let fresh := newNode v (Some e) (negb (isLastDimension lastDimension dimension)) in
  let* s := lift (load r) in
  let* i := lift (list_search s v) in
  if i =? s_len s then
    let* p := fresh in
    let* s' := append s (Some p) in
    let* _ := store r s' in
    ret (p, true)
  else
    let* c := lift (index s i) in
    let* old := lift (deref c) in
    if (value old =? v)%Z then
      match c with Some a => ret (a, false) | None => panic end
    else
      let* p := fresh in
      let* _ := insert_at r s i p in
      ret (p, true).

(** Modelled from the spec: [deleteAt(index)] is missing; it removes the
    element at the index, moving the later elements down by one
    position, and shortens the slice the pointer refers to.  An index
    past the end removes nothing.  The specification does not say what
    the cell past the new end holds afterwards: with [clear_vacated] it
    is set to nil, without it the cell keeps what it held. *)
Variable clear_vacated : bool.

Definition list_deleteAt (r : sref) (i : nat) : M unit :=
  let* s := lift (load r) in
  if s_len s <=? i then ret tt
  else
    let* cells := lift (load_array (s_arr s)) in
    let tail :=
      if clear_vacated then None :: drop (s_len s) cells
      else drop (s_len s - 1) cells in
    let* _ := store_array (s_arr s)
                (take i cells ++ take (s_len s - S i) (drop (S i) cells)
                   ++ tail) in
    store r (Slice (s_arr s) (s_len s - 1) (s_cap s)).

(** Modelled from the spec: the bounded traversal of [orderedNodes]
    (called [apply] in the sources) is missing; it starts at the first
    node whose value is not below [low], visits the nodes in order while
    their value is not above [high], and stops with [false] as soon as
    the visitor returns [false].  The visitor's effect on the captured
    variables of the closure is the accumulator [acc]. *)
Fixpoint visit {A} (fn : addr -> A -> R (bool * A)) (high : Z)
    (cells : list (option addr)) (acc : A) : R (bool * A) :=
  match cells with
  | [] => retR (true, acc)
  | c :: rest =>
      let? n := deref c in
      if (high <? value n)%Z then retR (true, acc)
      else
        match c with
        | Some a =>
            let? (go, acc') := fn a acc in
            if go : bool then visit fn high rest acc' else retR (false, acc')
        | None => panicR
        end
  end.

Definition list_apply {A} (fn : addr -> A -> R (bool * A)) (s : slice)
    (low high : Z) (acc : A) : R (bool * A) :=
  let? es := elems s in
  let? i := list_search s low in
  visit fn high (drop i es) acc.

(** ** The tree operations of [immutable.go] *)

Section Operations.
Variable irt : ImmutableRangeTree.

(** The copy-on-write step of [add]: unless this is the first level
    or the cache already holds the value of [node], the list is copied
    into a new variable [nodes], [list] is pointed at it and the value
    is recorded in [cache[i-1]]. *)
Definition add_clone (i : nat) (nd : option addr) (lst : sref)
    (cache : list (list Z)) : M (bool * sref * list (list Z)) :=
  if i =? 1 then ret (false, lst, cache)
  else
    let* n := lift (deref nd) in
    match cache !! (i - 1) with
    | None => panic
    | Some c =>
        if Exists c (value n) then ret (false, lst, cache)
        else
          let* l := lift (load lst) in
          let* nodes := clone l in
          let* v := new_var nodes in
          ret (true, SVar v, <[i - 1 := Insert c (value n)]> cache)
    end.

(** [node.orderedNodes = *list] *)
Definition link (nd : option addr) (lst : sref) : M unit :=
  match nd with
  | Some a => let* l := lift (load lst) in store (SField a) l
  | None => panic
  end.

(** [irt.add]: the loop over [i], with [fuel] iterations left. *)
Fixpoint add_loop (fuel i : nat) (nd : option addr) (lst : sref)
    (cache : list (list Z)) (e : Entry) (added : Z)
  : M (list (list Z) * Z) :=
  match fuel with
  | O => ret (cache, added)
  | S fuel' =>
      if isLastDimension (dimensions irt) i then
        let* (_, lst, cache) := add_clone i nd lst cache in
        let* nn := newNode (ValueAtDimension e i) (Some e) false in
        let* overwritten := list_add lst nn in
        let added :=
          match overwritten with
          | None => wrap64 (added + 1)
          | Some _ => added
          end in
        let* _ := match nd with Some _ => link nd lst | None => ret tt end in
        ret (cache, added)
      else
        let* (cloned, lst, cache) := add_clone i nd lst cache in
        let* _ := if cloned : bool then link nd lst else ret tt in
        let* (a, _) := list_getOrAdd lst e i (dimensions irt) in
        add_loop fuel' (S i) (Some a) (SField a) cache e added
  end.

Definition irt_add (nodes : sref) (cache : list (list Z)) (e : Entry)
    (added : Z) : M (list (list Z) * Z) :=
  add_loop (dimensions irt) 1 None nodes cache e added.

Fixpoint add_all (nodes : sref) (cache : list (list Z))
    (entries : list Entry) (added : Z) : M Z :=
  match entries with
  | [] => ret added
  | e :: rest =>
      let* (cache, added) := irt_add nodes cache e added in
      add_all nodes cache rest added
  end.

(** [Add] *)
Definition Add (entries : list Entry) : M ImmutableRangeTree :=
  match entries with
  | [] => ret irt
  | _ =>
      match newCache (dimensions irt) with
      | None => panic
      | Some cache =>
          let* t := clone (top irt) in
          let* v := new_var t in
          let* added := add_all (SVar v) cache entries 0 in
          let* t' := lift (load (SVar v)) in
          ret (Tree (wrap64 (number irt + added)) t' (dimensions irt))
      end
  end.

(** [irt.delete], first loop: the descent, [fuel] levels left.  [None]
    is the early return. *)
Fixpoint descend (fuel i : nat) (n : option addr) (lst : sref)
    (e : Entry) (path : list immutableNodeBundle)
  : R (option (list immutableNodeBundle)) :=
  match fuel with
  | O => retR (Some path)
  | S fuel' =>
      let? l := load lst in
      let? (local, idx) := list_get l (ValueAtDimension e i) in
      match local with
      | None => retR None
      | Some a =>
          descend fuel' (S i) (Some a) (SField a) e
            (path ++ [Bundle lst idx n None])
      end
  end.

(** Second loop: from the end of the path to its start; [j] is one
    more than the index handled next. *)
Fixpoint rebuild (j : nat) (path : list immutableNodeBundle)
  : M (list immutableNodeBundle) :=
  match j with
  | O => ret path
  | S i =>
      match path !! i with
      | None => panic
      | Some nb =>
          match previousNode nb with
          | None => rebuild i path
          | Some prev =>
              let* l := lift (load (nb_list nb)) in
              let* nodes := clone l in
              let* v := new_var nodes in
              let path :=
                <[i := Bundle (SVar v) (nb_index nb) (previousNode nb)
                         (nb_newNode nb)]> path in
              if s_len nodes =? 1 then rebuild i path
              else
                let* pn := lift (load_node prev) in
                let* nn := newNode (value pn) (entry pn)
                             (negb (isLastDimension (dimensions irt) (i + 1))) in
                let* _ := store (SField nn) nodes in
                match i with
                | O => panic
                | S i' =>
                    match path !! i' with
                    | None => panic
                    | Some up =>
                        rebuild i
                          (<[i' := Bundle (nb_list up) (nb_index up)
                                     (previousNode up) (Some nn)]> path)
                    end
                end
          end
      end
  end.

(** Third loop: the removals and replacements, from the top level
    down. *)
Fixpoint splice (path : list immutableNodeBundle) : M unit :=
  match path with
  | [] => ret tt
  | nb :: rest =>
      let* _ :=
        match nb_newNode nb with
        | None => list_deleteAt (nb_list nb) (nb_index nb)
        | Some nn =>
            let* l := lift (load (nb_list nb)) in
            set_index l (nb_index nb) (Some nn)
        end in
      splice rest
  end.

Definition irt_delete (top : sref) (cache : list (list Z)) (e : Entry)
    (deleted : Z) : M Z :=
  let* found := lift (descend (dimensions irt) 1 None top e []) in
  match found with
  | None => ret deleted
  | Some path =>
      let* path := rebuild (length path) path in
      let* _ := splice path in
      ret (wrap64 (deleted + 1))
  end.

Fixpoint delete_all (top : sref) (cache : list (list Z))
    (entries : list Entry) (deleted : Z) : M Z :=
  match entries with
  | [] => ret deleted
  | e :: rest =>
      let* deleted := irt_delete top cache e deleted in
      delete_all top cache rest deleted
  end.

(** [Delete] *)
Definition Delete (entries : list Entry) : M ImmutableRangeTree :=
  match newCache (dimensions irt) with
  | None => panic
  | Some cache =>
      let* t := clone (top irt) in
      let* v := new_var t in
      let* deleted := delete_all (SVar v) cache entries 0 in
      let* t' := lift (load (SVar v)) in
      ret (Tree (wrap64 (number irt - deleted)) t' (dimensions irt))
  end.

(** [irt.apply]: [fuel] bounds the depth of the recursion. *)
Fixpoint irt_apply {A} (fuel : nat) (lst : slice) (interval : Interval)
    (dimension : nat) (fn : addr -> A -> R (bool * A)) (acc : A)
  : R (bool * A) :=
  let low := LowAtDimension interval dimension in
  let high := HighAtDimension interval dimension in
  if isLastDimension (dimensions irt) dimension then
    list_apply fn lst low high acc
  else
    match fuel with
    | O => panicR
    | S fuel' =>
        list_apply
          (fun n acc =>
             let? nd := load_node n in
             irt_apply fuel' (orderedNodes nd) interval (S dimension) fn acc)
          lst low high acc
    end.

(** [Query]: the visitor appends the entry field of the node, which
    may be the nil interface value. *)
Definition Query (interval : Interval) : R (list (option Entry)) :=
  let? (_, entries) :=
    irt_apply (dimensions irt) (top irt) interval 1
      (fun n entries =>
         let? nd := load_node n in retR (true, entries ++ [entry nd]))
      [] in
  retR entries.

End Operations.

(** ** [InsertAtDimension]

    The list method [immutableInsert], which does the shifting, is not
    part of the sources and the specification leaves its rules open; it
    is a parameter here.  It receives the two result lists (empty at the
    call) and returns them with the new top list. *)
Section Shift.
Variable immutableInsert :
  slice -> nat -> nat -> nat -> Z -> Z ->
  list (option Entry) -> list (option Entry) ->
  M (slice * list (option Entry) * list (option Entry)).

Definition InsertAtDimension (irt : ImmutableRangeTree) (dimension : nat)
    (index num : Z)
  : M (ImmutableRangeTree * list (option Entry) * list (option Entry)) :=
  if (dimensions irt <? dimension) || (num =? 0)%Z then ret (irt, [], [])
  else
    let* (t, modified, deleted) :=
      immutableInsert (top irt) dimension 1 (dimensions irt) index num [] [] in
    ret (Tree (wrap64 (number irt - Z.of_nat (length deleted))) t
           (dimensions irt),
         modified, deleted).

End Shift.

(** ** Exhaustive traversal

    Observers used to state the invariants of the tree: they walk every
    list down to the last dimension, without any search. *)
Fixpoint collect {A} (f : node -> R (list A)) (cells : list (option addr))
  : R (list A) :=
  match cells with
  | [] => retR []
  | c :: rest =>
      let? n := deref c in
      let? xs := f n in
      let? ys := collect f rest in
      retR (xs ++ ys)
  end.

(** The coordinate tuples reachable from [lst], which is a list of level
    [dimension] in a tree of [D] dimensions. *)
Fixpoint tuples (D fuel : nat) (lst : slice) (dimension : nat)
  : R (list (list Z)) :=
  let? es := elems lst in
  collect
    (fun n =>
       if isLastDimension D dimension then retR [[value n]]
       else
         match fuel with
         | O => panicR
         | S fuel' =>
             let? ts := tuples D fuel' (orderedNodes n) (S dimension) in
             retR (map (cons (value n)) ts)
         end)
    es.

Definition reachable_tuples (irt : ImmutableRangeTree) : R (list (list Z)) :=
  tuples (dimensions irt) (dimensions irt) (top irt) 1.

(** Whether every node of a level before the last has at least one
    child. *)
Fixpoint children_nonempty (D fuel : nat) (lst : slice) (dimension : nat)
  : R bool :=
  if isLastDimension D dimension then retR true
  else
    match fuel with
    | O => panicR
    | S fuel' =>
        let? es := elems lst in
        let? bs :=
          collect
            (fun n =>
               if s_len (orderedNodes n) =? 0 then retR [false]
               else
                 let? b := children_nonempty D fuel' (orderedNodes n)
                             (S dimension) in
                 retR [b])
            es in
        retR (forallb id bs)
    end.

Definition all_children_nonempty (irt : ImmutableRangeTree) : R bool :=
  children_nonempty (dimensions irt) (dimensions irt) (top irt) 1.

(** The leaves below [lst], each with the coordinates of the path that
    leads to it (from [dimension] on) and the entry it holds. *)
Fixpoint leaves (D fuel : nat) (lst : slice) (dimension : nat)
  : R (list (list Z * option Entry)) :=
  let? es := elems lst in
  collect
    (fun n =>
       if isLastDimension D dimension then retR [([value n], entry n)]
       else
         match fuel with
         | O => panicR
         | S fuel' =>
             let? ls := leaves D fuel' (orderedNodes n) (S dimension) in
             retR (map (fun x => (value n :: fst x, snd x)) ls)
         end)
    es.

Definition all_leaves (irt : ImmutableRangeTree) : R (list (list Z * option Entry)) :=
  leaves (dimensions irt) (dimensions irt) (top irt) 1.

(** The values of every list increase strictly. *)
Fixpoint ascending (vs : list Z) : bool :=
  match vs with
  | x :: (y :: _) as rest => (x <? y)%Z && ascending rest
  | _ => true
  end.

Fixpoint sorted (D fuel : nat) (lst : slice) (dimension : nat) : R bool :=
  let? es := elems lst in
  let? vs := collect (fun n => retR [value n]) es in
  let? bs :=
    collect
      (fun n =>
         if isLastDimension D dimension then retR [true]
         else
           match fuel with
           | O => panicR
           | S fuel' =>
               let? b := sorted D fuel' (orderedNodes n) (S dimension) in
               retR [b]
           end)
      es in
  retR (ascending vs && forallb id bs).

Definition sorted_tree (irt : ImmutableRangeTree) : R bool :=
  sorted (dimensions irt) (dimensions irt) (top irt) 1.

(** Whether every list down to the last dimension can be read and every
    cell of it dereferenced.  The answer is [true] or a panic. *)
Fixpoint readable (D fuel : nat) (lst : slice) (dimension : nat) : R bool :=
  let? es := elems lst in
  let? bs :=
    collect
      (fun n =>
         if isLastDimension D dimension then retR [true]
         else
           match fuel with
           | O => panicR
           | S fuel' =>
               let? b := readable D fuel' (orderedNodes n) (S dimension) in
               retR [b]
           end)
      es in
  retR (forallb id bs).

Definition readable_tree (irt : ImmutableRangeTree) : R bool :=
  readable (dimensions irt) (dimensions irt) (top irt) 1.

(** ** Observers of [Delete]

    What the statements about [Delete] speak of: whether a tuple is in a
    list, the working list when an entry's turn comes, and how many
    lookups of a batch succeed. *)

(** Whether the coordinates of [e] from [dimension] on are found below
    [lst], looking at every node (no search). *)
Fixpoint contains (D fuel : nat) (lst : slice) (dimension : nat) (e : Entry)
  : R bool :=
  let? es := elems lst in
  let? bs :=
    collect
      (fun n =>
         if (value n =? ValueAtDimension e dimension)%Z then
           if isLastDimension D dimension then retR [true]
           else
             match fuel with
             | O => panicR
             | S fuel' =>
                 let? b := contains D fuel' (orderedNodes n) (S dimension) e in
                 retR [b]
             end
         else retR [false])
      es in
  retR (existsb id bs).

Definition contains_tuple (irt : ImmutableRangeTree) (e : Entry) : R bool :=
  contains (dimensions irt) (dimensions irt) (top irt) 1 e.

(** The first lines of [Delete]: the cache and the copy of the top list. *)
Definition Delete_prologue (irt : ImmutableRangeTree)
  : M (sref * list (list Z)) :=
  match newCache (dimensions irt) with
  | None => panic
  | Some cache =>
      let* t := clone (top irt) in
      let* v := new_var t in
      ret (SVar v, cache)
  end.

(** The working list of [Delete] when the entries [pre] have been
    handled. *)
Definition working_state (irt : ImmutableRangeTree) (pre : list Entry)
  : M sref :=
  let* (top, cache) := Delete_prologue irt in
  let* _ := delete_all irt top cache pre 0 in
  ret top.

(** The tuple of [e] is not in the working list when its turn comes,
    after the entries [pre]. *)
Definition absent_at_turn (irt : ImmutableRangeTree) (pre : list Entry)
    (e : Entry) (h : heap) : bool :=
  match working_state irt pre h with
  | Some (top, h1) =>
      match load top h1 with
      | Some l =>
          match contains (dimensions irt) (dimensions irt) l 1 e h1 with
          | Some false => true
          | _ => false
          end
      | None => false
      end
  | None => false
  end.

(** The lookup of [delete] succeeds for [e]. *)
Definition found (irt : ImmutableRangeTree) (top : sref) (e : Entry)
    (h : heap) : bool :=
  match descend (dimensions irt) 1 None top e [] h with
  | Some (Some _) => true
  | _ => false
  end.

(** The number of entries of a batch whose lookup succeeds at their
    turn. *)
Fixpoint count_found (irt : ImmutableRangeTree) (top : sref)
    (cache : list (list Z)) (es : list Entry) (h : heap) : nat :=
  match es with
  | [] => 0
  | e :: rest =>
      (if found irt top e h then 1 else 0)
      + match irt_delete irt top cache e 0 h with
        | Some (_, h') => count_found irt top cache rest h'
        | None => 0
        end
  end.

Definition found_by_Delete (irt : ImmutableRangeTree) (es : list Entry)
    (h : heap) : nat :=
  match Delete_prologue irt h with
  | Some ((top, cache), h1) => count_found irt top cache es h1
  | None => 0
  end.

(** ** Growing stores

    [extends h h'] holds when [h'] has everything [h] has, at the same
    addresses; a reader is monotone when a result it gives in a store is
    the result it gives in every larger store. *)
Definition extends (h h' : heap) : Prop :=
  h_nodes h `prefix_of` h_nodes h'
  /\ h_arrays h `prefix_of` h_arrays h'
  /\ h_vars h `prefix_of` h_vars h'.

Definition mono {A} (c : R A) : Prop :=
  forall h h' a, extends h h' -> c h = Some a -> c h' = Some a.

(** ** Trees of one dimension

    The items of a tree of one dimension are the coordinates and entries
    of its top list, in order; [put] and [take_out] say what adding and
    deleting an entry do to them. *)

(** Insert-or-overwrite by key in a list ordered by key. *)
Fixpoint upsert_by {X} (key : X -> Z) (x : X) (l : list X) : list X :=
  match l with
  | [] => [x]
  | y :: rest =>
      if (key x <? key y)%Z then x :: l
      else if (key x =? key y)%Z then x :: rest
      else y :: upsert_by key x rest
  end.

(** Removal by key. *)
Fixpoint remove_by {X} (key : X -> Z) (k : Z) (l : list X) : list X :=
  match l with
  | [] => []
  | y :: rest => if (k =? key y)%Z then rest else y :: remove_by key k rest
  end.

(** The leaf of a tree of one dimension that holds an item. *)
Definition leaf_of (kv : Z * option Entry) : list Z * option Entry :=
  ([fst kv], snd kv).

Definition put (dimension : nat) (e : Entry) (kvs : list (Z * option Entry))
  : list (Z * option Entry) :=
  upsert_by fst (ValueAtDimension e dimension, Some e) kvs.

Definition put_all (dimension : nat) (es : list Entry)
    (kvs : list (Z * option Entry)) : list (Z * option Entry) :=
  fold_left (fun acc e => put dimension e acc) es kvs.

Definition take_out (dimension : nat) (e : Entry)
    (kvs : list (Z * option Entry)) : list (Z * option Entry) :=
  remove_by fst (ValueAtDimension e dimension) kvs.

Definition take_out_all (dimension : nat) (es : list Entry)
    (kvs : list (Z * option Entry)) : list (Z * option Entry) :=
  fold_left (fun acc e => take_out dimension e acc) es kvs.

(** A sequence of calls of [Add] and [Delete], each on the tree the
    previous call returned, and what it does to the items of a tree of
    one dimension. *)
Inductive call := AddCall (es : list Entry) | DeleteCall (es : list Entry).

Fixpoint calls (irt : ImmutableRangeTree) (cs : list call)
  : M ImmutableRangeTree :=
  match cs with
  | [] => ret irt
  | AddCall es :: rest => let* t := Add irt es in calls t rest
  | DeleteCall es :: rest => let* t := Delete irt es in calls t rest
  end.

Definition items_after (cs : list call) (kvs : list (Z * option Entry))
  : list (Z * option Entry) :=
  fold_left
    (fun acc c =>
       match c with
       | AddCall es => put_all 1 es acc
       | DeleteCall es => take_out_all 1 es acc
       end)
    cs kvs.

(** The entries of the items whose coordinate lies in the interval. *)
Definition items_within (interval : Interval) (kvs : list (Z * option Entry))
  : list (option Entry) :=
  map snd
    (List.filter
       (fun kv =>
          (LowAtDimension interval 1 <=? fst kv)%Z
          && (fst kv <=? HighAtDimension interval 1)%Z)
       kvs).

(** ** Trees of two dimensions

    The rows of a tree of two dimensions are the coordinates of its top
    list, each with the items of the children list of its node. *)

(** The items of the row of coordinate [k], none if there is no such
    row. *)
Definition children_of (k : Z) (kvss : list (Z * list (Z * option Entry)))
  : list (Z * option Entry) :=
  match List.find (fun kk => (fst kk =? k)%Z) kvss with
  | Some kk => snd kk
  | None => []
  end.

(** Adding an entry: its item is put into the row of its first
    coordinate, which is created if it is missing. *)
Definition put2 (e : Entry) (kvss : list (Z * list (Z * option Entry)))
  : list (Z * list (Z * option Entry)) :=
  upsert_by fst
    (ValueAtDimension e 1, put 2 e (children_of (ValueAtDimension e 1) kvss))
    kvss.

(** The leaves of the rows, in order. *)
Definition leaves2 (kvss : list (Z * list (Z * option Entry)))
  : list (list Z * option Entry) :=
  concat (map (fun kk => map (fun kv => ([fst kk; fst kv], snd kv)) (snd kk))
            kvss).

(** Whether a leaf lies in the row of the first coordinate [k]. *)
Definition in_row (k : Z) (l : list Z * option Entry) : bool :=
  match fst l with
  | c :: _ => (c =? k)%Z
  | [] => false
  end.

(** One call of [Add] for each entry, each on the tree the previous call
    returned, and the rows this leaves. *)
Fixpoint adds (irt : ImmutableRangeTree) (es : list Entry)
  : M ImmutableRangeTree :=
  match es with
  | [] => ret irt
  | e :: rest => let* t := Add irt [e] in adds t rest
  end.

Definition rows_after (es : list Entry)
    (kvss : list (Z * list (Z * option Entry)))
  : list (Z * list (Z * option Entry)) :=
  fold_left (fun acc e => put2 e acc) es kvss.

End Model.

(** ** Concrete entries: tagged points

    An entry is a point with a tag, so that two entries with the same
    coordinates can be told apart. *)
Record point := Point { tag : nat; coords : list Z }.

Definition coord (p : point) (dimension : nat) : Z :=
  nth (dimension - 1) (coords p) 0%Z.

(** The interval [-100, 100] at every dimension. *)
Definition whole : Interval := mkInterval (fun _ => (-100)%Z) (fun _ => 100%Z).

Definition e11 : point := Point 0 [1; 1]%Z.
Definition e12 : point := Point 1 [1; 2]%Z.
Definition e111 : point := Point 0 [1; 1; 1]%Z.
Definition e111' : point := Point 1 [1; 1; 1]%Z.
Definition e112 : point := Point 2 [1; 1; 2]%Z.

(** A two-dimensional tree holding (1,1) is queried, (1,2) is added to
    it, and the first tree is queried again. *)
Definition query_around_add
  : M point (list (option point) * list (option point) * Z) :=
  let* t := Add coord (NewImmutableRangeTree 2) [e11] in
  let* before := lift (Query t whole) in
  let* t' := Add coord t [e12] in
  let* after := lift (Query t whole) in
  ret (before, after, Len t).

(** One point is added to the empty three-dimensional tree. *)
Definition single_add_3d : M point ImmutableRangeTree :=
  Add coord (NewImmutableRangeTree 3) [e111].

(** The same coordinates are added twice, in two calls. *)
Definition add_twice_3d : M point (ImmutableRangeTree * ImmutableRangeTree) :=
  let* t := Add coord (NewImmutableRangeTree 3) [e111] in
  let* t' := Add coord t [e111'] in
  ret (t, t').

(** (1,2) is added to the tree holding (1,1) and deleted again. *)
Definition add_then_delete (clear_vacated : bool)
  : M point (list (option point) * ImmutableRangeTree * ImmutableRangeTree) :=
  let* t := Add coord (NewImmutableRangeTree 2) [e11] in
  let* before := lift (Query t whole) in
  let* t1 := Add coord t [e12] in
  let* t2 := Delete coord clear_vacated t1 [e12] in
  ret (before, t, t2).

(** The two-dimensional tree holding (1,1) and (1,2), built one call
    each: whether (1,3) is in it, and a batch deleted from it. *)
Definition e13 : point := Point 2 [1; 3]%Z.

Definition delete_from_pair (clear_vacated : bool) (es : list point)
  : M point (bool * ImmutableRangeTree * ImmutableRangeTree) :=
  let* t0 := Add coord (NewImmutableRangeTree 2) [e11] in
  let* t := Add coord t0 [e12] in
  let* has13 := lift (contains_tuple coord t e13) in
  let* t' := Delete coord clear_vacated t es in
  ret (has13, t, t').

(** Two points as one batch, and the same two points one call each. *)
Definition batch_3d : M point ImmutableRangeTree :=
  Add coord (NewImmutableRangeTree 3) [e111; e112].

Definition one_by_one_3d : M point ImmutableRangeTree :=
  let* t := Add coord (NewImmutableRangeTree 3) [e111] in
  Add coord t [e112].

(** Running a program from the empty store and observing the result with
    a reader. *)
Definition observe {A B} (prog : M point A) (obs : A -> R point B) : option B :=
  match prog empty_heap with
  | Some (a, h) => obs a h
  | None => None
  end.

(** A two-dimensional tree holding (1,1) and (2,1), with its store. *)
Definition e21 : point := Point 3 [2; 1]%Z.
Definition e77 : point := Point 9 [7; 7]%Z.

Definition sample : option (ImmutableRangeTree * heap point) :=
  Add coord (NewImmutableRangeTree 2) [e11; e21] empty_heap.

Definition sample_tree : ImmutableRangeTree :=
  Eval vm_compute in
    match sample with Some (t, _) => t | None => NewImmutableRangeTree 2 end.

Definition sample_heap : heap point :=
  Eval vm_compute in
    match sample with Some (_, h) => h | None => empty_heap end.

(** The interval that holds the point (1,1) only, and an interval that
    is empty at the first dimension. *)
Definition around11 : Interval := mkInterval (fun _ => 1%Z) (fun _ => 1%Z).
Definition inverted : Interval := mkInterval (fun _ => 5%Z) (fun _ => 1%Z).

(** A one-dimensional tree holding 1 and 3, with its store. *)
Definition p1 : point := Point 0 [1]%Z.
Definition p2 : point := Point 1 [2]%Z.
Definition p3 : point := Point 2 [3]%Z.
Definition p3' : point := Point 3 [3]%Z.

Definition line : option (ImmutableRangeTree * heap point) :=
  Add coord (NewImmutableRangeTree 1) [p3; p1] empty_heap.

Definition line_tree : ImmutableRangeTree :=
  Eval vm_compute in
    match line with Some (t, _) => t | None => NewImmutableRangeTree 1 end.

Definition line_heap : heap point :=
  Eval vm_compute in
    match line with Some (_, h) => h | None => empty_heap end.

(** * Theorems *)

Section Theory.
Context {Entry : Type}.
Variable ValueAtDimension : Entry -> nat -> Z.
Local Abbreviation node := (node Entry).
Local Abbreviation heap := (heap Entry).
Local Abbreviation R := (R Entry).
Local Abbreviation M := (M Entry).
Local Abbreviation extends := (@extends Entry).
Local Abbreviation mono := (@mono Entry).
Local Abbreviation contains := (contains ValueAtDimension).
Local Abbreviation contains_tuple := (contains_tuple ValueAtDimension).
Local Abbreviation descend := (descend ValueAtDimension).

Lemma extends_refl (h : heap) : extends h h.
Proof. by repeat split. Qed.

Lemma mono_retR {A} (a : A) : mono (retR a : R A).
Proof. by intros h h' b _ Hb. Qed.

Lemma mono_panicR {A} : mono (@panicR Entry A).
Proof. by intros h h' b _ Hb. Qed.

Lemma mono_bindR {A B} (c : R A) (k : A -> R B) :
  mono c -> (forall a, mono (k a)) -> mono (bindR c k).
Proof.
  intros Hc Hk h h' b Hext. unfold bindR.
  destruct (c h) as [a|] eqn:Ea; [|done].
  rewrite (Hc _ _ _ Hext Ea). by apply Hk.
Qed.

Lemma mono_load_node a : mono (load_node a).
Proof. intros h h' n (Hn & _ & _) Hl. by eapply prefix_lookup_Some. Qed.

Lemma mono_load_array a : mono (load_array a).
Proof. intros h h' n (_ & Hn & _) Hl. by eapply prefix_lookup_Some. Qed.

Lemma mono_deref p : mono (deref p).
Proof. destruct p; [apply mono_load_node | apply mono_panicR]. Qed.

Lemma mono_load r : mono (load r).
Proof.
  destruct r as [a|n]; simpl.
  - intros h h' s (_ & _ & Hv) Hl. by eapply prefix_lookup_Some.
  - apply mono_bindR; [apply mono_load_node | intros; apply mono_retR].
Qed.

Lemma mono_elems s : mono (elems s).
Proof.
  unfold elems. destruct (s_len s =? 0); [apply mono_retR|].
  apply mono_bindR; [apply mono_load_array|]. intros cells.
  destruct (s_len s <=? length cells); [apply mono_retR | apply mono_panicR].
Qed.

Lemma mono_index s i : mono (index s i).
Proof.
  apply mono_bindR; [apply mono_elems|]. intros es.
  destruct (es !! i); [apply mono_retR | apply mono_panicR].
Qed.

Lemma mono_bisect fuel es v lo hi : mono (bisect fuel es v lo hi).
Proof.
  revert lo hi. induction fuel as [|fuel IH]; intros lo hi; simpl.
  - apply mono_retR.
  - destruct (lo <? hi); [|apply mono_retR].
    destruct (es !! _); [|apply mono_panicR].
    apply mono_bindR; [apply mono_deref|]. intros n.
    destruct (v <=? value n)%Z; apply IH.
Qed.

Lemma mono_list_search s v : mono (list_search s v).
Proof. apply mono_bindR; [apply mono_elems|]. intros; apply mono_bisect. Qed.

Lemma mono_list_get s v : mono (list_get s v).
Proof.
  apply mono_bindR; [apply mono_list_search|]. intros i.
  destruct (i =? s_len s); [apply mono_retR|].
  apply mono_bindR; [apply mono_index|]. intros c.
  apply mono_bindR; [apply mono_deref|]. intros n.
  destruct (value n =? v)%Z; apply mono_retR.
Qed.

Lemma mono_visit {A} (fn : addr -> A -> R (bool * A)) high cells acc :
  (forall a x, mono (fn a x)) -> mono (visit fn high cells acc).
Proof.
  intros Hfn. revert acc. induction cells as [|c rest IH]; intros acc; simpl.
  - apply mono_retR.
  - apply mono_bindR; [apply mono_deref|]. intros n.
    destruct (high <? value n)%Z; [apply mono_retR|].
    destruct c; [|apply mono_panicR].
    apply mono_bindR; [apply Hfn|]. intros [go acc'].
    destruct go; [apply IH | apply mono_retR].
Qed.

Lemma mono_list_apply {A} (fn : addr -> A -> R (bool * A)) s low high acc :
  (forall a x, mono (fn a x)) -> mono (list_apply fn s low high acc).
Proof.
  intros Hfn. apply mono_bindR; [apply mono_elems|]. intros es.
  apply mono_bindR; [apply mono_list_search|]. intros i.
  by apply mono_visit.
Qed.

Lemma mono_irt_apply {A} irt fuel s I d (fn : addr -> A -> R (bool * A)) acc :
  (forall a x, mono (fn a x)) -> mono (irt_apply irt fuel s I d fn acc).
Proof.
  intros Hfn. revert s d acc. induction fuel as [|fuel IH]; intros s d acc; simpl.
  - destruct (isLastDimension _ _); [by apply mono_list_apply | apply mono_panicR].
  - destruct (isLastDimension _ _); [by apply mono_list_apply|].
    apply mono_list_apply. intros a x.
    apply mono_bindR; [apply mono_load_node|]. intros nd. apply IH.
Qed.

Lemma mono_Query irt I : mono (Query irt I).
Proof.
  apply mono_bindR.
  - apply mono_irt_apply. intros a x.
    apply mono_bindR; [apply mono_load_node|]. intros; apply mono_retR.
  - intros [b es]. apply mono_retR.
Qed.


Lemma elems_length s (h : heap) es : elems s h = Some es -> length es = s_len s.
Proof.
  unfold elems, bindR, retR, panicR, load_array.
  destruct (s_len s =? 0) eqn:E0.
  - intros [= <-]. apply Nat.eqb_eq in E0. by rewrite E0.
  - destruct (h_arrays h !! s_arr s) as [cells|]; [|done].
    destruct (s_len s <=? length cells) eqn:El; [|done].
    intros [= <-]. apply Nat.leb_le in El. rewrite length_take. lia.
Qed.

(** Copying a list: the copy lives in a new array at the end of the store
    and has no spare capacity. *)
Lemma clone_spec l (h : heap) es :
  elems l h = Some es ->
  clone l h
  = Some (Slice (length (h_arrays h)) (s_len l) (s_len l),
          Heap (h_nodes h) (h_arrays h ++ [es]) (h_vars h)).
Proof.
  intros Hes. pose proof (elems_length _ _ _ Hes) as Hlen.
  unfold clone, make, copy, bind, ret, new_array, lift. simpl.
  rewrite Nat.min_id.
  destruct (s_len l =? 0) eqn:E0.
  - apply Nat.eqb_eq in E0. rewrite E0 in *. destruct es; [|done]. done.
  - assert (Hes' : elems l (Heap (h_nodes h)
                     (h_arrays h ++ [replicate (s_len l) None]) (h_vars h))
                   = Some es).
    { eapply mono_elems; [|exact Hes].
      repeat split; simpl; try done. by apply prefix_app_r. }
    rewrite Hes'. unfold load_array. simpl.
    rewrite lookup_app_r, Nat.sub_diag by done. simpl.
    rewrite length_replicate, Nat.leb_refl.
    unfold store_array. simpl.
    rewrite length_app. simpl.
    replace (length (h_arrays h) <? length (h_arrays h) + 1) with true
      by (symmetry; apply Nat.ltb_lt; lia).
    do 3 f_equal.
    rewrite insert_app_r_alt, Nat.sub_diag by done. simpl.
    rewrite drop_replicate, Nat.sub_diag. simpl.
    rewrite app_nil_r, <- Hlen, firstn_all. done.
Qed.

Lemma elems_of_fresh_copy (h : heap) es n :
  length es = n ->
  elems (Slice (length (h_arrays h)) n n)
    (Heap (h_nodes h) (h_arrays h ++ [es]) (h_vars h)) = Some es.
Proof.
  intros Hn. unfold elems, bindR, retR, load_array. simpl.
  destruct (n =? 0) eqn:E0.
  - apply Nat.eqb_eq in E0. subst n. by destruct es.
  - cbn [h_arrays]. rewrite lookup_app_r, Nat.sub_diag by done. simpl.
    rewrite Hn, Nat.leb_refl, <- Hn, firstn_all. done.
Qed.

(** The traversals use a slice only through the elements it denotes. *)
Lemma list_apply_elems {A} (fn : addr -> A -> R (bool * A)) s s' low high acc h :
  elems s h = elems s' h ->
  list_apply fn s low high acc h = list_apply fn s' low high acc h.
Proof.
  intros He. unfold list_apply, list_search, bindR. by rewrite He.
Qed.

Lemma irt_apply_elems {A} irt fuel s s' I d (fn : addr -> A -> R (bool * A)) acc h :
  elems s h = elems s' h ->
  irt_apply irt fuel s I d fn acc h = irt_apply irt fuel s' I d fn acc h.
Proof.
  intros He. destruct fuel; simpl;
    destruct (isLastDimension _ _); try done; by apply list_apply_elems.
Qed.

Lemma visit_ext {A} (fn fn' : addr -> A -> R (bool * A)) high cells acc (h : heap) :
  (forall a x, fn a x h = fn' a x h) ->
  visit fn high cells acc h = visit fn' high cells acc h.
Proof.
  intros Hfn. revert acc. induction cells as [|c rest IH]; intros acc; simpl; [done|].
  unfold bindR. destruct (deref c h) as [nd|]; [|done].
  destruct (high <? value nd)%Z; [done|].
  destruct c as [a|]; [|done].
  rewrite Hfn. destruct (fn' a acc h) as [[go acc']|]; [|done].
  destruct go; [apply IH | done].
Qed.

Lemma list_apply_ext {A} (fn fn' : addr -> A -> R (bool * A)) s low high acc (h : heap) :
  (forall a x, fn a x h = fn' a x h) ->
  list_apply fn s low high acc h = list_apply fn' s low high acc h.
Proof.
  intros Hfn. unfold list_apply, bindR.
  destruct (elems s h) as [es|]; [|done].
  destruct (list_search s low h) as [i|]; [|done].
  by apply visit_ext.
Qed.

(** [irt.apply] reads the receiver only for its number of dimensions. *)
Lemma irt_apply_dimensions {A} irt irt' fuel s I d
    (fn : addr -> A -> R (bool * A)) acc (h : heap) :
  dimensions irt = dimensions irt' ->
  irt_apply irt fuel s I d fn acc h = irt_apply irt' fuel s I d fn acc h.
Proof.
  intros HD. revert s d acc. induction fuel as [|fuel IH]; intros s d acc; simpl;
    rewrite HD; [done|].
  destruct (isLastDimension _ _); [done|].
  apply list_apply_ext. intros a x. unfold bindR.
  destruct (load_node a h); [apply IH | done].
Qed.


Lemma mono_collect {A} (f : node -> R (list A)) cells :
  (forall n, mono (f n)) -> mono (collect f cells).
Proof.
  intros Hf. induction cells as [|c rest IH]; simpl; [apply mono_retR|].
  apply mono_bindR; [apply mono_deref|]. intros n.
  apply mono_bindR; [apply Hf|]. intros xs.
  apply mono_bindR; [apply IH|]. intros ys. apply mono_retR.
Qed.

Lemma collect_Forall {A} (f : node -> R (list A)) cells (h : heap) bs :
  collect f cells h = Some bs ->
  Forall (fun c => is_Some (deref c h)) cells.
Proof.
  revert bs. induction cells as [|c rest IH]; intros bs; simpl; [constructor|].
  unfold bindR. destruct (deref c h) as [nd|] eqn:Ed; [|done].
  destruct (f nd h) as [xs|]; [|done].
  destruct (collect f rest h) as [ys|] eqn:Ec; [|done].
  intros _. constructor; [by eexists | by eapply IH].
Qed.

Lemma collect_lookup {A} (f : node -> R (list A)) cells (h : heap) bs i c nd :
  collect f cells h = Some bs ->
  cells !! i = Some c ->
  deref c h = Some nd ->
  exists xs, f nd h = Some xs /\ forall x, x ∈ xs -> x ∈ bs.
Proof.
  revert bs i. induction cells as [|c0 rest IH]; intros bs i; simpl; [done|].
  unfold bindR, retR. destruct (deref c0 h) as [nd0|] eqn:Ed; [|done].
  destruct (f nd0 h) as [xs0|] eqn:Ef; [|done].
  destruct (collect f rest h) as [ys|] eqn:Ec; [|done].
  intros [= <-] Hi Hd. destruct i as [|i]; simpl in Hi.
  - injection Hi as ->. rewrite Ed in Hd. injection Hd as ->.
    exists xs0. split; [done|]. intros x Hx. apply elem_of_app. by left.
  - destruct (IH ys i eq_refl Hi Hd) as (xs & Hxs & Hin).
    exists xs. split; [done|]. intros x Hx. apply elem_of_app. right. by apply Hin.
Qed.

(** The search ends, inside the range it was given, as soon as every cell
    of the list can be dereferenced. *)
Lemma bisect_total fuel es v lo hi (h : heap) :
  Forall (fun c => is_Some (deref c h)) es ->
  lo <= hi <= length es ->
  exists i, bisect fuel es v lo hi h = Some i /\ lo <= i <= hi.
Proof.
  intros Hes. revert lo hi. induction fuel as [|fuel IH]; intros lo hi Hb; cbn [bisect].
  - exists lo. split; [done|lia].
  - destruct (lo <? hi) eqn:El; [|exists lo; split; [done|lia]].
    apply Nat.ltb_lt in El.
    assert (Hmid : lo <= (lo + hi) `div` 2 < hi).
    { split; [apply Nat.div_le_lower_bound; lia
             | apply Nat.Div0.div_lt_upper_bound; lia]. }
    destruct (lookup_lt_is_Some_2 es ((lo + hi) `div` 2)) as [c Hc]; [lia|].
    rewrite Hc. unfold bindR.
    rewrite Forall_lookup in Hes. destruct (Hes _ _ Hc) as [nd Hnd].
    rewrite Hnd.
    destruct (v <=? value nd)%Z.
    + destruct (IH lo ((lo + hi) `div` 2)) as (i & Hi & Hr); [lia|].
      exists i. split; [done|lia].
    + destruct (IH (S ((lo + hi) `div` 2)) hi) as (i & Hi & Hr); [lia|].
      exists i. split; [done|lia].
Qed.

(** [get] on a list whose cells can all be dereferenced: it answers, and
    a node it returns is in the list and has the value asked for. *)
Lemma list_get_total l v (h : heap) es :
  elems l h = Some es ->
  Forall (fun c => is_Some (deref c h)) es ->
  exists local idx,
    list_get l v h = Some (local, idx)
    /\ forall a, local = Some a ->
         exists nd, es !! idx = Some (Some a)
                    /\ load_node a h = Some nd /\ value nd = v.
Proof.
  intros Hes Hall. pose proof (elems_length _ _ _ Hes) as Hlen.
  destruct (bisect_total (length es) es v 0 (length es) h Hall) as (i & Hi & Hr);
    [lia|].
  unfold list_get, bindR, list_search, bindR. rewrite Hes, Hi.
  destruct (i =? s_len l) eqn:Ei.
  - exists None, i. split; [done|]. by intros a.
  - apply Nat.eqb_neq in Ei.
    destruct (lookup_lt_is_Some_2 es i) as [c Hc]; [lia|].
    unfold index, bindR. rewrite Hes, Hc. unfold retR.
    rewrite Forall_lookup in Hall. destruct (Hall _ _ Hc) as [nd Hnd].
    rewrite Hnd. destruct (value nd =? v)%Z eqn:Ev.
    + exists c, i. split; [done|]. intros a ->. exists nd.
      apply Z.eqb_eq in Ev. by repeat split.
    + exists None, i. split; [done|]. by intros a.
Qed.


Lemma contains_unfold D fuel lst d e :
  contains D fuel lst d e
  = (let? es := elems lst in
     let? bs :=
       collect
         (fun n =>
            if (value n =? ValueAtDimension e d)%Z then
              if isLastDimension D d then retR [true]
              else
                match fuel with
                | O => panicR
                | S fuel' =>
                    let? b := contains D fuel' (orderedNodes n) (S d) e in
                    retR [b]
                end
            else retR [false])
         es in
     retR (existsb id bs)).
Proof. by destruct fuel. Qed.

Lemma descend_unfold fuel i n r e path :
  descend (S fuel) i n r e path
  = (let? l := load r in
     let? (local, idx) := list_get l (ValueAtDimension e i) in
     match local with
     | None => retR None
     | Some a =>
         descend fuel (S i) (Some a) (SField a) e
           (path ++ [Bundle r idx n None])
     end).
Proof. done. Qed.

Lemma existsb_id_false bs : existsb id bs = false -> true ∈ bs -> False.
Proof.
  intros He Ht. apply list_elem_of_In in Ht.
  assert (existsb id bs = true) by (apply existsb_exists; by exists true).
  congruence.
Qed.

(** A tuple that the exhaustive traversal does not find is not found by
    the descent of [delete] either.  [k] is the number of levels below
    the level [i]. *)
Lemma descend_absent D k i n r l e path (h : heap) :
  i + k = D ->
  load r h = Some l ->
  contains D (S k) l i e h = Some false ->
  descend (S k) i n r e path h = Some None.
Proof.
  revert i n r l path. induction k as [|k IH]; intros i n r l path HD Hl Hc;
    rewrite descend_unfold; unfold bindR at 1; rewrite Hl;
    rewrite contains_unfold in Hc; unfold bindR at 1 in Hc;
    (destruct (elems l h) as [es|] eqn:Hes; [|done]);
    unfold bindR at 1 in Hc;
    (destruct (collect _ es h) as [bs|] eqn:Hbs; [|done]);
    injection Hc as Hc;
    destruct (list_get_total l (ValueAtDimension e i) h es Hes
                (collect_Forall _ _ _ _ Hbs)) as (local & idx & Hg & Hloc);
    unfold bindR at 1; rewrite Hg;
    (destruct local as [a|]; [|done]);
    destruct (Hloc a eq_refl) as (nd & Hi & Hnd & Hv);
    destruct (collect_lookup _ _ _ _ _ _ nd Hbs Hi Hnd) as (xs & Hxs & Hin);
    rewrite Hv, Z.eqb_refl in Hxs.
  - replace (isLastDimension D i) with true in Hxs
      by (symmetry; apply Nat.leb_le; lia).
    injection Hxs as <-.
    destruct (existsb_id_false bs Hc). apply Hin. left.
  - replace (isLastDimension D i) with false in Hxs
      by (symmetry; apply Nat.leb_gt; lia).
    unfold bindR at 1 in Hxs.
    destruct (contains D (S k) (orderedNodes nd) (S i) e h) as [b|] eqn:Hb;
      [|done].
    injection Hxs as <-.
    assert (b = false) as ->.
    { destruct b; [|done]. destruct (existsb_id_false bs Hc). apply Hin. left. }
    apply (IH (S i) (Some a) (SField a) (orderedNodes nd)); [lia| |done].
    cbn [load]. unfold bindR, retR. by rewrite Hnd.
Qed.

Section DeleteTheory.
Variable clear_vacated : bool.
Local Abbreviation irt_delete := (irt_delete ValueAtDimension clear_vacated).
Local Abbreviation delete_all := (delete_all ValueAtDimension clear_vacated).
Local Abbreviation Delete := (Delete ValueAtDimension clear_vacated).
Local Abbreviation Add := (Add ValueAtDimension).
Local Abbreviation working_state := (working_state ValueAtDimension clear_vacated).
Local Abbreviation absent_at_turn := (absent_at_turn ValueAtDimension clear_vacated).
Local Abbreviation found := (found ValueAtDimension).
Local Abbreviation count_found := (count_found ValueAtDimension clear_vacated).
Local Abbreviation found_by_Delete := (found_by_Delete ValueAtDimension clear_vacated).

(** The early return of [delete]: nothing is written and the counter
    keeps its value. *)
Lemma irt_delete_absent irt top cache e d l (h : heap) :
  dimensions irt <> 0 ->
  load top h = Some l ->
  contains (dimensions irt) (dimensions irt) l 1 e h = Some false ->
  irt_delete irt top cache e d h = Some (d, h).
Proof.
  intros HD Hl Hc. destruct (dimensions irt) as [|k] eqn:ED; [done|].
  unfold irt_delete, bind, lift. rewrite ED.
  by rewrite (descend_absent (S k) k 1 None top l e [] h).
Qed.

Lemma delete_all_app irt top cache pre rest d (h : heap) :
  delete_all irt top cache (pre ++ rest) d h
  = match delete_all irt top cache pre d h with
    | Some (d1, h1) => delete_all irt top cache rest d1 h1
    | None => None
    end.
Proof.
  revert d h. induction pre as [|e pre IH]; intros d h; [done|].
  cbn [app delete_all]. unfold bind.
  destruct (irt_delete irt top cache e d h) as [[d1 h1]|]; [apply IH | done].
Qed.

(** [Delete], cut at the places the statements refer to. *)
Lemma Delete_unfold irt es (h : heap) :
  Delete irt es h
  = match Delete_prologue irt h with
    | Some ((top, cache), h1) =>
        match delete_all irt top cache es 0 h1 with
        | Some (d, h2) =>
            match load top h2 with
            | Some t' =>
                Some (Tree (wrap64 (number irt - d)) t' (dimensions irt), h2)
            | None => None
            end
        | None => None
        end
    | None => None
    end.
Proof.
  unfold Delete, Delete_prologue.
  destruct (newCache (dimensions irt)) as [cache|]; [|done].
  unfold bind, ret, lift.
  destruct (clone (top irt) h) as [[t h1]|]; [|done].
  destruct (new_var t h1) as [[v h2]|]; [|done].
  destruct (delete_all irt (SVar v) cache es 0 h2) as [[d h3]|]; [|done].
  by destruct (load (SVar v) h3).
Qed.

Lemma mono_contains D fuel lst d e : mono (contains D fuel lst d e).
Proof.
  revert lst d. induction fuel as [|fuel IH]; intros lst d;
    rewrite contains_unfold;
    (apply mono_bindR; [apply mono_elems|]); intros es;
    (apply mono_bindR; [|intros; apply mono_retR]);
    apply mono_collect; intros n;
    (destruct (value n =? _)%Z; [|apply mono_retR]);
    (destruct (isLastDimension D d); [apply mono_retR|]).
  - apply mono_panicR.
  - apply mono_bindR; [apply IH | intros; apply mono_retR].
Qed.

Lemma contains_elems D fuel l l' d e (h : heap) :
  elems l h = elems l' h ->
  contains D fuel l d e h = contains D fuel l' d e h.
Proof.
  intros He. rewrite !contains_unfold. unfold bindR at 1 3. by rewrite He.
Qed.

(** The prologue of [Delete] on a readable top list. *)
Lemma Delete_prologue_spec irt (h : heap) es :
  dimensions irt <> 0 ->
  elems (top irt) h = Some es ->
  let t := Slice (length (h_arrays h)) (s_len (top irt)) (s_len (top irt)) in
  Delete_prologue irt h
  = Some ((SVar (length (h_vars h)), replicate (dimensions irt) []),
          Heap (h_nodes h) (h_arrays h ++ [es]) (h_vars h ++ [t])).
Proof.
  intros HD Hes t. unfold Delete_prologue.
  destruct (dimensions irt) as [|D] eqn:ED; [done|]. cbn [newCache].
  unfold bind at 1. rewrite (clone_spec _ _ _ Hes).
  unfold bind, new_var, ret. done.
Qed.

(** An entry whose tuple is absent when its turn comes can be left out
    of the batch. *)
Lemma Delete_skips_at_turn irt pre e post (h : heap) :
  absent_at_turn irt pre e h = true ->
  Delete irt (pre ++ e :: post) h = Delete irt (pre ++ post) h.
Proof.
  unfold absent_at_turn, working_state, bind, ret.
  intros Ha. rewrite !Delete_unfold.
  destruct (Delete_prologue irt h) as [[[top cache] h1]|] eqn:Ep; [|done].
  assert (HD : dimensions irt <> 0).
  { unfold Delete_prologue in Ep. by destruct (dimensions irt). }
  rewrite !delete_all_app.
  destruct (delete_all irt top cache pre 0 h1) as [[d h2]|]; [|done].
  destruct (load top h2) as [l|] eqn:El; [|done].
  destruct (contains _ _ l 1 e h2) as [[|]|] eqn:Ec; try done.
  cbn [delete_all]. unfold bind at 1.
  by rewrite (irt_delete_absent irt top cache e d l h2).
Qed.

(** A tuple absent from the tree is absent from the working list at the
    start of the batch. *)
Lemma absent_from_tree irt e (h : heap) :
  dimensions irt <> 0 ->
  contains_tuple irt e h = Some false ->
  absent_at_turn irt [] e h = true.
Proof.
  intros HD Hc. unfold contains_tuple in Hc.
  assert (exists es, elems (top irt) h = Some es) as [es Hes].
  { rewrite contains_unfold in Hc. unfold bindR at 1 in Hc.
    destruct (elems (top irt) h); [by eexists | done]. }
  pose proof (elems_length _ _ _ Hes) as Hlen.
  unfold absent_at_turn, working_state, bind.
  rewrite (Delete_prologue_spec _ _ _ HD Hes).
  cbn [delete_all]. unfold ret. cbn [load h_vars].
  rewrite lookup_app_r, Nat.sub_diag by done. cbn [lookup list_lookup].
  set (t := Slice _ _ _). set (h1 := Heap _ _ _).
  assert (Hext : extends h h1).
  { repeat split; simpl; try done; by apply prefix_app_r. }
  rewrite (contains_elems _ _ t (top irt)).
  - by rewrite (mono_contains _ _ _ _ _ _ _ _ Hext Hc).
  - rewrite (mono_elems _ _ _ _ Hext Hes).
    apply (elems_of_fresh_copy (Heap (h_nodes h) (h_arrays h) _)), Hlen.
Qed.

Lemma Delete_skips_absent_head irt e post (h : heap) :
  contains_tuple irt e h = Some false ->
  Delete irt (e :: post) h = Delete irt post h.
Proof.
  intros Hc. destruct (decide (dimensions irt = 0)) as [HD|HD].
  - unfold Delete. by rewrite HD.
  - apply (Delete_skips_at_turn irt [] e post), absent_from_tree; done.
Qed.

(** The counter of [delete] goes up by one exactly when the lookup
    succeeds; the store it leaves does not depend on the counter. *)
Lemma irt_delete_counter irt top cache e d (h : heap) :
  irt_delete irt top cache e d h
  = match irt_delete irt top cache e 0 h with
    | Some (_, h') =>
        Some (if found irt top e h then wrap64 (d + 1) else d, h')
    | None => None
    end.
Proof.
  unfold irt_delete, found, bind, lift, ret.
  destruct (descend _ _ _ _ _ _ _) as [[path|]|]; try done.
  destruct (rebuild irt (length path) path h) as [[path' h1]|]; [|done].
  by destruct (splice clear_vacated path' h1) as [[[] h2]|].
Qed.

Lemma delete_all_counter irt top cache es d d' (h h' : heap) :
  delete_all irt top cache es d h = Some (d', h') ->
  wrap64 d' = wrap64 (d + Z.of_nat (count_found irt top cache es h)).
Proof.
  revert d h. induction es as [|e es IH]; intros d h.
  - cbn. intros [= -> ->]. by rewrite Z.add_0_r.
  - cbn [delete_all count_found]. unfold bind at 1.
    rewrite irt_delete_counter.
    destruct (irt_delete irt top cache e 0 h) as [[d0 h1]|]; [|done].
    intros Hd. apply IH in Hd. rewrite Hd. unfold wrap64.
    destruct (found irt top e h).
    + rewrite Nat2Z.inj_add, Z.add_assoc. cbn [Z.of_nat Pos.of_succ_nat].
      by rewrite Zplus_mod_idemp_l.
    + by rewrite Nat.add_0_l.
Qed.

Lemma Delete_counts_found irt es t' (h h' : heap) :
  Delete irt es h = Some (t', h') ->
  Len t' = wrap64 (Len irt - Z.of_nat (found_by_Delete irt es h)).
Proof.
  rewrite Delete_unfold. unfold found_by_Delete.
  destruct (Delete_prologue irt h) as [[[top cache] h1]|]; [|done].
  destruct (delete_all irt top cache es 0 h1) as [[d h2]|] eqn:Ed; [|done].
  destruct (load top h2) as [t|]; [|done].
  intros [= <- <-]. apply delete_all_counter in Ed.
  unfold Len. cbn [number]. unfold wrap64 in *.
  rewrite Z.add_0_l in Ed.
  by rewrite <- Zminus_mod_idemp_r, Ed, Zminus_mod_idemp_r.
Qed.

(** *** [delete] returns

    When the lookup of [delete] answers, the rest of [delete] runs
    without a panic: the path it recorded can be copied and spliced. *)

Lemma list_get_found l v (h : heap) a idx :
  list_get l v h = Some (Some a, idx) ->
  exists es nd,
    elems l h = Some es /\ es !! idx = Some (Some a) /\ load_node a h = Some nd.
Proof.
  unfold list_get, bindR, retR. destruct (list_search l v h) as [i|]; [|done].
  destruct (i =? s_len l); [done|].
  unfold index, bindR, retR, panicR. destruct (elems l h) as [es|]; [|done].
  destruct (es !! i) as [c|] eqn:Ec; [|done].
  destruct (deref c h) as [nd|] eqn:Ed; [|done].
  destruct (value nd =? v)%Z; [|done].
  intros [= -> ->]. exists es, nd. by repeat split.
Qed.

(** The path recorded by the descent: each bundle names the list it was
    found in and the node above it, and its index holds a node. *)
Fixpoint chain (h : heap) (r : sref) (n : option addr)
    (bundles : list immutableNodeBundle) : Prop :=
  match bundles with
  | [] => True
  | nb :: rest =>
      nb_list nb = r /\ previousNode nb = n /\ nb_newNode nb = None
      /\ exists l es a nd,
           load r h = Some l /\ elems l h = Some es
           /\ es !! nb_index nb = Some (Some a) /\ load_node a h = Some nd
           /\ chain h (SField a) (Some a) rest
  end.

Lemma descend_path fuel i n r e path0 path (h : heap) :
  descend fuel i n r e path0 h = Some (Some path) ->
  exists new, path = path0 ++ new /\ length new = fuel /\ chain h r n new.
Proof.
  revert i n r path0. induction fuel as [|fuel IH]; intros i n r path0.
  - cbn. intros [= <-]. exists []. by rewrite app_nil_r.
  - rewrite descend_unfold. unfold bindR at 1.
    destruct (load r h) as [l|] eqn:El; [|done].
    unfold bindR at 1.
    destruct (list_get l _ h) as [[[a|] idx]|] eqn:Eg; try done.
    intros Hd. destruct (IH _ _ _ _ Hd) as (new & -> & Hlen & Hch).
    destruct (list_get_found _ _ _ _ _ Eg) as (es & nd & Hes & Hi & Hnd).
    exists (Bundle r idx n None :: new). rewrite <- app_assoc.
    repeat split; [by rewrite <- Hlen|]. cbn [chain nb_list previousNode nb_newNode nb_index].
    repeat split. by exists l, es, a, nd.
Qed.

Lemma readable_unfold D fuel lst d :
  readable D fuel lst d
  = (let? es := elems lst in
     let? bs :=
       collect
         (fun n : node =>
            if isLastDimension D d then retR [true]
            else
              match fuel with
              | O => panicR
              | S fuel' =>
                  let? b := readable D fuel' (orderedNodes n) (S d) in
                  retR [b]
              end)
         es in
     retR (forallb id bs)).
Proof. by destruct fuel. Qed.

(** On a readable list the descent answers. *)
Lemma descend_total D k i n r l e path (h : heap) :
  i + k = D ->
  load r h = Some l ->
  is_Some (readable D (S k) l i h) ->
  is_Some (descend (S k) i n r e path h).
Proof.
  revert i n r l path. induction k as [|k IH]; intros i n r l path HD Hl [b Hr];
    rewrite descend_unfold; unfold bindR at 1; rewrite Hl;
    rewrite readable_unfold in Hr; unfold bindR at 1 in Hr;
    (destruct (elems l h) as [es|] eqn:Hes; [|done]);
    unfold bindR at 1 in Hr;
    (destruct (collect _ es h) as [bs|] eqn:Hbs; [|done]);
    destruct (list_get_total l (ValueAtDimension e i) h es Hes
                (collect_Forall _ _ _ _ Hbs)) as (local & idx & Hg & Hloc);
    unfold bindR at 1; rewrite Hg;
    (destruct local as [a|]; [|by eexists]).
  - by eexists.
  - destruct (Hloc a eq_refl) as (nd & Hi & Hnd & Hv).
    destruct (collect_lookup _ _ _ _ _ _ nd Hbs Hi Hnd) as (xs & Hxs & Hin).
    replace (isLastDimension D i) with false in Hxs
      by (symmetry; apply Nat.leb_gt; lia).
    unfold bindR at 1 in Hxs.
    destruct (readable D (S k) (orderedNodes nd) (S i) h) as [b'|] eqn:Hb;
      [|done].
    apply (IH (S i) (Some a) (SField a) (orderedNodes nd)); [lia| |by eexists].
    cbn [load]. unfold bindR, retR. by rewrite Hnd.
Qed.

(** What [delete] writes to lies above two marks: the variables from
    [V] on and the arrays from [A] on.  The marks are those of the store
    at the call of [Delete]. *)
Section Bounds.
Variables vmark amark : nat.

(** A bundle is ready to be spliced when its list is a variable above
    the mark, holding a slice whose backing array is above the mark, and
    the index is inside the slice. *)
Definition ready (h : heap) (nb : immutableNodeBundle) : Prop :=
  exists v s cells,
    nb_list nb = SVar v /\ h_vars h !! v = Some s
    /\ h_arrays h !! s_arr s = Some cells
    /\ s_len s <= length cells /\ nb_index nb < s_len s
    /\ vmark <= v /\ amark <= s_arr s.

(** [kept h h']: the nodes of [h] are those of [h'] at the same
    addresses, the variables and arrays below the marks are the same in
    both, and every variable still holds a slice on the array it had. *)
Definition kept (h h' : heap) : Prop :=
  h_nodes h `prefix_of` h_nodes h'
  /\ (forall v, v < vmark -> h_vars h' !! v = h_vars h !! v)
  /\ (forall a, a < amark -> h_arrays h' !! a = h_arrays h !! a)
  /\ (forall v s, h_vars h !! v = Some s ->
        exists s', h_vars h' !! v = Some s' /\ s_arr s' = s_arr s).

Lemma kept_refl (h : heap) : kept h h.
Proof. repeat split; try done. intros v s Hs. by exists s. Qed.

Lemma kept_trans (h1 h2 h3 : heap) : kept h1 h2 -> kept h2 h3 -> kept h1 h3.
Proof.
  intros (Hn & Hv & Ha & Hs) (Hn' & Hv' & Ha' & Hs'). repeat split.
  - by etrans.
  - intros v Hlt. by rewrite Hv', Hv.
  - intros a Hlt. by rewrite Ha', Ha.
  - intros v s Hvs. destruct (Hs v s Hvs) as (s' & Hvs' & He).
    destruct (Hs' v s' Hvs') as (s'' & Hvs'' & He').
    exists s''. split; [done|congruence].
Qed.

Lemma extends_kept (h h' : heap) :
  extends h h' ->
  vmark <= length (h_vars h) -> amark <= length (h_arrays h) ->
  kept h h'.
Proof.
  intros (Hn & Ha & Hv) HV HA. repeat split; [done| | |].
  - intros v Hlt. destruct (lookup_lt_is_Some_2 (h_vars h) v) as [s Hs]; [lia|].
    rewrite Hs. by eapply prefix_lookup_Some.
  - intros a Hlt.
    destruct (lookup_lt_is_Some_2 (h_arrays h) a) as [c Hc]; [lia|].
    rewrite Hc. by eapply prefix_lookup_Some.
  - intros v s Hs. exists s. split; [|done]. by eapply prefix_lookup_Some.
Qed.

Definition splice_step (nb : immutableNodeBundle) : M unit :=
  match nb_newNode nb with
  | None => list_deleteAt clear_vacated (nb_list nb) (nb_index nb)
  | Some nn =>
      let* l := lift (load (nb_list nb)) in
      set_index l (nb_index nb) (Some nn)
  end.

Lemma splice_unfold nb rest :
  splice clear_vacated (nb :: rest)
  = (let* _ := splice_step nb in splice clear_vacated rest).
Proof. done. Qed.

Lemma splice_step_ready nb (h : heap) :
  ready h nb ->
  exists h',
    splice_step nb h = Some (tt, h')
    /\ length (h_vars h') = length (h_vars h)
    /\ (forall v', SVar v' <> nb_list nb -> h_vars h' !! v' = h_vars h !! v')
    /\ (forall a cells, h_arrays h !! a = Some cells ->
          exists cells', h_arrays h' !! a = Some cells'
                         /\ length cells' = length cells)
    /\ kept h h'.
Proof.
  intros (v & s & cells & Hl & Hv & Ha & Hlen & Hi & HV & HA).
  pose proof (lookup_lt_Some _ _ _ Hv) as Hvlt.
  pose proof (lookup_lt_Some _ _ _ Ha) as Halt.
  unfold splice_step. rewrite Hl. destruct (nb_newNode nb) as [nn|].
  - unfold bind, lift. cbn [load]. rewrite Hv.
    unfold set_index, bind, lift, load_array.
    replace (nb_index nb <? s_len s) with true by (symmetry; apply Nat.ltb_lt; lia).
    rewrite Ha.
    replace (nb_index nb <? length cells) with true
      by (symmetry; apply Nat.ltb_lt; lia).
    unfold store_array.
    replace (s_arr s <? length (h_arrays h)) with true
      by (symmetry; by apply Nat.ltb_lt).
    eexists. split; [reflexivity|]. cbn [h_vars h_arrays h_nodes].
    split; [done|]. split; [done|]. split.
    + intros a cells0 Hc. destruct (decide (a = s_arr s)) as [->|Hne].
      * rewrite list_lookup_insert_eq by done. eexists. split; [done|].
        pose proof (eq_trans (eq_sym Hc) Ha) as [= ->]. by rewrite length_insert.
      * rewrite list_lookup_insert_ne by done. by exists cells0.
    + repeat split; cbn [h_vars h_arrays h_nodes]; try done.
      * intros a Hlt. apply list_lookup_insert_ne. lia.
      * intros v' s' Hs'. by exists s'.
  - unfold list_deleteAt, bind, lift. cbn [load]. rewrite Hv.
    replace (s_len s <=? nb_index nb) with false
      by (symmetry; apply Nat.leb_gt; lia).
    unfold load_array. rewrite Ha. unfold store_array.
    replace (s_arr s <? length (h_arrays h)) with true
      by (symmetry; by apply Nat.ltb_lt).
    cbn [store h_vars].
    replace (v <? length (h_vars h)) with true
      by (symmetry; by apply Nat.ltb_lt).
    eexists. split; [reflexivity|]. cbn [h_vars h_arrays h_nodes].
    split; [by rewrite length_insert|]. split; [|split].
    + intros v' Hne. apply list_lookup_insert_ne. congruence.
    + intros a cells0 Hc. destruct (decide (a = s_arr s)) as [->|Hne].
      * rewrite list_lookup_insert_eq by done. eexists. split; [done|].
        pose proof (eq_trans (eq_sym Hc) Ha) as [= ->].
        rewrite !length_app, !length_take, length_drop.
        destruct clear_vacated; cbn [length]; rewrite length_drop; lia.
      * rewrite list_lookup_insert_ne by done. by exists cells0.
    + repeat split; cbn [h_vars h_arrays h_nodes]; try done.
      * intros v' Hlt. apply list_lookup_insert_ne. lia.
      * intros a Hlt. apply list_lookup_insert_ne. lia.
      * intros v' s' Hs'. destruct (decide (v' = v)) as [->|Hne].
        -- rewrite list_lookup_insert_eq by done. eexists. split; [done|].
           pose proof (eq_trans (eq_sym Hs') Hv) as [= ->]. done.
        -- rewrite list_lookup_insert_ne by done. by exists s'.
Qed.

Lemma splice_total path (h : heap) :
  Forall (ready h) path ->
  NoDup (nb_list <$> path) ->
  exists h', splice clear_vacated path h = Some (tt, h') /\ kept h h'.
Proof.
  revert h. induction path as [|nb rest IH]; intros h Hall Hnd.
  - exists h. split; [done|apply kept_refl].
  - apply Forall_cons_1 in Hall as [Hnb Hrest].
    rewrite fmap_cons in Hnd.
    pose proof (NoDup_cons_1_1 _ _ Hnd) as Hnotin.
    apply NoDup_cons_1_2 in Hnd.
    destruct (splice_step_ready nb h Hnb)
      as (h1 & Hs & Hlen & Hvars & Harrs & Hkept).
    rewrite splice_unfold. unfold bind at 1. rewrite Hs.
    destruct (IH h1) as (h' & Hsp & Hkept'); [|done|].
    + rewrite Forall_lookup in Hrest. apply Forall_lookup. intros j nb' Hj.
      pose proof (list_elem_of_lookup_2 _ _ _ Hj) as Hin.
      destruct (Hrest j nb' Hj)
        as (v & s & cells & Hl & Hv & Ha & Hle & Hi & HV & HA).
      destruct (Harrs _ _ Ha) as (cells' & Ha' & Hlc).
      exists v, s, cells'. repeat split; try done; [|lia].
      rewrite Hvars; [done|]. intros Heq. apply Hnotin.
      rewrite <- Heq, <- Hl. apply list_elem_of_fmap. exists nb'. by split.
    + exists h'. split; [done|]. by eapply kept_trans.
Qed.

(** Extension of the store, and the steps of [rebuild] that extend it. *)
Lemma extends_trans (h1 h2 h3 : heap) :
  extends h1 h2 -> extends h2 h3 -> extends h1 h3.
Proof.
  intros (Hn & Ha & Hv) (Hn' & Ha' & Hv').
  repeat split; by etrans.
Qed.

Lemma prefix_insert_beyond {A} (l1 l2 : list A) a x :
  l1 `prefix_of` l2 -> length l1 <= a -> l1 `prefix_of` <[a:=x]> l2.
Proof.
  intros [k ->] Hle. rewrite insert_app_r_alt by done. by apply prefix_app_r.
Qed.

Lemma ready_extends (h h' : heap) nb : extends h h' -> ready h nb -> ready h' nb.
Proof.
  intros (_ & Ha & Hv) (v & s & cells & Hl & Hs & Hc & Hle & Hi & HV & HA).
  exists v, s, cells. repeat split; try done; by eapply prefix_lookup_Some.
Qed.

(** A bundle of the path that has not been copied yet. *)
Definition located (h : heap) (nb : immutableNodeBundle) : Prop :=
  exists l es prev pn,
    previousNode nb = Some prev /\ load_node prev h = Some pn
    /\ load (nb_list nb) h = Some l /\ elems l h = Some es
    /\ nb_index nb < length es.

Lemma located_extends (h h' : heap) nb :
  extends h h' -> located h nb -> located h' nb.
Proof.
  intros Hext (l & es & prev & pn & Hp & Hpn & Hl & Hes & Hi).
  exists l, es, prev, pn. repeat split; try done.
  - by apply (mono_load_node _ _ _ _ Hext).
  - by apply (mono_load _ _ _ _ Hext).
  - by apply (mono_elems _ _ _ _ Hext).
Qed.

Definition same_place (x x' : immutableNodeBundle) : Prop :=
  nb_list x = nb_list x' /\ nb_index x = nb_index x'
  /\ previousNode x = previousNode x'.

Lemma ready_same_place (h : heap) x x' : same_place x x' -> ready h x -> ready h x'.
Proof.
  intros (Hl & Hi & _) (v & s & cells & Hv & Hs & Hc & Hle & Hlt & HV & HA).
  exists v, s, cells. rewrite <- Hl, <- Hi. by repeat split.
Qed.

Lemma located_same_place (h : heap) x x' :
  same_place x x' -> located h x -> located h x'.
Proof.
  intros (Hl & Hi & Hp) (l & es & prev & pn & Hprev & Hpn & Hld & Hes & Hlt).
  exists l, es, prev, pn. rewrite <- Hl, <- Hi, <- Hp. by repeat split.
Qed.

Lemma newNode_spec v e b (h : heap) :
  exists h',
    newNode v e b h = Some (length (h_nodes h), h')
    /\ extends h h'
    /\ h_vars h' = h_vars h
    /\ length (h_nodes h') = S (length (h_nodes h)).
Proof.
  unfold newNode, make, bind, ret, new_array, new_node. destruct b; cbn.
  - eexists. split; [reflexivity|]. cbn.
    repeat split; try done; try by apply prefix_app_r.
    rewrite length_app. cbn. lia.
  - eexists. split; [reflexivity|]. cbn.
    repeat split; try done; try by apply prefix_app_r.
    rewrite length_app. cbn. lia.
Qed.

Lemma store_field_spec a s (h0 h : heap) :
  extends h0 h ->
  length (h_nodes h0) <= a < length (h_nodes h) ->
  exists h',
    store (SField a) s h = Some (tt, h')
    /\ extends h0 h'
    /\ h_vars h' = h_vars h /\ h_arrays h' = h_arrays h.
Proof.
  intros (Hn & Ha & Hv) [Hle Hlt].
  destruct (lookup_lt_is_Some_2 (h_nodes h) a Hlt) as [nd Hnd].
  unfold store, bind, lift, load_node. rewrite Hnd. unfold store_node.
  replace (a <? length (h_nodes h)) with true by (symmetry; by apply Nat.ltb_lt).
  eexists. split; [reflexivity|]. cbn.
  repeat split; try done. by apply prefix_insert_beyond.
Qed.

(** The state of the second loop of [delete] before it handles the index
    [j - 1]: the first bundle is on the working top list, the bundles
    below [j] are as the descent left them, and the bundles from [j] on
    sit on copies of their own. *)
Definition rebuild_inv (j : nat) (path : list immutableNodeBundle) (h : heap)
  : Prop :=
  j <= length path
  /\ (forall nb, path !! 0 = Some nb -> previousNode nb = None /\ ready h nb)
  /\ (forall i nb, 0 < i < j -> path !! i = Some nb -> located h nb)
  /\ (forall i nb, j <= i -> path !! i = Some nb -> ready h nb)
  /\ (forall i1 i2 nb1 nb2,
        (i1 = 0 \/ j <= i1) -> (i2 = 0 \/ j <= i2) ->
        path !! i1 = Some nb1 -> path !! i2 = Some nb2 ->
        nb_list nb1 = nb_list nb2 -> i1 = i2).

Lemma ready_var_bound (h : heap) nb v :
  ready h nb -> nb_list nb = SVar v -> v < length (h_vars h).
Proof.
  intros (v' & s & cells & Hl & Hs & _) Hv. rewrite Hl in Hv.
  injection Hv as <-. by eapply lookup_lt_Some.
Qed.

Lemma rebuild_inv_step i path path' (h h' : heap) nb v :
  rebuild_inv (S i) path h ->
  0 < i ->
  extends h h' ->
  length path' = length path ->
  (forall k x', k <> i -> path' !! k = Some x' ->
     exists x, path !! k = Some x /\ same_place x x') ->
  path' !! i = Some nb ->
  nb_list nb = SVar v ->
  length (h_vars h) <= v ->
  ready h' nb ->
  rebuild_inv i path' h'.
Proof.
  intros (I1 & I2 & I3 & I4 & I5) Hi Hext Hlen Hsame Hnb Hv Hfresh Hready.
  assert (Hold : forall k x', (k = 0 \/ S i <= k) -> path' !! k = Some x' ->
            exists x, path !! k = Some x /\ same_place x x' /\ ready h x).
  { intros k x' Hk Hx'. destruct (Hsame k x') as (x & Hx & Hsp); [lia|done|].
    exists x. repeat split; try done; try apply Hsp.
    destruct Hk as [->|Hk]; [by apply I2 | by apply (I4 k)]. }
  split; [lia|]. split; [|split; [|split]].
  - intros nb0 H0. destruct (Hold 0 nb0) as (x & Hx & Hsp & Hr); [by left|done|].
    split.
    + destruct Hsp as (_ & _ & <-). by apply I2.
    + eapply ready_same_place, ready_extends; done.
  - intros k x' Hk Hx'. destruct (Hsame k x') as (x & Hx & Hsp); [lia|done|].
    eapply located_same_place, located_extends; [done|done|].
    apply (I3 k); [lia|done].
  - intros k x' Hk Hx'. destruct (decide (k = i)) as [->|Hne].
    + rewrite Hnb in Hx'. by injection Hx' as <-.
    + destruct (Hold k x') as (x & Hx & Hsp & Hr); [right; lia|done|].
      eapply ready_same_place, ready_extends; done.
  - intros i1 i2 x1 x2 H1 H2 Hx1 Hx2 Heq.
    destruct (decide (i1 = i)) as [->|Hne1], (decide (i2 = i)) as [->|Hne2];
      [done| | |].
    + destruct (Hold i2 x2) as (x & Hx & Hsp & Hr); [lia|done|].
      rewrite Hnb in Hx1. injection Hx1 as <-. rewrite Hv in Heq.
      destruct Hsp as (Hl & _). rewrite <- Hl in Heq.
      pose proof (ready_var_bound _ _ _ Hr (eq_sym Heq)). lia.
    + destruct (Hold i1 x1) as (x & Hx & Hsp & Hr); [lia|done|].
      rewrite Hnb in Hx2. injection Hx2 as <-. rewrite Hv in Heq.
      destruct Hsp as (Hl & _). rewrite <- Hl in Heq.
      pose proof (ready_var_bound _ _ _ Hr Heq). lia.
    + destruct (Hold i1 x1) as (y1 & Hy1 & (Hl1 & _) & _); [lia|done|].
      destruct (Hold i2 x2) as (y2 & Hy2 & (Hl2 & _) & _); [lia|done|].
      apply (I5 i1 i2 y1 y2); [lia|lia|done|done|congruence].
Qed.

Lemma rebuild_inv_first path (h : heap) :
  rebuild_inv 1 path h -> rebuild_inv 0 path h.
Proof.
  intros (I1 & I2 & I3 & I4 & I5). split; [lia|]. split; [done|].
  split; [intros; lia|]. split.
  - intros k x _ Hx. destruct k; [by apply I2 | apply (I4 (S k)); [lia|done]].
  - intros i1 i2 x1 x2 _ _. apply I5; lia.
Qed.

Lemma rebuild_unfold irt i path :
  rebuild irt (S i) path
  = match path !! i return M (list immutableNodeBundle) with
    | None => panic
    | Some nb =>
        match previousNode nb with
        | None => rebuild irt i path
        | Some prev =>
            let* l := lift (load (nb_list nb)) in
            let* nodes := clone l in
            let* v := new_var nodes in
            let path :=
              <[i := Bundle (SVar v) (nb_index nb) (previousNode nb)
                       (nb_newNode nb)]> path in
            if s_len nodes =? 1 then rebuild irt i path
            else
              let* pn := lift (load_node prev) in
              let* nn := newNode (value pn) (entry pn)
                           (negb (isLastDimension (dimensions irt) (i + 1))) in
              let* _ := store (SField nn) nodes in
              match i with
              | O => panic
              | S i' =>
                  match path !! i' with
                  | None => panic
                  | Some up =>
                      rebuild irt i
                        (<[i' := Bundle (nb_list up) (nb_index up)
                                   (previousNode up) (Some nn)]> path)
                  end
              end
        end
    end.
Proof. done. Qed.

(** The second loop of [delete] runs to its end and leaves every bundle
    ready to be spliced, each on a list of its own. *)
Lemma rebuild_total irt j path (h : heap) :
  rebuild_inv j path h ->
  exists path' h',
    rebuild irt j path h = Some (path', h')
    /\ rebuild_inv 0 path' h' /\ kept h h'.
Proof.
  revert path h. induction j as [|i IH]; intros path h Hinv.
  { exists path, h. split; [done|]. split; [done|apply kept_refl]. }
  pose proof Hinv as (I1 & I2 & I3 & I4 & I5).
  destruct (lookup_lt_is_Some_2 path i) as [nb Hnb]; [lia|].
  rewrite rebuild_unfold, Hnb.
  destruct (previousNode nb) as [prev|] eqn:Hprev.
  2: { destruct i as [|i].
       - apply IH. by apply rebuild_inv_first.
       - destruct (I3 (S i) nb) as (? & ? & ? & ? & Hp & _); [lia|done|].
         congruence. }
  destruct i as [|i'].
  { destruct (I2 nb Hnb) as [Hp _]. congruence. }
  set (i := S i') in *.
  destruct (I3 i nb) as (l & es & prev' & pn & Hp & Hpn & Hl & Hes & Hidx);
    [lia|done|].
  assert (prev' = prev) as -> by congruence.
  pose proof (elems_length _ _ _ Hes) as Hlen.
  assert (vmark <= length (h_vars h) /\ amark <= length (h_arrays h)) as [HV HA].
  { destruct (lookup_lt_is_Some_2 path 0) as [nb0 Hnb0]; [lia|].
    destruct (I2 nb0 Hnb0)
      as [_ (v0 & s0 & c0 & _ & Hv0 & Hc0 & _ & _ & HV0 & HA0)].
    apply lookup_lt_Some in Hv0. apply lookup_lt_Some in Hc0. lia. }
  unfold bind at 1, lift. rewrite Hl.
  unfold bind at 1. rewrite (clone_spec _ _ _ Hes).
  unfold bind at 1, new_var. cbn [h_vars h_nodes h_arrays].
  set (nodes := Slice (length (h_arrays h)) (s_len l) (s_len l)).
  set (h2 := Heap (h_nodes h) (h_arrays h ++ [es]) (h_vars h ++ [nodes])).
  set (newb := Bundle (SVar (length (h_vars h))) (nb_index nb) (Some prev)
                 (nb_newNode nb)).
  set (path1 := <[i := newb]> path).
  assert (Hext2 : extends h h2).
  { repeat split; cbn; try done; by apply prefix_app_r. }
  assert (Hready2 : ready h2 newb).
  { exists (length (h_vars h)), nodes, es. cbn.
    rewrite !lookup_app_r, !Nat.sub_diag by done. repeat split; cbn; lia. }
  assert (Hlen1 : length path1 = length path) by apply length_insert.
  assert (Hnb1 : path1 !! i = Some newb)
    by (apply list_lookup_insert_eq; lia).
  assert (Hsame1 : forall k x', k <> i -> path1 !! k = Some x' ->
            exists x, path !! k = Some x /\ same_place x x').
  { intros k x' Hk Hx'. unfold path1 in Hx'.
    rewrite list_lookup_insert_ne in Hx' by done. by exists x'. }
  destruct (s_len nodes =? 1).
  - destruct (IH path1 h2) as (path' & h' & Hr & Hinv' & Hext').
    { eapply (rebuild_inv_step i path path1 h h2 newb); try done; lia. }
    exists path', h'. split; [done|]. split; [done|].
    eapply kept_trans; [|done]. by apply extends_kept.
  - unfold bind at 1, lift.
    rewrite (mono_load_node _ _ _ _ Hext2 Hpn).
    destruct (newNode_spec (value pn) (entry pn)
                (negb (isLastDimension (dimensions irt) (i + 1))) h2)
      as (h3 & Hnew & Hext3 & Hvars3 & Hlen3).
    unfold bind at 1. rewrite Hnew.
    destruct (store_field_spec (length (h_nodes h2)) nodes h2 h3)
      as (h4 & Hst & Hext4 & Hvars4 & Harrs4); [done|lia|].
    unfold bind at 1. rewrite Hst.
    destruct (lookup_lt_is_Some_2 path1 i') as [up Hup]; [lia|].
    cbn [i]. rewrite Hup.
    set (path2 := <[i' := _]> path1).
    destruct (IH path2 h4) as (path' & h' & Hr & Hinv' & Hext').
    { eapply (rebuild_inv_step i path path2 h h4 newb); try done.
      - lia.
      - by eapply extends_trans.
      - unfold path2. by rewrite length_insert.
      - intros k x' Hk Hx'. unfold path2 in Hx'.
        destruct (decide (k = i')) as [->|Hne].
        + rewrite list_lookup_insert_eq in Hx' by lia. injection Hx' as <-.
          destruct (Hsame1 i' up) as (x & Hx & Hsp); [lia|done|].
          exists x. split; [done|]. destruct Hsp as (? & ? & ?). by repeat split.
        + rewrite list_lookup_insert_ne in Hx' by done. by apply Hsame1.
      - unfold path2. rewrite list_lookup_insert_ne by lia. done.
      - by eapply ready_extends. }
    exists path', h'. split; [done|]. split; [done|].
    eapply kept_trans; [|done]. apply extends_kept; [|done|done].
    by eapply extends_trans.
Qed.

Lemma elems_array s (h : heap) es :
  elems s h = Some es ->
  s_len s <> 0 ->
  exists cells, h_arrays h !! s_arr s = Some cells /\ s_len s <= length cells.
Proof.
  unfold elems, bindR, retR, panicR, load_array. intros He Hn.
  replace (s_len s =? 0) with false in He by (symmetry; by apply Nat.eqb_neq).
  destruct (h_arrays h !! s_arr s) as [cells|]; [|done].
  destruct (s_len s <=? length cells) eqn:El; [|done].
  exists cells. split; [done|]. by apply Nat.leb_le.
Qed.

Lemma chain_lookup (h : heap) r n path i nb :
  chain h r n path ->
  path !! i = Some nb ->
  (exists l es, load (nb_list nb) h = Some l /\ elems l h = Some es
                /\ nb_index nb < length es)
  /\ (i = 0 -> nb_list nb = r /\ previousNode nb = n)
  /\ (0 < i -> exists prev pn,
        previousNode nb = Some prev /\ load_node prev h = Some pn).
Proof.
  revert r n i. induction path as [|b rest IH]; intros r n i; [done|].
  cbn [chain]. intros (Hr & Hn & _ & l & es & a & nd & Hl & Hes & Hi & Hnd & Hch).
  destruct i as [|i]; cbn.
  - intros [= <-]. split; [|split; [done|lia]].
    exists l, es. rewrite Hr. repeat split; try done. by eapply lookup_lt_Some.
  - intros Hnb. destruct (IH _ _ _ Hch Hnb) as (Hloc & H0 & Hpos).
    split; [done|]. split; [lia|]. intros _.
    destruct i as [|i].
    + destruct H0 as [_ Hp]; [done|]. by exists a, nd.
    + apply Hpos. lia.
Qed.

Lemma chain_rebuild_inv (h : heap) v0 path :
  vmark <= v0 ->
  (forall s, h_vars h !! v0 = Some s -> amark <= s_arr s) ->
  chain h (SVar v0) None path -> rebuild_inv (length path) path h.
Proof.
  intros HV HA Hch. split; [done|]. split; [|split; [|split]].
  - intros nb Hnb.
    destruct (chain_lookup _ _ _ _ _ _ Hch Hnb)
      as ((l & es & Hl & Hes & Hi) & H0 & _).
    destruct H0 as [Hr Hp]; [done|]. split; [done|].
    pose proof (elems_length _ _ _ Hes) as Hlen.
    destruct (elems_array _ _ _ Hes) as (cells & Hc & Hle); [lia|].
    rewrite Hr in Hl. cbn in Hl.
    exists v0, l, cells. repeat split; try done; [lia|by apply HA].
  - intros i nb Hi Hnb.
    destruct (chain_lookup _ _ _ _ _ _ Hch Hnb)
      as ((l & es & Hl & Hes & Hidx) & _ & Hpos).
    destruct Hpos as (prev & pn & Hp & Hpn); [lia|].
    by exists l, es, prev, pn.
  - intros i nb Hi Hnb. apply lookup_lt_Some in Hnb. lia.
  - intros i1 i2 nb1 nb2 H1 H2 Hnb1 Hnb2 _.
    apply lookup_lt_Some in Hnb1. apply lookup_lt_Some in Hnb2. lia.
Qed.

(** When the lookup finds the entry, [delete] returns, and it has
    written above the marks only. *)
Lemma irt_delete_found irt v0 cache e d path (h : heap) :
  vmark <= v0 ->
  (forall s, h_vars h !! v0 = Some s -> amark <= s_arr s) ->
  descend (dimensions irt) 1 None (SVar v0) e [] h = Some (Some path) ->
  exists h',
    irt_delete irt (SVar v0) cache e d h = Some (wrap64 (d + 1), h')
    /\ kept h h'.
Proof.
  intros HV HA Hd. unfold irt_delete, bind, lift. rewrite Hd.
  destruct (descend_path _ _ _ _ _ _ _ _ Hd) as (new & -> & _ & Hch).
  cbn [app] in *.
  destruct (rebuild_total irt (length new) new h
              (chain_rebuild_inv _ _ _ HV HA Hch))
    as (path' & h1 & Hr & (_ & _ & _ & I4 & I5) & Hk1).
  rewrite Hr.
  destruct (splice_total path' h1) as (h2 & Hs & Hk2).
  - apply Forall_lookup. intros i nb Hnb. apply (I4 i); [lia|done].
  - apply NoDup_alt. intros i1 i2 r. rewrite !list_lookup_fmap.
    destruct (path' !! i1) as [nb1|] eqn:E1; [|done].
    destruct (path' !! i2) as [nb2|] eqn:E2; [|done].
    cbn. intros [= H1] [= H2].
    apply (I5 i1 i2 nb1 nb2); [right; lia|right; lia|done|done|congruence].
  - rewrite Hs. exists h2. split; [done|]. by eapply kept_trans.
Qed.

(** Whenever [delete] returns, it has written above the marks only. *)
Lemma irt_delete_kept irt v0 cache e d d' (h h' : heap) :
  vmark <= v0 ->
  (forall s, h_vars h !! v0 = Some s -> amark <= s_arr s) ->
  irt_delete irt (SVar v0) cache e d h = Some (d', h') ->
  kept h h'.
Proof.
  intros HV HA Hdel.
  destruct (descend (dimensions irt) 1 None (SVar v0) e [] h)
    as [[path|]|] eqn:Hd.
  - destruct (irt_delete_found irt v0 cache e d path h HV HA Hd)
      as (h'' & Hdel' & Hk).
    rewrite Hdel' in Hdel. by injection Hdel as _ <-.
  - unfold irt_delete, bind, lift, ret in Hdel. rewrite Hd in Hdel.
    injection Hdel as _ <-. apply kept_refl.
  - unfold irt_delete, bind, lift in Hdel. by rewrite Hd in Hdel.
Qed.

Lemma delete_all_kept irt v0 cache es d d' (h h' : heap) :
  vmark <= v0 ->
  (exists s, h_vars h !! v0 = Some s /\ amark <= s_arr s) ->
  delete_all irt (SVar v0) cache es d h = Some (d', h') ->
  kept h h'.
Proof.
  intros HV. revert d h. induction es as [|e es IH]; intros d h (s & Hs & HA).
  - cbn. intros [= _ <-]. apply kept_refl.
  - cbn [delete_all]. unfold bind at 1.
    destruct (irt_delete irt (SVar v0) cache e d h) as [[d1 h1]|] eqn:Hdel;
      [|done].
    intros Hrest.
    assert (Hk : kept h h1).
    { eapply irt_delete_kept; [exact HV| |exact Hdel].
      intros s1 Hs1. pose proof (eq_trans (eq_sym Hs1) Hs) as [= ->]. done. }
    eapply kept_trans; [exact Hk|]. eapply IH; [|exact Hrest].
    destruct Hk as (_ & _ & _ & Hsl).
    destruct (Hsl v0 s Hs) as (s' & Hs' & Harr).
    exists s'. split; [done|]. by rewrite Harr.
Qed.

End Bounds.

Lemma mono_readable D fuel lst d : mono (readable D fuel lst d).
Proof.
  revert lst d. induction fuel as [|fuel IH]; intros lst d;
    rewrite readable_unfold;
    (apply mono_bindR; [apply mono_elems|]); intros es;
    (apply mono_bindR; [|intros; apply mono_retR]);
    apply mono_collect; intros n;
    (destruct (isLastDimension D d); [apply mono_retR|]).
  - apply mono_panicR.
  - apply mono_bindR; [apply IH | intros; apply mono_retR].
Qed.

Lemma readable_elems D fuel l l' d (h : heap) :
  elems l h = elems l' h ->
  readable D fuel l d h = readable D fuel l' d h.
Proof.
  intros He. rewrite !readable_unfold. unfold bindR at 1 3. by rewrite He.
Qed.

(** A call of [Delete] with one entry on a readable tree returns. *)
Lemma Delete_one_returns irt e (h : heap) :
  dimensions irt <> 0 ->
  is_Some (readable_tree irt h) ->
  is_Some (Delete irt [e] h).
Proof.
  intros HD [b Hr]. unfold readable_tree in Hr.
  assert (exists es, elems (top irt) h = Some es) as [es Hes].
  { rewrite readable_unfold in Hr. unfold bindR at 1 in Hr.
    destruct (elems (top irt) h); [by eexists | done]. }
  pose proof (elems_length _ _ _ Hes) as Hlen.
  rewrite Delete_unfold, (Delete_prologue_spec _ _ _ HD Hes).
  set (t := Slice _ _ _). set (h1 := Heap _ _ _).
  set (tp := SVar (length (h_vars h))).
  assert (Hext : extends h h1).
  { repeat split; simpl; try done; by apply prefix_app_r. }
  assert (Hvar : h_vars h1 !! length (h_vars h) = Some t).
  { cbn. by rewrite lookup_app_r, Nat.sub_diag. }
  assert (Hr1 : readable (dimensions irt) (dimensions irt) t 1 h1 = Some b).
  { rewrite (readable_elems _ _ t (top irt)).
    - by apply (mono_readable _ _ _ _ _ _ _ Hext).
    - rewrite (mono_elems _ _ _ _ Hext Hes).
      apply (elems_of_fresh_copy (Heap (h_nodes h) (h_arrays h) _)), Hlen. }
  assert (exists d h2, irt_delete irt tp (replicate (dimensions irt) []) e 0 h1
                       = Some (d, h2)
                       /\ is_Some (h_vars h2 !! length (h_vars h)))
    as (d & h2 & Hdel & [t' Ht']).
  { destruct (dimensions irt) as [|k] eqn:ED; [done|].
    destruct (descend_total (S k) k 1 None tp t e [] h1) as [[path|] Hd];
      [lia|done|by eexists| |].
    - destruct (irt_delete_found 0 0 irt (length (h_vars h))
                  (replicate (S k) []) e 0 path h1)
        as (h2 & Hdel & (_ & _ & _ & Hsl)); [lia|intros; lia|by rewrite ED|].
      destruct (Hsl _ _ Hvar) as (s' & Hs' & _).
      exists (wrap64 (0 + 1)), h2. split; [done|by eexists].
    - exists 0%Z, h1. split; [|by eexists].
      unfold irt_delete, bind, lift. by rewrite ED, Hd. }
  cbn [delete_all]. unfold bind at 1. rewrite Hdel. unfold ret.
  unfold tp. cbn [load]. rewrite Ht'. by eexists.
Qed.

Lemma clone_shape l s (h h' : heap) :
  clone l h = Some (s, h') ->
  s_arr s = length (h_arrays h)
  /\ exists cells, h' = Heap (h_nodes h) (h_arrays h ++ [cells]) (h_vars h).
Proof.
  unfold clone, make, copy, bind, ret, new_array, lift, store_array.
  cbn [s_len h_arrays h_nodes h_vars].
  destruct (Nat.min (s_len l) (s_len l) =? 0).
  - intros [= <- <-]. split; [done|]. by eexists.
  - destruct (elems l _) as [es|]; [|done].
    unfold load_array. cbn [h_arrays s_arr].
    rewrite lookup_app_r, Nat.sub_diag by done. cbn [lookup list_lookup].
    destruct (_ <=? _); [|done].
    cbn [h_arrays h_nodes h_vars]. rewrite length_app. cbn [length].
    replace (length (h_arrays h) <? length (h_arrays h) + 1) with true
      by (symmetry; apply Nat.ltb_lt; lia).
    intros [= <- <-]. split; [done|]. eexists.
    by rewrite insert_app_r_alt, Nat.sub_diag.
Qed.

Lemma prefix_agree {X} (l0 l1 l2 : list X) :
  l0 `prefix_of` l1 ->
  (forall a, a < length l0 -> l2 !! a = l1 !! a) ->
  l0 `prefix_of` l2.
Proof.
  intros Hp Hag. exists (drop (length l0) l2).
  rewrite <- (take_drop (length l0) l2) at 1. f_equal.
  apply list_eq. intros i. destruct (decide (i < length l0)) as [Hlt|Hge].
  - rewrite lookup_take_lt by done. rewrite Hag by done.
    destruct (lookup_lt_is_Some_2 l0 i Hlt) as [x Hx]. rewrite Hx.
    by eapply prefix_lookup_Some.
  - rewrite lookup_take_ge by lia. symmetry. apply lookup_ge_None. lia.
Qed.

(** [Delete] writes to nothing that existed before the call: the store
    it leaves extends the store it found. *)
Lemma Delete_extends irt es t' (h h' : heap) :
  Delete irt es h = Some (t', h') -> extends h h'.
Proof.
  rewrite Delete_unfold. unfold Delete_prologue.
  destruct (newCache (dimensions irt)) as [cache|]; [|done].
  unfold bind at 1.
  destruct (clone (top irt) h) as [[t h1]|] eqn:Hc; [|done].
  destruct (clone_shape _ _ _ _ Hc) as (Harr & cells & ->).
  unfold bind, new_var, ret. cbn [h_vars h_nodes h_arrays].
  set (h2 := Heap _ _ _).
  destruct (delete_all irt (SVar (length (h_vars h))) cache es 0 h2)
    as [[d h3]|] eqn:Hd; [|done].
  destruct (load _ h3) as [t3|]; [|done]. intros [= _ <-].
  destruct (delete_all_kept (length (h_vars h)) (length (h_arrays h)) irt
              (length (h_vars h)) cache es 0 d h2 h3)
    as (Hn & Hv & Ha & _); [done| |done|].
  { exists t. split; [|lia]. cbn. by rewrite lookup_app_r, Nat.sub_diag. }
  repeat split.
  - exact Hn.
  - apply (prefix_agree _ (h_arrays h2)); [by apply prefix_app_r | exact Ha].
  - apply (prefix_agree _ (h_vars h2)); [by apply prefix_app_r | exact Hv].
Qed.

(** X1.  The [Delete] half of immutability: whatever a tree answered
    before a call of [Delete] that returns, on any tree, it answers
    after it; [Delete] writes only to the lists and nodes it creates. *)
Lemma Delete_keeps_older_trees irt es t' (h h' : heap) older I r :
  Delete irt es h = Some (t', h') ->
  Query older I h = Some r ->
  Query older I h' = Some r.
Proof.
  intros Hd Hq. eapply mono_Query; [|exact Hq]. by eapply Delete_extends.
Qed.

(** *** [Query] answers on a readable tree *)

Lemma deref_Some c (h : heap) nd :
  deref c h = Some nd -> exists a, c = Some a /\ load_node a h = Some nd.
Proof. destruct c as [a|]; [by exists a | done]. Qed.

Lemma visit_total {A} (fn : addr -> A -> R (bool * A)) high cells acc (h : heap) :
  Forall (fun c => exists a, c = Some a /\ is_Some (load_node a h)
                             /\ forall x, is_Some (fn a x h)) cells ->
  is_Some (visit fn high cells acc h).
Proof.
  intros Hall. revert acc. induction Hall as [|c rest Hc _ IH]; intros acc.
  - by eexists.
  - destruct Hc as (a & -> & [nd Hnd] & Hfn). cbn [visit deref].
    unfold bindR at 1. rewrite Hnd.
    destruct (high <? value nd)%Z; [by eexists|].
    unfold bindR. destruct (Hfn acc) as [[go acc'] ->].
    destruct go; [apply IH | by eexists].
Qed.

Lemma list_apply_total {A} (fn : addr -> A -> R (bool * A)) s low high acc
    (h : heap) es :
  elems s h = Some es ->
  Forall (fun c => exists a, c = Some a /\ is_Some (load_node a h)
                             /\ forall x, is_Some (fn a x h)) es ->
  is_Some (list_apply fn s low high acc h).
Proof.
  intros Hes Hall. unfold list_apply, bindR, list_search, bindR. rewrite Hes.
  destruct (bisect_total (length es) es low 0 (length es) h) as (i & -> & _).
  - eapply Forall_impl; [|exact Hall]. intros c (a & -> & Hn & _). exact Hn.
  - lia.
  - apply visit_total. by apply Forall_drop.
Qed.

Lemma irt_apply_total {A} irt fuel lst I d (fn : addr -> A -> R (bool * A)) acc
    (h : heap) :
  dimensions irt < d + fuel ->
  is_Some (readable (dimensions irt) fuel lst d h) ->
  (forall a x, is_Some (load_node a h) -> is_Some (fn a x h)) ->
  is_Some (irt_apply irt fuel lst I d fn acc h).
Proof.
  intros HD Hr Hfn. revert lst d acc HD Hr.
  induction fuel as [|fuel IH]; intros lst d acc HD [b Hr];
    rewrite readable_unfold in Hr; unfold bindR at 1 in Hr;
    (destruct (elems lst h) as [es|] eqn:Hes; [|done]);
    unfold bindR at 1 in Hr;
    (destruct (collect _ es h) as [bs|] eqn:Hbs; [|done]);
    cbn [irt_apply].
  - replace (isLastDimension (dimensions irt) d) with true
      by (symmetry; apply Nat.leb_le; lia).
    eapply list_apply_total; [done|].
    eapply Forall_impl; [|exact (collect_Forall _ _ _ _ Hbs)].
    intros c [nd Hnd]. destruct (deref_Some _ _ _ Hnd) as (a & -> & Ha).
    exists a. split; [done|]. split; [by eexists|]. intros x. apply Hfn. by eexists.
  - destruct (isLastDimension (dimensions irt) d) eqn:El.
    + eapply list_apply_total; [done|].
      eapply Forall_impl; [|exact (collect_Forall _ _ _ _ Hbs)].
      intros c [nd Hnd]. destruct (deref_Some _ _ _ Hnd) as (a & -> & Ha).
      exists a. split; [done|]. split; [by eexists|]. intros x. apply Hfn.
      by eexists.
    + eapply list_apply_total; [done|].
      apply Forall_lookup. intros j c Hj.
      destruct (Forall_lookup_1 _ _ _ _ (collect_Forall _ _ _ _ Hbs) Hj)
        as [nd Hnd].
      destruct (deref_Some _ _ _ Hnd) as (a & -> & Ha).
      exists a. split; [done|]. split; [by eexists|]. intros x.
      unfold bindR at 1. rewrite Ha.
      destruct (collect_lookup _ _ _ _ _ _ nd Hbs Hj Hnd) as (xs & Hxs & _).
      unfold bindR at 1 in Hxs.
      destruct (readable (dimensions irt) fuel (orderedNodes nd) (S d) h)
        as [b'|] eqn:Hb; [|done].
      apply IH; [lia | by eexists].
Qed.

Lemma Query_total irt I (h : heap) :
  is_Some (readable_tree irt h) -> is_Some (Query irt I h).
Proof.
  intros Hr. unfold Query. unfold bindR at 1.
  destruct (irt_apply_total irt (dimensions irt) (top irt) I 1
              (fun n entries =>
                 let? nd := load_node n in retR (true, entries ++ [entry nd]))
              [] h) as [[go es] Heq]; [lia|done| |].
  - intros a x [nd Hnd]. unfold bindR. rewrite Hnd. by eexists.
  - rewrite Heq. by eexists.
Qed.

Lemma Delete_nil (irt : ImmutableRangeTree) (h : heap) es :
  dimensions irt <> 0 ->
  elems (top irt) h = Some es ->
  let t := Slice (length (h_arrays h)) (s_len (top irt)) (s_len (top irt)) in
  Delete irt [] h
  = Some (Tree (wrap64 (number irt - 0)) t (dimensions irt),
          Heap (h_nodes h) (h_arrays h ++ [es]) (h_vars h ++ [t])).
Proof.
  intros HD Hes t. unfold Delete.
  destruct (dimensions irt) as [|D] eqn:ED; [done|]. cbn [newCache].
  unfold bind at 1. rewrite (clone_spec _ _ _ Hes).
  unfold bind, new_var, lift, load. cbn [delete_all]. unfold ret.
  cbn [h_vars]. rewrite lookup_app_r, Nat.sub_diag by done. done.
Qed.

(** C10.  [Delete] with no entries: for every readable tree with at
    least one dimension and a counter in the [uint64] range, the call
    returns a tree of the same length, and for every interval the query
    on the old tree answers and the query on the new tree gives the same
    answer.  [Add] with no entries returns the tree itself and leaves the
    store as it is. *)
Theorem Delete_of_no_entries (irt : ImmutableRangeTree) (h : heap) :
  dimensions irt <> 0 ->
  (0 <= number irt < 2 ^ 64)%Z ->
  is_Some (readable_tree irt h) ->
  Add irt [] h = Some (irt, h)
  /\ exists t' h',
       Delete irt [] h = Some (t', h')
       /\ Len t' = Len irt
       /\ forall I,
            is_Some (Query irt I h) /\ Query t' I h' = Query irt I h.
Proof.
  intros HD Hn Hr. split; [done|].
  assert (exists es, elems (top irt) h = Some es) as [es Hes].
  { destruct Hr as [b Hr]. unfold readable_tree in Hr.
    rewrite readable_unfold in Hr. unfold bindR at 1 in Hr.
    destruct (elems (top irt) h); [by eexists | done]. }
  pose proof (elems_length _ _ _ Hes) as Hlen.
  eexists _, _. split; [by apply Delete_nil|]. split.
  - unfold Len, wrap64. cbn [number]. rewrite Z.sub_0_r. apply Z.mod_small. lia.
  - intros I. destruct (Query_total irt I h Hr) as [r Hq].
    split; [by eexists|]. rewrite Hq.
    set (t := Slice _ _ _). set (h1 := Heap _ _ _).
    assert (Hext : extends h h1).
    { repeat split; simpl; try done; by apply prefix_app_r. }
    apply (mono_Query _ _ _ _ _ Hext) in Hq.
    rewrite <- Hq. unfold Query, bindR. cbn [top dimensions].
    rewrite (irt_apply_dimensions _ irt) by done.
    erewrite irt_apply_elems; [reflexivity|].
    rewrite (mono_elems _ _ _ _ Hext Hes).
    apply (elems_of_fresh_copy (Heap (h_nodes h) (h_arrays h) _)), Hlen.
Qed.

End DeleteTheory.

(** ** [Query] on a sorted tree

    On a tree whose lists increase strictly, [Query] returns the entries
    of the leaves whose path lies inside the interval, in the order of
    the exhaustive traversal, and that order is the lexicographic order
    of the paths. *)

(** What [collect] computes, in terms of the nodes behind the cells. *)
Lemma collect_elim {X} (f : node -> R (list X)) cells (h : heap) xs :
  collect f cells h = Some xs ->
  exists nds ys,
    Forall2 (fun c nd => deref c h = Some nd) cells nds
    /\ Forall2 (fun nd y => f nd h = Some y) nds ys
    /\ xs = concat ys.
Proof.
  revert xs. induction cells as [|c rest IH]; intros xs; cbn [collect].
  - intros [= <-]. exists [], []. by repeat split.
  - unfold bindR, retR. destruct (deref c h) as [nd|] eqn:Ed; [|done].
    destruct (f nd h) as [y|] eqn:Ef; [|done].
    destruct (collect f rest h) as [zs|] eqn:Ec; [|done].
    intros [= <-]. destruct (IH zs eq_refl) as (nds & ys & H1 & H2 & ->).
    exists (nd :: nds), (y :: ys). repeat split; by constructor.
Qed.

Lemma collect_intro {X} (f : node -> R (list X)) cells (h : heap) nds ys :
  Forall2 (fun c nd => deref c h = Some nd) cells nds ->
  Forall2 (fun nd y => f nd h = Some y) nds ys ->
  collect f cells h = Some (concat ys).
Proof.
  intros H1. revert ys. induction H1 as [|c nd cells nds Hd _ IH]; intros ys H2.
  - by inversion H2.
  - inversion H2 as [|? y ? ys' Hf Hrest]; subst. cbn [collect].
    unfold bindR, retR. by rewrite Hd, Hf, (IH _ Hrest).
Qed.

Lemma Forall2_deref_unique cells (h : heap) nds nds' :
  Forall2 (fun c nd => deref c h = Some nd) cells nds ->
  Forall2 (fun c nd => deref c h = Some nd) cells nds' ->
  nds = nds'.
Proof.
  intros H1. revert nds'. induction H1 as [|c nd cells nds Hd _ IH]; intros nds' H2.
  - by inversion H2.
  - inversion H2 as [|? nd' ? nds'' Hd' Hrest]; subst.
    f_equal; [congruence | by apply IH].
Qed.

(** Strictly increasing values, by positions. *)
Definition increasing (vs : list Z) : Prop :=
  forall i j x y, i < j -> vs !! i = Some x -> vs !! j = Some y -> (x < y)%Z.

Lemma ascending_increasing vs : ascending vs = true -> increasing vs.
Proof.
  induction vs as [|x vs IH]; [by intros _ i j ? ? _ ?|].
  intros Ha. assert (Hrest : increasing vs).
  { apply IH. destruct vs as [|y vs]; [done|].
    cbn in Ha. by apply andb_true_iff in Ha as [_ ?]. }
  assert (Hhead : forall j y, vs !! j = Some y -> (x < y)%Z).
  { intros j. induction j as [|j IHj]; intros y Hy.
    - destruct vs as [|y' vs]; [done|]. cbn in Hy. injection Hy as ->.
      cbn in Ha. apply andb_true_iff in Ha as [Hlt _]. by apply Z.ltb_lt.
    - destruct (lookup_lt_is_Some_2 vs j) as [z Hz].
      { apply lookup_lt_Some in Hy. lia. }
      pose proof (IHj z Hz).
      pose proof (Hrest j (S j) z y (Nat.lt_succ_diag_r j) Hz Hy). lia. }
  intros [|i] [|j] a b Hij Hi Hj; cbn in *; try lia.
  - injection Hi as <-. by eapply Hhead.
  - apply (Hrest i j); [lia|done|done].
Qed.

Lemma increasing_tail x vs : increasing (x :: vs) -> increasing vs.
Proof. intros H i j a b Hij Hi Hj. apply (H (S i) (S j)); [lia|done|done]. Qed.

Lemma increasing_drop n vs : increasing vs -> increasing (drop n vs).
Proof.
  intros H i j a b Hij Hi Hj. rewrite lookup_drop in Hi, Hj.
  apply (H (n + i) (n + j)); [lia|done|done].
Qed.

(** On an increasing list the search returns the split point: the nodes
    before it are below [v], the nodes from it on are not. *)
Lemma bisect_split fuel es nds v lo hi (h : heap) :
  Forall2 (fun c nd => deref c h = Some nd) es nds ->
  increasing (value <$> nds) ->
  lo <= hi <= length es ->
  hi - lo <= fuel ->
  (forall j nd, j < lo -> nds !! j = Some nd -> (value nd < v)%Z) ->
  (forall j nd, hi <= j -> nds !! j = Some nd -> (v <= value nd)%Z) ->
  exists i,
    bisect fuel es v lo hi h = Some i /\ i <= length es
    /\ (forall j nd, j < i -> nds !! j = Some nd -> (value nd < v)%Z)
    /\ (forall j nd, i <= j -> nds !! j = Some nd -> (v <= value nd)%Z).
Proof.
  intros Hd Hinc. revert lo hi.
  induction fuel as [|fuel IH]; intros lo hi Hb Hf Hlo Hhi; cbn [bisect].
  - exists lo. split; [done|]. split; [lia|]. split; [done|].
    intros j nd Hj. apply Hhi. lia.
  - destruct (lo <? hi) eqn:El.
    2: { apply Nat.ltb_ge in El. exists lo. split; [done|]. split; [lia|].
         split; [done|]. intros j nd Hj. apply Hhi. lia. }
    apply Nat.ltb_lt in El.
    set (mid := (lo + hi) `div` 2).
    assert (Hmid : lo <= mid < hi).
    { unfold mid. split; [apply Nat.div_le_lower_bound; lia
                         | apply Nat.Div0.div_lt_upper_bound; lia]. }
    destruct (lookup_lt_is_Some_2 es mid) as [c Hc]; [lia|].
    rewrite Hc.
    destruct (Forall2_lookup_l _ _ _ _ _ Hd Hc) as (nd & Hnd & Hdn).
    unfold bindR at 1. rewrite Hdn.
    assert (Hval : forall j x, nds !! j = Some x ->
              (j < mid -> (value x < value nd)%Z)
              /\ (mid < j -> (value nd < value x)%Z)).
    { intros j x Hx. split; intros Hlt.
      - apply (Hinc j mid); [done| |]; rewrite list_lookup_fmap;
          [by rewrite Hx | by rewrite Hnd].
      - apply (Hinc mid j); [done| |]; rewrite list_lookup_fmap;
          [by rewrite Hnd | by rewrite Hx]. }
    destruct (v <=? value nd)%Z eqn:Ev.
    + apply Z.leb_le in Ev. apply IH; [lia|lia|done|].
      intros j x Hj Hx. destruct (decide (j = mid)) as [->|Hne].
      * rewrite Hnd in Hx. by injection Hx as <-.
      * destruct (Hval j x Hx) as [_ Hgt]. specialize (Hgt ltac:(lia)). lia.
    + apply Z.leb_gt in Ev. apply IH; [lia|lia| |done].
      intros j x Hj Hx. destruct (decide (j = mid)) as [->|Hne].
      * rewrite Hnd in Hx. by injection Hx as <-.
      * destruct (Hval j x Hx) as [Hlt _]. specialize (Hlt ltac:(lia)). lia.
Qed.

(** A visitor that appends [G nd] for the node [nd] and never cancels. *)
Definition appends {X} (h : heap) (fn : addr -> list X -> R (bool * list X))
    (G : node -> list X) (c : option addr) (nd : node) : Prop :=
  exists a, c = Some a /\ load_node a h = Some nd
            /\ forall acc, fn a acc h = Some (true, acc ++ G nd).

Lemma concat_all_nil {X Y} (f : Y -> list X) (l : list Y) :
  (forall y, y ∈ l -> f y = []) -> concat (map f l) = [].
Proof.
  induction l as [|y l IH]; intros H; [done|]. cbn.
  rewrite (H y) by left. apply IH. intros z Hz. apply H. by right.
Qed.

Lemma visit_spec {X} (fn : addr -> list X -> R (bool * list X)) G high cells nds
    acc (h : heap) :
  Forall2 (appends h fn G) cells nds ->
  increasing (value <$> nds) ->
  visit fn high cells acc h
  = Some (true,
          acc ++ concat (map (fun nd => if (value nd <=? high)%Z then G nd else [])
                           nds)).
Proof.
  intros Hall. revert acc.
  induction Hall as [|c nd cells nds (a & -> & Hnd & Hfn) _ IH]; intros acc Hinc.
  - cbn. by rewrite app_nil_r.
  - cbn [visit deref map concat]. unfold bindR at 1. rewrite Hnd.
    destruct (high <? value nd)%Z eqn:Eh.
    + apply Z.ltb_lt in Eh.
      replace (value nd <=? high)%Z with false by (symmetry; apply Z.leb_gt; lia).
      rewrite concat_all_nil; [by rewrite app_nil_r|].
      intros nd' Hin. apply list_elem_of_lookup in Hin as [j Hj].
      assert (value nd < value nd')%Z.
      { apply (Hinc 0 (S j)); [lia|done|].
        change ((value <$> nds) !! j = Some (value nd')).
        by rewrite list_lookup_fmap, Hj. }
      replace (value nd' <=? high)%Z with false
        by (symmetry; apply Z.leb_gt; lia).
      done.
    + apply Z.ltb_ge in Eh.
      replace (value nd <=? high)%Z with true by (symmetry; apply Z.leb_le; lia).
      unfold bindR. rewrite Hfn, IH by (by eapply increasing_tail).
      by rewrite <- app_assoc.
Qed.

Definition within (low high v : Z) : bool := (low <=? v)%Z && (v <=? high)%Z.

Lemma appends_deref {X} (h : heap) (fn : addr -> list X -> R (bool * list X)) G
    es nds :
  Forall2 (appends h fn G) es nds ->
  Forall2 (fun c nd => deref c h = Some nd) es nds.
Proof.
  intros H. induction H as [|c nd es nds (a & -> & Hn & _) _ IH];
    by constructor.
Qed.

(** The bounded traversal of an increasing list visits exactly the nodes
    whose value lies between the bounds, in order. *)
Lemma list_apply_spec {X} (fn : addr -> list X -> R (bool * list X)) G s
    low high acc (h : heap) es nds :
  elems s h = Some es ->
  Forall2 (appends h fn G) es nds ->
  increasing (value <$> nds) ->
  list_apply fn s low high acc h
  = Some (true,
          acc ++ concat (map (fun nd => if within low high (value nd)
                                        then G nd else []) nds)).
Proof.
  intros Hes Hall Hinc.
  pose proof (appends_deref _ _ _ _ _ Hall) as Hd.
  assert (Hlen : length es = length nds) by (by eapply Forall2_length).
  destruct (bisect_split (length es) es nds low 0 (length es) h Hd Hinc)
    as (i & Hi & Hle & Hbelow & Habove); [lia|lia|intros; lia| |].
  { intros j nd Hj Hnd. apply lookup_lt_Some in Hnd. lia. }
  unfold list_apply, bindR, list_search, bindR. rewrite Hes, Hi.
  rewrite (visit_spec fn G high (drop i es) (drop i nds));
    [|by apply Forall2_drop | rewrite fmap_drop; by apply increasing_drop].
  assert (Heq :
    concat (map (fun nd => if within low high (value nd) then G nd else []) nds)
    = concat (map (fun nd => if (value nd <=? high)%Z then G nd else [])
                (drop i nds))).
  { rewrite <- (take_drop i nds) at 1. rewrite map_app, concat_app.
    rewrite concat_all_nil.
    - cbn [app]. f_equal. apply map_ext_in. intros nd Hin.
      apply list_elem_of_In, list_elem_of_lookup in Hin as [j Hj].
      rewrite lookup_drop in Hj. unfold within.
      replace (low <=? value nd)%Z with true; [done|].
      symmetry. apply Z.leb_le. apply (Habove (i + j)); [lia|done].
    - intros nd Hin. apply list_elem_of_lookup in Hin as [j Hj].
      pose proof (lookup_lt_Some _ _ _ Hj) as Hlt. rewrite length_take in Hlt.
      rewrite lookup_take_lt in Hj by lia. unfold within.
      replace (low <=? value nd)%Z with false; [done|].
      symmetry. apply Z.leb_gt. apply (Hbelow j); [lia|done]. }
  by rewrite Heq.
Qed.

(** The entries of the leaves whose path lies inside the interval. *)
Definition selected (I : Interval) (d : nat) (ls : list (list Z * option Entry))
  : list (option Entry) :=
  map snd (List.filter (fun x => in_range I d (fst x)) ls).

Lemma selected_app I d ls ls' :
  selected I d (ls ++ ls') = selected I d ls ++ selected I d ls'.
Proof. unfold selected. by rewrite List.filter_app, map_app. Qed.

Lemma selected_last I d (nds : list node) :
  selected I d (concat (map (fun nd => [([value nd], entry nd)]) nds))
  = concat (map (fun nd =>
                   if within (LowAtDimension I d) (HighAtDimension I d) (value nd)
                   then [entry nd] else []) nds).
Proof.
  induction nds as [|nd nds IH]; [done|].
  cbn [map concat]. rewrite selected_app, IH. f_equal.
  unfold selected, within. cbn. rewrite andb_true_r.
  by destruct (_ && _).
Qed.

Lemma selected_under I d v ls :
  selected I d (map (fun x => (v :: fst x, snd x)) ls)
  = if within (LowAtDimension I d) (HighAtDimension I d) v
    then selected I (S d) ls else [].
Proof.
  unfold selected, within. induction ls as [|[p e] ls IH]; cbn.
  - by destruct (_ && _).
  - destruct ((LowAtDimension I d <=? v)%Z && (v <=? HighAtDimension I d)%Z)
      eqn:Ew; cbn in *.
    + destruct (in_range I (S d) p); cbn; by rewrite IH.
    + exact IH.
Qed.

Lemma selected_inner I d (Lv : node -> list (list Z * option Entry)) nds :
  selected I d
    (concat (map (fun nd => map (fun x => (value nd :: fst x, snd x)) (Lv nd))
               nds))
  = concat (map (fun nd =>
                   if within (LowAtDimension I d) (HighAtDimension I d) (value nd)
                   then selected I (S d) (Lv nd) else []) nds).
Proof.
  induction nds as [|nd nds IH]; [done|].
  cbn [map concat]. by rewrite selected_app, IH, selected_under.
Qed.

Lemma Forall2_map_r {X Y} (P : X -> Y -> Prop) (F : X -> Y) (l : list X) :
  (forall x, x ∈ l -> P x (F x)) -> Forall2 P l (map F l).
Proof.
  induction l as [|x l IH]; intros H; cbn; constructor.
  - apply H. left.
  - apply IH. intros y Hy. apply H. by right.
Qed.

Lemma Forall2_strengthen {X Y} (P Q : X -> Y -> Prop) l k :
  Forall2 P l k ->
  (forall x y, y ∈ k -> P x y -> Q x y) ->
  Forall2 Q l k.
Proof.
  intros H. induction H as [|x y l k Hxy _ IH]; intros HQ; constructor.
  - apply HQ; [left|done].
  - apply IH. intros x' y' Hy'. apply HQ. by right.
Qed.

Lemma sorted_unfold D fuel lst d :
  sorted D fuel lst d
  = (let? es := elems lst in
     let? vs := collect (fun n : node => retR [value n]) es in
     let? bs :=
       collect
         (fun n : node =>
            if isLastDimension D d then retR [true]
            else
              match fuel with
              | O => panicR
              | S fuel' =>
                  let? b := sorted D fuel' (orderedNodes n) (S d) in
                  retR [b]
              end)
         es in
     retR (ascending vs && forallb id bs)).
Proof. by destruct fuel. Qed.

Lemma leaves_unfold D fuel lst d :
  leaves D fuel lst d
  = (let? es := elems lst in
     collect
       (fun n : node =>
          if isLastDimension D d then retR [([value n], entry n)]
          else
            match fuel with
            | O => panicR
            | S fuel' =>
                let? ls := leaves D fuel' (orderedNodes n) (S d) in
                retR (map (fun x => (value n :: fst x, snd x)) ls)
            end)
       es).
Proof. by destruct fuel. Qed.

(** What [sorted] says about one list. *)
Lemma sorted_elim D fuel lst d (h : heap) :
  sorted D fuel lst d h = Some true ->
  exists es nds,
    elems lst h = Some es
    /\ Forall2 (fun c nd => deref c h = Some nd) es nds
    /\ increasing (value <$> nds)
    /\ (isLastDimension D d = false ->
        forall nd, nd ∈ nds ->
          exists fuel', fuel = S fuel'
            /\ sorted D fuel' (orderedNodes nd) (S d) h = Some true).
Proof.
  rewrite sorted_unfold. unfold bindR.
  destruct (elems lst h) as [es|]; [|done].
  destruct (collect _ es h) as [vs|] eqn:Hvs; [|done].
  match goal with
  | |- context [collect ?f es h] =>
      destruct (collect f es h) as [bs|] eqn:Hbs; [|done]
  end.
  intros [= Hand]. apply andb_true_iff in Hand as [Hasc Hall].
  destruct (collect_elim _ _ _ _ Hvs) as (nds & ys & Hd & Hys & ->).
  destruct (collect_elim _ _ _ _ Hbs) as (nds' & zs & Hd' & Hzs & ->).
  pose proof (Forall2_deref_unique _ _ _ _ Hd Hd') as <-.
  exists es, nds. split; [done|]. split; [done|]. split.
  - apply ascending_increasing.
    replace (value <$> nds) with (concat ys); [done|].
    clear -Hys. induction Hys as [|nd y nds ys Hy _ IH]; [done|].
    cbn in Hy. injection Hy as <-. cbn. by rewrite IH.
  - intros Hlast nd Hin. rewrite Hlast in Hzs.
    apply list_elem_of_lookup in Hin as [j Hj].
    destruct (Forall2_lookup_l _ _ _ _ _ Hzs Hj) as (z & Hz & Hf).
    destruct fuel as [|fuel']; [done|]. exists fuel'. split; [done|].
    destruct (sorted D fuel' (orderedNodes nd) (S d) h) as [b|]; [|done].
    injection Hf as <-. f_equal.
    rewrite forallb_forall in Hall. apply (Hall b).
    apply in_concat. exists [b]. split; [|by left].
    apply list_elem_of_In. by eapply list_elem_of_lookup_2.
Qed.

(** The recursive traversal of a sorted list appends the selected
    entries of its leaves. *)
Lemma irt_apply_spec irt I fuel lst d (h : heap) :
  dimensions irt < d + fuel ->
  sorted (dimensions irt) fuel lst d h = Some true ->
  exists ls,
    leaves (dimensions irt) fuel lst d h = Some ls
    /\ forall acc,
         irt_apply irt fuel lst I d
           (fun n entries =>
              let? nd := load_node n in retR (true, entries ++ [entry nd]))
           acc h
         = Some (true, acc ++ selected I d ls).
Proof.
  revert lst d. induction fuel as [|fuel IH]; intros lst d HD Hs;
    destruct (sorted_elim _ _ _ _ _ Hs) as (es & nds & Hes & Hd & Hinc & Hsub);
    rewrite leaves_unfold; unfold bindR at 1; rewrite Hes; cbn [irt_apply].
  - replace (isLastDimension (dimensions irt) d) with true
      by (symmetry; apply Nat.leb_le; lia).
    eexists. split.
    + eapply collect_intro; [exact Hd|].
      apply (Forall2_map_r _ (fun nd => [([value nd], entry nd)])). done.
    + intros acc. erewrite list_apply_spec; [|done| |done].
      * by rewrite selected_last.
      * eapply Forall2_strengthen; [exact Hd|]. intros c nd _ Hc.
        destruct (deref_Some _ _ _ Hc) as (a & -> & Ha).
        exists a. split; [done|]. split; [done|]. intros acc'.
        unfold bindR, retR. by rewrite Ha.
  - destruct (isLastDimension (dimensions irt) d) eqn:El.
    + eexists. split.
      * eapply collect_intro; [exact Hd|].
        apply (Forall2_map_r _ (fun nd => [([value nd], entry nd)])). done.
      * intros acc. erewrite list_apply_spec; [|done| |done].
        -- by rewrite selected_last.
        -- eapply Forall2_strengthen; [exact Hd|]. intros c nd _ Hc.
           destruct (deref_Some _ _ _ Hc) as (a & -> & Ha).
           exists a. split; [done|]. split; [done|]. intros acc'.
           unfold bindR, retR. by rewrite Ha.
    + apply Nat.leb_gt in El.
      set (Lv := fun nd : node =>
             match leaves (dimensions irt) fuel (orderedNodes nd) (S d) h with
             | Some ls => ls
             | None => []
             end).
      assert (Hchild : forall nd, nd ∈ nds ->
                leaves (dimensions irt) fuel (orderedNodes nd) (S d) h
                = Some (Lv nd)
                /\ forall acc,
                     irt_apply irt fuel (orderedNodes nd) I (S d)
                       (fun n entries =>
                          let? nd := load_node n in
                          retR (true, entries ++ [entry nd]))
                       acc h
                     = Some (true, acc ++ selected I (S d) (Lv nd))).
      { intros nd Hin.
        destruct (Hsub eq_refl nd Hin) as (f' & [= <-] & Hs').
        destruct (IH (orderedNodes nd) (S d)) as (ls & Hls & Happ); [lia|done|].
        unfold Lv. rewrite Hls. by split. }
      eexists. split.
      * eapply collect_intro; [exact Hd|].
        apply (Forall2_map_r _
                 (fun nd => map (fun x => (value nd :: fst x, snd x)) (Lv nd))).
        intros nd Hin. unfold bindR, retR.
        destruct (Hchild nd Hin) as [-> _]. done.
      * intros acc.
        erewrite (list_apply_spec _ (fun nd => selected I (S d) (Lv nd)));
          [|done| |done].
        -- by rewrite selected_inner.
        -- eapply Forall2_strengthen; [exact Hd|]. intros c nd Hin Hc.
           destruct (deref_Some _ _ _ Hc) as (a & -> & Ha).
           exists a. split; [done|]. split; [done|]. intros acc'.
           unfold bindR at 1. rewrite Ha. by apply Hchild.
Qed.

(** [Query] on a sorted tree returns the entries of the leaves whose
    path lies inside the interval, in the order of the traversal. *)
Lemma Query_selects irt I (h : heap) :
  sorted_tree irt h = Some true ->
  exists ls,
    all_leaves irt h = Some ls
    /\ Query irt I h = Some (selected I 1 ls).
Proof.
  intros Hs.
  destruct (irt_apply_spec irt I (dimensions irt) (top irt) 1 h) as (ls & Hls & Happ);
    [lia|done|].
  exists ls. split; [done|]. unfold Query. unfold bindR at 1.
  by rewrite Happ.
Qed.

(** *** The order of the traversal *)

Lemma lex_lt_cons v p q : lex_lt p q -> lex_lt (v :: p) (v :: q).
Proof. intros H. cbn. by right. Qed.

(** Blocks of paths, one per node of a strictly increasing list, each
    block in lexicographic order, are in lexicographic order when put one
    after the other. *)
Lemma blocks_sorted (nds : list node) (P : node -> list (list Z)) :
  increasing (value <$> nds) ->
  (forall nd, nd ∈ nds -> Sorted.StronglySorted lex_lt (P nd)) ->
  Sorted.StronglySorted lex_lt
    (concat (map (fun nd => map (cons (value nd)) (P nd)) nds)).
Proof.
  induction nds as [|nd nds IH]; intros Hinc HP; cbn [map concat].
  { constructor. }
  apply sorting.StronglySorted_app_2.
  - intros x1 x2 H1 H2.
    apply list_elem_of_fmap in H1 as (p & -> & _).
    apply list_elem_of_In, in_concat in H2 as (b & Hb & Hx2).
    apply in_map_iff in Hb as (nd' & <- & Hnd').
    apply in_map_iff in Hx2 as (q & <- & _).
    apply list_elem_of_In, list_elem_of_lookup in Hnd' as [j Hj].
    cbn. left. apply (Hinc 0 (S j)); [lia|done|].
    change ((value <$> nds) !! j = Some (value nd')).
    by rewrite list_lookup_fmap, Hj.
  - apply (sorting.StronglySorted_fmap _ lex_lt lex_lt).
    + intros p q. apply lex_lt_cons.
    + apply HP. left.
  - apply IH.
    + intros i j x y Hij Hi Hj. apply (Hinc (S i) (S j)); [lia|done|done].
    + intros nd' Hin. apply HP. by right.
Qed.

Lemma concat_blocks {X Y} (f : X -> Y) {N} (g : N -> list Y)
    (nds : list N) (ys : list (list X)) :
  Forall2 (fun nd y => map f y = g nd) nds ys ->
  map f (concat ys) = concat (map g nds).
Proof.
  induction 1 as [|nd y nds ys Hy _ IH]; [done|].
  cbn [concat map]. by rewrite map_app, Hy, IH.
Qed.

(** The exhaustive traversal of a sorted list meets the leaves in the
    strict lexicographic order of their paths. *)
Lemma leaves_lex_sorted D fuel lst d (h : heap) ls :
  sorted D fuel lst d h = Some true ->
  leaves D fuel lst d h = Some ls ->
  Sorted.StronglySorted lex_lt (map fst ls).
Proof.
  revert lst d ls. induction fuel as [|fuel IH]; intros lst d ls Hs Hl;
    destruct (sorted_elim _ _ _ _ _ Hs) as (es & nds & Hes & Hd & Hinc & Hsub);
    rewrite leaves_unfold in Hl; unfold bindR at 1 in Hl; rewrite Hes in Hl;
    destruct (collect_elim _ _ _ _ Hl) as (nds' & ys & Hd' & Hys & ->);
    pose proof (Forall2_deref_unique _ _ _ _ Hd Hd') as <-.
  - destruct (isLastDimension D d) eqn:El.
    + rewrite (concat_blocks fst (fun nd => map (cons (value nd)) [[]]) nds ys).
      * apply blocks_sorted; [done|]. intros nd _. repeat constructor.
      * eapply Forall2_strengthen; [exact Hys|]. intros nd y _ Hy.
        cbn in Hy. by injection Hy as <-.
    + destruct nds as [|nd nds].
      * inversion Hys; subst. constructor.
      * inversion Hys as [|? y ? ys' Hy _]; subst. done.
  - destruct (isLastDimension D d) eqn:El.
    + rewrite (concat_blocks fst (fun nd => map (cons (value nd)) [[]]) nds ys).
      * apply blocks_sorted; [done|]. intros nd _. repeat constructor.
      * eapply Forall2_strengthen; [exact Hys|]. intros nd y _ Hy.
        cbn in Hy. by injection Hy as <-.
    + set (P := fun nd : node =>
             match leaves D fuel (orderedNodes nd) (S d) h with
             | Some ls => map fst ls
             | None => []
             end).
      rewrite (concat_blocks fst (fun nd => map (cons (value nd)) (P nd)) nds ys).
      * apply blocks_sorted; [done|]. intros nd Hin. unfold P.
        destruct (leaves D fuel (orderedNodes nd) (S d) h) as [ls'|] eqn:El';
          [|constructor].
        destruct (Hsub eq_refl nd Hin) as (f' & [= <-] & Hs').
        by eapply IH.
      * eapply Forall2_strengthen; [exact Hys|]. intros nd y _ Hy.
        unfold bindR, retR in Hy. unfold P.
        destruct (leaves D fuel (orderedNodes nd) (S d) h) as [ls'|]; [|done].
        injection Hy as <-. rewrite !map_map. done.
Qed.

(** X2.  [Query] on a sorted tree returns the entries of exactly the
    leaves whose path lies inside the interval, the leaves being met in
    the strict lexicographic order of their paths. *)
Lemma Query_sorted irt I (h : heap) :
  sorted_tree irt h = Some true ->
  exists ls,
    all_leaves irt h = Some ls
    /\ Sorted.StronglySorted lex_lt (map fst ls)
    /\ Query irt I h = Some (selected I 1 ls).
Proof.
  intros Hs. destruct (Query_selects irt I h Hs) as (ls & Hls & HQ).
  exists ls. split; [done|]. split; [|done].
  by eapply leaves_lex_sorted.
Qed.

(** Whatever [immutableInsert] does, the length of the list of removed
    entries is the difference of the two tree lengths, in [uint64]
    arithmetic. *)
Lemma InsertAtDimension_count immutableInsert irt dimension index num
    t' moved removed (h h' : heap) :
  InsertAtDimension immutableInsert irt dimension index num h
  = Some (t', moved, removed, h') ->
  wrap64 (Len irt - Len t') = wrap64 (Z.of_nat (length removed)).
Proof.
  unfold InsertAtDimension, bind, ret.
  destruct (_ || _).
  - intros [= <- <- <- <-]. by rewrite Z.sub_diag.
  - destruct (immutableInsert _ _ _ _ _ _ _ _ h) as [[[[t m] d] h1]|]; [|done].
    intros [= <- <- <- <-]. unfold Len, wrap64. cbn [number].
    rewrite Zminus_mod_idemp_r. f_equal. lia.
Qed.

(** * Further properties of the operations *)

Section Coverage.
Variable clear_vacated : bool.
Local Abbreviation Delete := (Delete ValueAtDimension clear_vacated).
Local Abbreviation Add := (Add ValueAtDimension).
Local Abbreviation add_all := (add_all ValueAtDimension).
Local Abbreviation irt_add := (irt_add ValueAtDimension).
Local Abbreviation add_loop := (add_loop ValueAtDimension).
Local Abbreviation put := (put ValueAtDimension).
Local Abbreviation put_all := (put_all ValueAtDimension).
Local Abbreviation take_out := (take_out ValueAtDimension).
Local Abbreviation take_out_all := (take_out_all ValueAtDimension).
Local Abbreviation calls := (calls ValueAtDimension clear_vacated).
Local Abbreviation items_after := (items_after ValueAtDimension).

(** ** The counter of [Add] *)

(** One call of [add] leaves the counter as it is or adds one to it. *)
Lemma add_loop_counter irt fuel i nd lst cache e added cache' added'
    (h h' : heap) :
  add_loop irt fuel i nd lst cache e added h = Some ((cache', added'), h') ->
  added' = added \/ added' = wrap64 (added + 1).
Proof.
  revert i nd lst cache h.
  induction fuel as [|fuel IH]; intros i nd lst cache h; cbn [add_loop].
  { intros [= _ <- _]. by left. }
  destruct (isLastDimension (dimensions irt) i).
  - unfold bind, ret.
    destruct (add_clone i nd lst cache h) as [[[[b l] c] h1]|]; [|done].
    destruct (newNode _ _ _ h1) as [[nn h2]|]; [|done].
    destruct (list_add l nn h2) as [[ov h3]|]; [|done].
    destruct nd as [a|].
    + destruct (link (Some a) l h3) as [[[] h4]|]; [|done].
      intros [= _ <- _]. destruct ov; [by left | by right].
    + intros [= _ <- _]. destruct ov; [by left | by right].
  - unfold bind at 1.
    destruct (add_clone i nd lst cache h) as [[[[b l] c] h1]|]; [|done].
    unfold bind at 1.
    destruct ((if b then link nd l else ret ()) h1) as [[[] h2]|]; [|done].
    unfold bind at 1.
    destruct (list_getOrAdd ValueAtDimension l e i (dimensions irt) h2)
      as [[[a fresh] h3]|]; [|done].
    apply IH.
Qed.

Lemma add_all_counter irt nodes cache es added added' (h h' : heap) :
  add_all irt nodes cache es added h = Some (added', h') ->
  exists k, k <= length es /\ wrap64 added' = wrap64 (added + Z.of_nat k).
Proof.
  revert cache added h. induction es as [|e es IH]; intros cache added h;
    cbn [add_all].
  { intros [= <- _]. exists 0. split; [done|]. by rewrite Z.add_0_r. }
  unfold bind at 1. unfold irt_add.
  destruct (add_loop irt (dimensions irt) 1 None nodes cache e added h)
    as [[[c a1] h1]|] eqn:Hl; [|done].
  intros Hrest. destruct (IH _ _ _ Hrest) as (k & Hk & Heq).
  destruct (add_loop_counter _ _ _ _ _ _ _ _ _ _ _ _ Hl) as [->| ->].
  - exists k. split; [cbn; lia | done].
  - exists (S k). split; [cbn; lia|]. rewrite Heq. unfold wrap64.
    rewrite Zplus_mod_idemp_l. f_equal. lia.
Qed.

(** X3.  The counter of [Add]: a call that returns gives a tree of the
    same number of dimensions whose length is the old length plus some
    number between 0 and the number of entries passed, in [uint64]
    arithmetic; [add] counts an entry at most once. *)
Theorem Add_counts_at_most_the_batch irt es t' (h h' : heap) :
  (0 <= number irt < 2 ^ 64)%Z ->
  Add irt es h = Some (t', h') ->
  dimensions t' = dimensions irt
  /\ exists k, k <= length es /\ Len t' = wrap64 (Len irt + Z.of_nat k).
Proof.
  intros Hn. unfold Add. destruct es as [|e es].
  { intros [= <- _]. split; [done|]. exists 0. split; [done|].
    unfold Len, wrap64. rewrite Z.add_0_r. symmetry. by apply Z.mod_small. }
  destruct (newCache (dimensions irt)) as [cache|]; [|done].
  unfold bind at 1. destruct (clone (top irt) h) as [[t h1]|]; [|done].
  unfold bind at 1. destruct (new_var t h1) as [[v h2]|]; [|done].
  unfold bind at 1.
  destruct (add_all irt (SVar v) cache (e :: es) 0 h2) as [[added h3]|] eqn:Ha;
    [|done].
  unfold bind, lift, ret. destruct (load (SVar v) h3) as [t3|]; [|done].
  intros [= <- _]. split; [done|].
  destruct (add_all_counter _ _ _ _ _ _ _ _ Ha) as (k & Hk & Heq).
  exists k. split; [done|]. unfold Len. cbn [number]. unfold wrap64 in *.
  rewrite <- Zplus_mod_idemp_r, Heq, Zplus_mod_idemp_r. done.
Qed.

(** ** [Delete] of entries the tree does not hold *)

(** X6.  A batch none of whose tuples is in the tree is deleted like the
    empty batch: [Delete] returns the same tree and leaves the same
    store. *)
Theorem Delete_of_absent_entries irt es (h : heap) :
  Forall (fun e => contains_tuple irt e h = Some false) es ->
  Delete irt es h = Delete irt [] h.
Proof.
  induction 1 as [|e es He _ IH]; [done|].
  rewrite <- IH. by apply Delete_skips_absent_head.
Qed.

(** ** [Query] and its interval *)

Lemma in_range_inside I J d p :
  (forall k, (LowAtDimension J k <= LowAtDimension I k)%Z
             /\ (HighAtDimension I k <= HighAtDimension J k)%Z) ->
  in_range I d p = true -> in_range J d p = true.
Proof.
  intros HIJ. revert d. induction p as [|v p IH]; intros d; [done|].
  cbn [in_range]. rewrite !andb_true_iff, !Z.leb_le.
  intros [[Hl Hh] Hp]. destruct (HIJ d) as [HJl HJh].
  repeat split; [lia | lia | by apply IH].
Qed.

Lemma selected_sublist I J d ls :
  (forall k, (LowAtDimension J k <= LowAtDimension I k)%Z
             /\ (HighAtDimension I k <= HighAtDimension J k)%Z) ->
  sublist (selected I d ls) (selected J d ls).
Proof.
  intros HIJ. unfold selected. induction ls as [|x ls IH]; [constructor|].
  cbn [List.filter]. destruct (in_range I d (fst x)) eqn:EI.
  - rewrite (in_range_inside I J d _ HIJ EI). cbn [map]. by constructor.
  - destruct (in_range J d (fst x)); [|done]. cbn [map]. by constructor.
Qed.

(** X7.  Narrowing the interval only removes results: on a sorted tree,
    when [I] lies inside [J] at every dimension, both queries answer and
    the entries returned for [I] are a sublist of those returned for
    [J], in the same order. *)
Theorem Query_narrower_interval irt I J (h : heap) :
  sorted_tree irt h = Some true ->
  (forall k, (LowAtDimension J k <= LowAtDimension I k)%Z
             /\ (HighAtDimension I k <= HighAtDimension J k)%Z) ->
  exists rI rJ,
    Query irt I h = Some rI /\ Query irt J h = Some rJ /\ sublist rI rJ.
Proof.
  intros Hs HIJ.
  destruct (Query_selects irt I h Hs) as (ls & Hls & HI).
  destruct (Query_selects irt J h Hs) as (ls' & Hls' & HJ).
  rewrite Hls in Hls'. injection Hls' as <-.
  eexists _, _. split; [exact HI|]. split; [exact HJ|].
  by apply selected_sublist.
Qed.

(** The paths of the leaves below a list of level [d] have one
    coordinate for each level from [d] to the last. *)
Lemma leaves_path_length D fuel lst d (h : heap) ls :
  d <= D ->
  leaves D fuel lst d h = Some ls ->
  Forall (fun x => length (fst x) = S (D - d)) ls.
Proof.
  revert lst d ls. induction fuel as [|fuel IH]; intros lst d ls Hd;
    rewrite leaves_unfold; unfold bindR at 1;
    (destruct (elems lst h) as [es|]; [|done]); intros Hl;
    destruct (collect_elim _ _ _ _ Hl) as (nds & ys & _ & Hys & ->);
    apply Forall_concat; clear Hl;
    induction Hys as [|nd y nds ys Hy _ IHys]; try (by constructor);
    constructor; try done.
  - destruct (isLastDimension D d) eqn:El; [|done].
    apply Nat.leb_le in El. cbn in Hy. injection Hy as <-.
    repeat constructor. cbn. lia.
  - destruct (isLastDimension D d) eqn:El.
    + apply Nat.leb_le in El. cbn in Hy. injection Hy as <-.
      repeat constructor. cbn. lia.
    + apply Nat.leb_gt in El. unfold bindR, retR in Hy.
      destruct (leaves D fuel (orderedNodes nd) (S d) h) as [ls'|] eqn:El';
        [|done].
      injection Hy as <-. apply Forall_fmap.
      eapply Forall_impl; [|apply (IH (orderedNodes nd) (S d) ls'); [lia | done]].
      intros x Hx. cbn. cbn in Hx. rewrite Hx. lia.
Qed.

Lemma in_range_inverted I d0 d D p :
  d0 <= d <= D ->
  (HighAtDimension I d < LowAtDimension I d)%Z ->
  length p = S (D - d0) ->
  in_range I d0 p = false.
Proof.
  revert d0. induction p as [|v p IH]; intros d0 Hd Hinv Hlen; [done|].
  cbn [in_range]. destruct (decide (d0 = d)) as [->|Hne].
  - destruct (LowAtDimension I d <=? v)%Z eqn:E1; [|done].
    destruct (v <=? HighAtDimension I d)%Z eqn:E2; [|done].
    apply Z.leb_le in E1, E2. lia.
  - rewrite (IH (S d0)); [by rewrite andb_false_r | lia | done |].
    cbn in Hlen. lia.
Qed.

(** X8.  An interval that is empty at some dimension of the tree (its
    low bound above its high bound) selects nothing: on a sorted tree
    [Query] returns the empty list. *)
Theorem Query_empty_interval irt I d (h : heap) :
  sorted_tree irt h = Some true ->
  1 <= d <= dimensions irt ->
  (HighAtDimension I d < LowAtDimension I d)%Z ->
  Query irt I h = Some [].
Proof.
  intros Hs Hd Hinv.
  destruct (Query_selects irt I h Hs) as (ls & Hls & ->). f_equal.
  assert (Hlen : Forall (fun x => length (fst x) = S (dimensions irt - 1)) ls).
  { apply (leaves_path_length (dimensions irt) (dimensions irt) (top irt) 1 h);
      [lia | exact Hls]. }
  unfold selected. clear Hls.
  induction Hlen as [|x ls Hx _ IH]; [done|]. cbn [List.filter].
  by rewrite (in_range_inverted I 1 d (dimensions irt) _ Hd Hinv Hx).
Qed.

(** ** The empty tree *)

Lemma Query_empty_top irt I (h : heap) :
  s_len (top irt) = 0 -> Query irt I h = Some [].
Proof.
  intros Hlen. unfold Query, bindR.
  assert (Hes : elems (top irt) h = Some []).
  { unfold elems. by rewrite Hlen. }
  assert (Happ : forall X (fn : addr -> X -> R (bool * X)) low high acc,
             list_apply fn (top irt) low high acc h = Some (true, acc)).
  { intros X fn low high acc. unfold list_apply, list_search, bindR.
    by rewrite Hes. }
  destruct (dimensions irt) as [|D] eqn:ED.
  - cbn [irt_apply]. rewrite ED. cbn [isLastDimension Nat.leb].
    by rewrite Happ.
  - cbn [irt_apply]. rewrite ED.
    destruct (isLastDimension (S D) 1); by rewrite Happ.
Qed.

(** X9.  The empty tree: a new tree has length 0 and [Query] returns
    nothing from it for every interval; with at least one dimension,
    [Delete] of any batch returns a tree of length 0 from which [Query]
    returns nothing either. *)
Theorem empty_tree_stays_empty D I es (h : heap) :
  Len (NewImmutableRangeTree D) = 0%Z
  /\ Query (NewImmutableRangeTree D) I h = Some []
  /\ (D <> 0 ->
      exists t' h',
        Delete (NewImmutableRangeTree D) es h = Some (t', h')
        /\ Len t' = 0%Z
        /\ forall J, Query t' J h' = Some []).
Proof.
  split; [done|]. split; [by apply Query_empty_top|]. intros HD.
  assert (Hnil : Delete (NewImmutableRangeTree D) es h
                 = Delete (NewImmutableRangeTree D) [] h).
  { induction es as [|e es IH]; [done|]. rewrite <- IH.
    apply Delete_skips_absent_head. unfold contains_tuple.
    rewrite contains_unfold. done. }
  rewrite Hnil. eexists _, _. split.
  - by apply (Delete_nil _ (NewImmutableRangeTree D) h []).
  - split; [done|]. intros J. by apply Query_empty_top.
Qed.

(** ** One dimension: [Add] and [Delete] on the top list

    With one dimension the first level is the last: [add] inserts the
    new node into the copy of the top list, or overwrites the node of
    equal value there, and [delete] removes the node from the copy. *)

Lemma upsert_by_at {X} (key : X -> Z) x l i :
  (forall j y, j < i -> l !! j = Some y -> (key y < key x)%Z) ->
  (forall j y, i <= j -> l !! j = Some y -> (key x <= key y)%Z) ->
  upsert_by key x l
  = take i l ++ x :: match l !! i with
                     | Some y => if (key y =? key x)%Z then drop (S i) l
                                 else drop i l
                     | None => []
                     end.
Proof.
  revert i. induction l as [|y rest IH]; intros i Hlo Hhi.
  { by destruct i. }
  destruct i as [|i]; cbn [upsert_by take drop lookup app].
  - pose proof (Hhi 0 y (le_n 0) eq_refl) as Hy. cbn.
    destruct (key x <? key y)%Z eqn:E1.
    + apply Z.ltb_lt in E1.
      replace (key y =? key x)%Z with false by (symmetry; apply Z.eqb_neq; lia).
      done.
    + apply Z.ltb_ge in E1.
      replace (key x =? key y)%Z with true by (symmetry; apply Z.eqb_eq; lia).
      replace (key y =? key x)%Z with true by (symmetry; apply Z.eqb_eq; lia).
      done.
  - pose proof (Hlo 0 y (Nat.lt_0_succ i) eq_refl) as Hy.
    replace (key x <? key y)%Z with false by (symmetry; apply Z.ltb_ge; lia).
    replace (key x =? key y)%Z with false by (symmetry; apply Z.eqb_neq; lia).
    cbn. f_equal. apply IH.
    + intros j z Hj Hz. apply (Hlo (S j) z); [lia | done].
    + intros j z Hj Hz. apply (Hhi (S j) z); [lia | done].
Qed.

Lemma upsert_by_elem {X} (key : X -> Z) x l z :
  z ∈ upsert_by key x l -> z = x \/ z ∈ l.
Proof.
  induction l as [|y rest IH]; cbn [upsert_by].
  - intros ->%list_elem_of_singleton. by left.
  - destruct (key x <? key y)%Z.
    { intros [->|Hz]%elem_of_cons; [by left | by right]. }
    destruct (key x =? key y)%Z.
    { intros [->|Hz]%elem_of_cons; [by left | right; by right]. }
    intros [->|Hz]%elem_of_cons; [right; left|].
    destruct (IH Hz) as [->|?]; [by left | right; by right].
Qed.

Lemma upsert_by_sorted {X} (key : X -> Z) x l :
  Sorted.StronglySorted Z.lt (key <$> l) ->
  Sorted.StronglySorted Z.lt (key <$> upsert_by key x l).
Proof.
  induction l as [|y rest IH]; cbn [upsert_by fmap list_fmap].
  { intros _. repeat constructor. }
  intros [Hy Hrest]%sorting.StronglySorted_cons.
  destruct (key x <? key y)%Z eqn:E1.
  { apply Z.ltb_lt in E1. cbn. constructor.
    - by constructor.
    - constructor; [done|]. eapply Forall_impl; [|exact Hy].
      intros z Hz. cbn in Hz. lia. }
  apply Z.ltb_ge in E1. destruct (key x =? key y)%Z eqn:E2.
  { apply Z.eqb_eq in E2. cbn. constructor; [done|]. by rewrite E2. }
  apply Z.eqb_neq in E2. cbn. constructor; [by apply IH|].
  apply Forall_fmap, Forall_forall. intros z Hz%list_elem_of_In.
  apply upsert_by_elem in Hz as [->|Hz]; [cbn; lia|].
  rewrite Forall_fmap, Forall_forall in Hy. apply Hy. by apply list_elem_of_In.
Qed.

Lemma increasing_strongly_sorted vs :
  increasing vs <-> Sorted.StronglySorted Z.lt vs.
Proof.
  split.
  - induction vs as [|x vs IH]; intros Hinc; constructor.
    + apply IH. by eapply increasing_tail.
    + apply Forall_lookup. intros j y Hy.
      apply (Hinc 0 (S j)); [lia | done | done].
  - induction 1 as [|x vs _ IH Hx]; [by intros i j ? ? _ ?|].
    rewrite Forall_lookup in Hx.
    intros [|i] [|j] a b Hij Hi Hj; cbn in *; try lia.
    + injection Hi as <-. by eapply Hx.
    + apply (IH i j); [lia | done | done].
Qed.

Lemma increasing_ascending vs : increasing vs -> ascending vs = true.
Proof.
  induction vs as [|x vs IH]; [done|]. intros Hinc.
  pose proof (IH (increasing_tail _ _ Hinc)) as Hrest.
  destruct vs as [|y vs]; [done|].
  change (ascending (x :: y :: vs)) with ((x <? y)%Z && ascending (y :: vs)).
  rewrite Hrest, andb_true_r.
  apply Z.ltb_lt. apply (Hinc 0 1); [lia | done | done].
Qed.

Lemma upsert_by_increasing {X} (key : X -> Z) x l :
  increasing (key <$> l) -> increasing (key <$> upsert_by key x l).
Proof. rewrite !increasing_strongly_sorted. apply upsert_by_sorted. Qed.

(** *** The working list of a call

    [working am h v nds]: the variable [v] holds a slice over an array
    created after the mark [am], with capacity the size of the array,
    whose elements point to the nodes [nds]. *)
Definition working (am : nat) (h : heap) (v : addr) (nds : list node) : Prop :=
  exists s cells,
    h_vars h !! v = Some s /\ h_arrays h !! s_arr s = Some cells
    /\ s_cap s = length cells /\ s_len s <= s_cap s /\ am <= s_arr s
    /\ Forall2 (fun c nd => deref c h = Some nd) (take (s_len s) cells) nds.

(** What [h'] keeps of [h] when only the working list [v] and arrays
    from the mark [am] on are written to. *)
Definition framed (am : nat) (v : addr) (h h' : heap) : Prop :=
  h_nodes h `prefix_of` h_nodes h'
  /\ length (h_vars h') = length (h_vars h)
  /\ (forall x, x <> v -> h_vars h' !! x = h_vars h !! x)
  /\ (forall a, a < am -> h_arrays h' !! a = h_arrays h !! a)
  /\ length (h_arrays h) <= length (h_arrays h').

Lemma framed_refl am v (h : heap) : framed am v h h.
Proof. by repeat split. Qed.

Lemma framed_trans am v (h1 h2 h3 : heap) :
  framed am v h1 h2 -> framed am v h2 h3 -> framed am v h1 h3.
Proof.
  intros (Hn & Hl & Hv & Ha & Hal) (Hn' & Hl' & Hv' & Ha' & Hal').
  repeat split.
  - by etrans.
  - congruence.
  - intros x Hx. by rewrite Hv', Hv.
  - intros a Ha0. by rewrite Ha', Ha.
  - lia.
Qed.

Lemma elems_working s cells (h : heap) :
  h_arrays h !! s_arr s = Some cells -> s_len s <= length cells ->
  elems s h = Some (take (s_len s) cells).
Proof.
  intros Ha Hl. unfold elems, bindR, retR, load_array.
  destruct (s_len s =? 0) eqn:E0.
  - apply Nat.eqb_eq in E0. by rewrite E0.
  - rewrite Ha. by replace (s_len s <=? length cells) with true
      by (symmetry; by apply Nat.leb_le).
Qed.

Lemma store_array_spec a cells (h : heap) :
  a < length (h_arrays h) ->
  store_array a cells h
  = Some (tt, Heap (h_nodes h) (<[a:=cells]> (h_arrays h)) (h_vars h)).
Proof.
  intros Ha. unfold store_array.
  by replace (a <? length (h_arrays h)) with true
    by (symmetry; by apply Nat.ltb_lt).
Qed.

(** [append] on a slice whose capacity is the size of its array. *)
Lemma append_spec s c cells (h : heap) :
  h_arrays h !! s_arr s = Some cells ->
  s_cap s = length cells -> s_len s <= s_cap s ->
  exists s' cells' arrays',
    append s c h = Some (s', Heap (h_nodes h) arrays' (h_vars h))
    /\ arrays' !! s_arr s' = Some cells'
    /\ s_cap s' = length cells' /\ s_len s' = S (s_len s)
    /\ s_len s' <= s_cap s'
    /\ take (S (s_len s)) cells' = take (s_len s) cells ++ [c]
    /\ s_arr s <= s_arr s'
    /\ length (h_arrays h) <= length arrays'
    /\ (forall a, a < s_arr s -> arrays' !! a = h_arrays h !! a).
Proof.
  intros Ha Hcap Hlen. pose proof (lookup_lt_Some _ _ _ Ha) as Hlt.
  unfold append. destruct (s_len s <? s_cap s) eqn:E.
  - apply Nat.ltb_lt in E. unfold bind, lift, load_array. rewrite Ha.
    replace (s_len s <? length cells) with true
      by (symmetry; apply Nat.ltb_lt; lia).
    rewrite store_array_spec by done. unfold ret.
    eexists _, (<[s_len s:=c]> cells), _. split; [reflexivity|].
    cbn [s_arr s_cap s_len]. repeat split.
    + by rewrite list_lookup_insert_eq.
    + by rewrite length_insert.
    + lia.
    + rewrite (take_S_r _ _ c) by (apply list_lookup_insert_eq; lia).
      by rewrite take_insert_ge by lia.
    + done.
    + by rewrite length_insert.
    + intros a Hlt'. apply list_lookup_insert_ne. lia.
  - apply Nat.ltb_ge in E. unfold bind, lift.
    rewrite (elems_working _ _ _ Ha) by lia. unfold new_array, ret.
    eexists _, _, _. split; [reflexivity|]. cbn [s_arr s_cap s_len].
    assert (Hg : S (s_len s) <= grow (s_cap s)) by (unfold grow; lia).
    repeat split.
    + by rewrite lookup_app_r, Nat.sub_diag.
    + rewrite length_app, length_take. cbn. rewrite length_replicate. lia.
    + done.
    + rewrite (cons_middle c), app_assoc. apply take_app_length'.
      rewrite length_app, length_take. cbn. lia.
    + lia.
    + rewrite length_app. cbn. lia.
    + intros a Hlt'. apply lookup_app_l. lia.
Qed.

Lemma deref_same_nodes c (h h' : heap) :
  h_nodes h' = h_nodes h -> deref c h' = deref c h.
Proof. intros Hn. destruct c; [|done]. unfold deref, load_node. by rewrite Hn. Qed.

Lemma Forall2_deref_same_nodes cells nds (h h' : heap) :
  h_nodes h' = h_nodes h ->
  Forall2 (fun c nd => deref c h = Some nd) cells nds ->
  Forall2 (fun c nd => deref c h' = Some nd) cells nds.
Proof.
  intros Hn Hd. induction Hd as [|c nd cells nds Hc _ IH]; constructor; [|done].
  by rewrite (deref_same_nodes _ _ _ Hn).
Qed.

(** The search of the working list returns the split point. *)
Lemma list_search_split s cells nds k (h : heap) :
  h_arrays h !! s_arr s = Some cells -> s_len s <= length cells ->
  Forall2 (fun c nd => deref c h = Some nd) (take (s_len s) cells) nds ->
  increasing (value <$> nds) ->
  exists i,
    list_search s k h = Some i /\ i <= s_len s
    /\ (forall j nd, j < i -> nds !! j = Some nd -> (value nd < k)%Z)
    /\ (forall j nd, i <= j -> nds !! j = Some nd -> (k <= value nd)%Z).
Proof.
  intros Ha Hl Hd Hinc. unfold list_search, bindR.
  rewrite (elems_working _ _ _ Ha Hl).
  destruct (bisect_split (length (take (s_len s) cells)) _ _ k 0
              (length (take (s_len s) cells)) h Hd Hinc)
    as (i & Hi & Hle & Hlo & Hhi).
  - lia.
  - lia.
  - intros j nd Hj. lia.
  - intros j nd Hj Hnd. apply lookup_lt_Some in Hnd.
    apply Forall2_length in Hd. lia.
  - exists i. rewrite length_take_le in Hle by done. by repeat split.
Qed.

(** Insert-or-overwrite on the working list. *)
Lemma list_add_spec am v p np nds (h : heap) :
  working am h v nds ->
  increasing (value <$> nds) ->
  load_node p h = Some np ->
  exists ov h',
    list_add (SVar v) p h = Some (ov, h')
    /\ working am h' v (upsert_by value np nds)
    /\ h_nodes h' = h_nodes h
    /\ framed am v h h'
    /\ (ov = None /\ length (upsert_by value np nds) = S (length nds)
        \/ is_Some ov /\ length (upsert_by value np nds) = length nds).
Proof.
  intros (s & cells & Hv & Ha & Hcap & Hlen & Ham & Hd) Hinc Hp.
  assert (Hlc : s_len s <= length cells) by lia.
  pose proof (lookup_lt_Some _ _ _ Hv) as Hvlt.
  pose proof (lookup_lt_Some _ _ _ Ha) as Halt.
  assert (Hnl : length (take (s_len s) cells) = length nds)
    by (by eapply Forall2_length).
  rewrite length_take_le in Hnl by done.
  destruct (list_search_split s cells nds (value np) h Ha Hlc Hd Hinc)
    as (i & Hi & Hile & Hlo & Hhi).
  pose proof (upsert_by_at value np nds i Hlo Hhi) as Hup.
  unfold list_add, bind, lift. cbn [load]. rewrite Hv, Hp, Hi.
  destruct (i =? s_len s) eqn:Ei.
  - (* append at the end *)
    apply Nat.eqb_eq in Ei. subst i.
    destruct (append_spec s (Some p) cells h Ha Hcap Hlen)
      as (s' & cells' & arrays' & -> & Ha' & Hcap' & Hlen' & Hle' & Htake
          & Harr & Hal & Hbelow).
    unfold store, ret.
    cbn [h_vars]. replace (v <? length (h_vars h)) with true
      by (symmetry; by apply Nat.ltb_lt).
    rewrite (lookup_ge_None_2 nds (s_len s)) in Hup by lia.
    rewrite take_ge in Hup by lia.
    eexists _, _. split; [reflexivity|]. split; [|split; [done|split]].
    + exists s', cells'. cbn [h_vars h_arrays].
      rewrite list_lookup_insert_eq by done.
      repeat split; try done; [lia|].
      rewrite Hlen', Htake, Hup. apply Forall2_app.
      * by apply (Forall2_deref_same_nodes _ _ h).
      * repeat constructor. exact Hp.
    + repeat split; cbn [h_nodes h_vars h_arrays]; try done.
      * by rewrite length_insert.
      * intros x Hx. by apply list_lookup_insert_ne.
      * intros a Hlt. apply Hbelow. lia.
    + left. split; [done|]. rewrite Hup, length_app. cbn. lia.
  - apply Nat.eqb_neq in Ei. assert (Hilt : i < s_len s) by lia.
    destruct (lookup_lt_is_Some_2 cells i) as [c Hc]; [lia|].
    assert (Hec : take (s_len s) cells !! i = Some c)
      by (by rewrite lookup_take_lt).
    destruct (Forall2_lookup_l _ _ _ _ _ Hd Hec) as (old & Hold & Hdc).
    unfold index, bindR. rewrite (elems_working _ _ _ Ha Hlc), Hec.
    unfold retR. rewrite Hdc. rewrite Hold in Hup.
    destruct (value old =? value np)%Z eqn:Ev.
    + (* overwrite in place *)
      unfold set_index, bind, lift, load_array.
      replace (i <? s_len s) with true by (symmetry; by apply Nat.ltb_lt).
      rewrite Ha.
      replace (i <? length cells) with true
        by (symmetry; apply Nat.ltb_lt; lia).
      rewrite store_array_spec by done. unfold ret.
      assert (Hup' : upsert_by value np nds = <[i:=np]> nds).
      { rewrite Hup. symmetry. apply insert_take_drop. lia. }
      eexists _, _. split; [reflexivity|]. split; [|split; [done|split]].
      * exists s, (<[i:=Some p]> cells). cbn [h_vars h_arrays].
        rewrite list_lookup_insert_eq by done. rewrite length_insert.
        repeat split; try done.
        rewrite Hup', take_insert_lt by done.
        apply Forall2_insert; [|exact Hp].
        by apply (Forall2_deref_same_nodes _ _ h).
      * repeat split; cbn [h_nodes h_vars h_arrays]; try done.
        -- intros a Hlt. apply list_lookup_insert_ne. lia.
        -- by rewrite length_insert.
      * right. split.
        -- destruct (deref_Some _ _ _ Hdc) as (a & -> & _). by eexists.
        -- by rewrite Hup', length_insert.
    + (* open a gap *)
      unfold insert_at.
      destruct (append_spec s None cells h Ha Hcap Hlen)
        as (s' & cells' & arrays' & Happ & Ha' & Hcap' & Hlen' & Hle' & Htake
            & Harr & Hal & Hbelow).
      unfold bind at 1. unfold bind at 1. rewrite Happ.
      unfold bind at 1. unfold store.
      cbn [h_vars]. replace (v <? length (h_vars h)) with true
        by (symmetry; by apply Nat.ltb_lt).
      unfold bind, lift, load_array. cbn [h_arrays]. rewrite Ha'.
      pose proof (lookup_lt_Some _ _ _ Ha') as Halt'.
      rewrite store_array_spec by done. unfold ret.
      cbn [h_nodes h_arrays h_vars].
      assert (Hes : take (s_len s) cells' = take (s_len s) cells).
      { replace (take (s_len s) cells')
          with (take (s_len s) (take (S (s_len s)) cells'))
          by (rewrite take_take; f_equal; lia).
        rewrite Htake. apply take_app_length'. by rewrite length_take_le. }
      eexists _, _. split; [reflexivity|]. split; [|split; [done|split]].
      * eexists s', _. cbn [h_vars h_arrays].
        rewrite !list_lookup_insert_eq by done.
        split; [done|]. split; [done|]. split.
        { rewrite Hcap', !length_app. cbn. rewrite !length_app, !length_take,
            !length_drop. lia. }
        split; [lia|]. split; [lia|].
        rewrite Hlen', Hup.
        replace (S (s_len s)) with (i + S (s_len s - i)) by lia.
        rewrite take_app_add' by (rewrite length_take; lia). cbn [take].
        rewrite take_app_length' by (rewrite length_take, length_drop; lia).
        apply Forall2_app; [|constructor; [exact Hp|]].
        -- replace (take i cells') with (take i (take (s_len s) cells)).
           { apply Forall2_take. by apply (Forall2_deref_same_nodes _ _ h). }
           rewrite <- Hes. rewrite take_take. f_equal. lia.
        -- replace (take (s_len s - i) (drop i cells'))
             with (drop i (take (s_len s) cells)).
           { apply Forall2_drop. by apply (Forall2_deref_same_nodes _ _ h). }
           rewrite <- Hes, take_drop_commute. do 2 f_equal. lia.
      * repeat split; cbn [h_nodes h_vars h_arrays]; try done.
        -- by rewrite length_insert.
        -- intros x Hx. by apply list_lookup_insert_ne.
        -- intros a Hlt. rewrite list_lookup_insert_ne by lia.
           apply Hbelow. lia.
        -- rewrite length_insert. lia.
      * left. split; [done|]. rewrite Hup, length_app. cbn.
        rewrite length_take, length_drop. lia.
Qed.

(** The node [add] creates for an entry at the last dimension. *)
Definition leaf_node (dimension : nat) (e : Entry) : node :=
  Node (ValueAtDimension e dimension) (Some e) nil_slice.

Lemma working_more_nodes am v nds n (h : heap) :
  working am h v nds ->
  working am (Heap (h_nodes h ++ [n]) (h_arrays h) (h_vars h)) v nds.
Proof.
  intros (s & cells & Hv & Ha & Hcap & Hlen & Ham & Hd).
  exists s, cells. repeat split; try done.
  clear -Hd. induction Hd as [|c nd cells' nds Hc _ IH]; constructor; [|done].
  destruct c as [a|]; [|done]. cbn in *. unfold load_node in *. cbn.
  by apply lookup_app_l_Some.
Qed.

(** One call of [add] on a tree of one dimension. *)
Lemma irt_add_one_dimension irt am v cache e added nds (h : heap) :
  dimensions irt = 1 ->
  working am h v nds ->
  increasing (value <$> nds) ->
  exists added' h',
    irt_add irt (SVar v) cache e added h = Some ((cache, added'), h')
    /\ working am h' v (upsert_by value (leaf_node 1 e) nds)
    /\ framed am v h h'
    /\ (added' = wrap64 (added + 1)
        /\ length (upsert_by value (leaf_node 1 e) nds) = S (length nds)
        \/ added' = added
           /\ length (upsert_by value (leaf_node 1 e) nds) = length nds).
Proof.
  intros HD Hw Hinc. unfold irt_add. rewrite HD. cbn [add_loop]. rewrite HD.
  cbn [isLastDimension Nat.leb]. unfold add_clone. cbn [Nat.eqb].
  unfold bind at 1. unfold ret at 1. unfold bind at 1.
  unfold newNode, new_node.
  set (h1 := Heap (h_nodes h ++ [_]) (h_arrays h) (h_vars h)).
  destruct (list_add_spec am v (length (h_nodes h)) (leaf_node 1 e) nds h1)
    as (ov & h' & Hadd & Hw' & Hn & Hf & Hov).
  { by apply working_more_nodes. }
  { done. }
  { unfold load_node, h1. cbn. by rewrite lookup_app_r, Nat.sub_diag. }
  unfold bind at 1. rewrite Hadd. unfold bind, ret.
  eexists _, h'. split; [reflexivity|]. split; [done|]. split.
  - apply (framed_trans _ _ h h1); [|done].
    repeat split; try done. by apply prefix_app_r.
  - destruct Hov as [[-> Hl]|[[a ->] Hl]]; [by left | by right].
Qed.

(** The nodes of the working list after a batch. *)
Definition upsert_all (dimension : nat) (es : list Entry) (nds : list node)
  : list node :=
  fold_left (fun acc e => upsert_by value (leaf_node dimension e) acc) es nds.

Lemma upsert_all_increasing d es nds :
  increasing (value <$> nds) -> increasing (value <$> upsert_all d es nds).
Proof.
  revert nds. induction es as [|e es IH]; intros nds Hinc; [done|].
  apply IH. by apply upsert_by_increasing.
Qed.

Lemma add_all_one_dimension irt am v cache es added nds (h : heap) :
  dimensions irt = 1 ->
  working am h v nds ->
  increasing (value <$> nds) ->
  exists added' h',
    add_all irt (SVar v) cache es added h = Some (added', h')
    /\ working am h' v (upsert_all 1 es nds)
    /\ framed am v h h'
    /\ length nds <= length (upsert_all 1 es nds)
    /\ wrap64 added'
       = wrap64 (added + Z.of_nat (length (upsert_all 1 es nds) - length nds)).
Proof.
  intros HD. revert added nds h.
  induction es as [|e es IH]; intros added nds h Hw Hinc; cbn [add_all].
  { unfold ret. eexists _, _. split; [reflexivity|]. split; [done|].
    split; [apply framed_refl|]. split; [done|].
    cbn. by rewrite Nat.sub_diag, Z.add_0_r. }
  destruct (irt_add_one_dimension irt am v cache e added nds h HD Hw Hinc)
    as (a1 & h1 & Hadd & Hw1 & Hf1 & Hcount).
  unfold bind at 1. rewrite Hadd.
  destruct (IH a1 _ h1 Hw1 (upsert_by_increasing _ _ _ Hinc))
    as (a2 & h2 & Hall & Hw2 & Hf2 & Hle & Heq).
  eexists _, _. split; [exact Hall|]. split; [exact Hw2|].
  split; [by eapply framed_trans|].
  change (upsert_all 1 (e :: es) nds)
    with (upsert_all 1 es (upsert_by value (leaf_node 1 e) nds)).
  destruct Hcount as [[-> Hl]|[-> Hl]]; rewrite Hl in Hle, Heq.
  - split; [lia|]. rewrite Heq. unfold wrap64.
    rewrite Zplus_mod_idemp_l. f_equal. lia.
  - split; [lia|]. rewrite Heq. done.
Qed.

(** The top list of [irt] points to the nodes [nds]. *)
Definition holds (irt : ImmutableRangeTree) (h : heap) (nds : list node)
  : Prop :=
  exists cells,
    elems (top irt) h = Some cells
    /\ Forall2 (fun c nd => deref c h = Some nd) cells nds.

Lemma Add_one_dimension_nodes irt e es (h : heap) nds :
  dimensions irt = 1 ->
  holds irt h nds ->
  increasing (value <$> nds) ->
  exists t' h',
    Add irt (e :: es) h = Some (t', h')
    /\ dimensions t' = 1
    /\ holds t' h' (upsert_all 1 (e :: es) nds)
    /\ extends h h'
    /\ length nds <= length (upsert_all 1 (e :: es) nds)
    /\ Len t'
       = wrap64 (number irt
                 + Z.of_nat (length (upsert_all 1 (e :: es) nds) - length nds)).
Proof.
  intros HD (cells & Hes & Hd) Hinc. unfold Add. rewrite HD. cbn [newCache].
  unfold bind at 1. rewrite (clone_spec _ _ _ Hes).
  unfold bind at 1. unfold new_var at 1. cbn [h_vars h_nodes h_arrays].
  set (t := Slice _ _ _). set (h2 := Heap _ _ _).
  pose proof (elems_length _ _ _ Hes) as Hlen.
  destruct (add_all_one_dimension irt (length (h_arrays h))
              (length (h_vars h)) (replicate 1 []) (e :: es) 0 nds h2 HD)
    as (added & h3 & Hall & Hw & Hf & Hle & Heq).
  { exists t, cells. unfold h2, t. cbn [h_vars h_arrays s_arr s_len s_cap].
    rewrite !lookup_app_r, !Nat.sub_diag by done.
    split; [done|]. split; [done|]. split; [done|]. split; [lia|].
    split; [lia|].
    rewrite take_ge by lia. by apply (Forall2_deref_same_nodes _ _ h). }
  { done. }
  unfold bind at 1. rewrite Hall.
  destruct Hw as (s & cells' & Hv & Ha & Hcap & Hsl & Ham & Hd').
  unfold bind, lift, ret. cbn [load]. rewrite Hv.
  eexists _, _. split; [reflexivity|]. cbn [dimensions top].
  split; [done|]. split.
  { exists (take (s_len s) cells'). split; [|done].
    apply elems_working; [done | lia]. }
  destruct Hf as (Hn & Hvl & Hvs & Has & Hal). split.
  { repeat split.
    - exact Hn.
    - apply (prefix_agree _ (h_arrays h2)); [by apply prefix_app_r | exact Has].
    - apply (prefix_agree _ (h_vars h2)); [by apply prefix_app_r|].
      intros x Hx. apply Hvs. lia. }
  split; [done|]. unfold Len. cbn [number]. unfold wrap64 in *.
  rewrite <- Zplus_mod_idemp_r, Heq, Zplus_mod_idemp_r. done.
Qed.

(** *** [delete] on the working list *)

Lemma remove_by_absent {X} (key : X -> Z) k l :
  (forall j y, l !! j = Some y -> (k < key y)%Z) -> remove_by key k l = l.
Proof.
  induction l as [|y rest IH]; intros Hall; [done|]. cbn [remove_by].
  pose proof (Hall 0 y eq_refl) as Hy.
  replace (k =? key y)%Z with false by (symmetry; apply Z.eqb_neq; lia).
  f_equal. apply IH. intros j z Hz. by apply (Hall (S j)).
Qed.

Lemma remove_by_at {X} (key : X -> Z) k l i :
  increasing (key <$> l) ->
  (forall j y, j < i -> l !! j = Some y -> (key y < k)%Z) ->
  (forall j y, i <= j -> l !! j = Some y -> (k <= key y)%Z) ->
  remove_by key k l
  = match l !! i with
    | Some y => if (key y =? k)%Z then take i l ++ drop (S i) l else l
    | None => l
    end.
Proof.
  revert i. induction l as [|y rest IH]; intros i Hinc Hlo Hhi.
  { by destruct i. }
  destruct i as [|i]; cbn [remove_by take drop lookup app].
  - cbn. rewrite Z.eqb_sym. destruct (key y =? k)%Z eqn:E; [done|].
    apply Z.eqb_neq in E. pose proof (Hhi 0 y (le_n 0) eq_refl) as Hy.
    f_equal. apply remove_by_absent. intros j z Hz.
    assert (key y < key z)%Z; [|lia].
    apply (Hinc 0 (S j)); [lia | done|].
    change ((key <$> rest) !! j = Some (key z)).
    by rewrite list_lookup_fmap, Hz.
  - pose proof (Hlo 0 y (Nat.lt_0_succ i) eq_refl) as Hy.
    replace (k =? key y)%Z with false by (symmetry; apply Z.eqb_neq; lia).
    cbn. rewrite (IH i).
    + destruct (rest !! i) as [z|]; [|done]. by destruct (key z =? k)%Z.
    + by eapply increasing_tail.
    + intros j z Hj Hz. apply (Hlo (S j) z); [lia | done].
    + intros j z Hj Hz. apply (Hhi (S j) z); [lia | done].
Qed.

Lemma remove_by_elem {X} (key : X -> Z) k l z :
  z ∈ remove_by key k l -> z ∈ l.
Proof.
  induction l as [|y rest IH]; cbn [remove_by]; [done|].
  destruct (k =? key y)%Z; [by right|].
  intros [->|Hz]%elem_of_cons; [left | right; by apply IH].
Qed.

Lemma remove_by_sorted {X} (key : X -> Z) k l :
  Sorted.StronglySorted Z.lt (key <$> l) ->
  Sorted.StronglySorted Z.lt (key <$> remove_by key k l).
Proof.
  induction l as [|y rest IH]; cbn [remove_by fmap list_fmap]; [done|].
  intros [Hy Hrest]%sorting.StronglySorted_cons.
  destruct (k =? key y)%Z; [done|]. cbn. constructor; [by apply IH|].
  apply Forall_fmap, Forall_forall. intros z Hz%list_elem_of_In.
  apply remove_by_elem in Hz.
  rewrite Forall_fmap, Forall_forall in Hy. apply Hy. by apply list_elem_of_In.
Qed.

Lemma remove_by_increasing {X} (key : X -> Z) k l :
  increasing (key <$> l) -> increasing (key <$> remove_by key k l).
Proof. rewrite !increasing_strongly_sorted. apply remove_by_sorted. Qed.

(** [deleteAt] on the working list, for both treatments of the vacated
    cell. *)
Lemma list_deleteAt_spec am v i nds (h : heap) :
  working am h v nds ->
  i < length nds ->
  exists h',
    list_deleteAt clear_vacated (SVar v) i h = Some (tt, h')
    /\ working am h' v (take i nds ++ drop (S i) nds)
    /\ framed am v h h'.
Proof.
  intros (s & cells & Hv & Ha & Hcap & Hlen & Ham & Hd) Hi.
  assert (Hlc : s_len s <= length cells) by lia.
  pose proof (lookup_lt_Some _ _ _ Hv) as Hvlt.
  pose proof (lookup_lt_Some _ _ _ Ha) as Halt.
  assert (Hnl : length (take (s_len s) cells) = length nds)
    by (by eapply Forall2_length).
  rewrite length_take_le in Hnl by done.
  unfold list_deleteAt, bind, lift. cbn [load]. rewrite Hv.
  replace (s_len s <=? i) with false by (symmetry; apply Nat.leb_gt; lia).
  unfold load_array. rewrite Ha. rewrite store_array_spec by done.
  unfold store. cbn [h_vars].
  replace (v <? length (h_vars h)) with true by (symmetry; by apply Nat.ltb_lt).
  eexists. split; [reflexivity|]. split.
  - eexists (Slice (s_arr s) (s_len s - 1) (s_cap s)), _.
    cbn [h_vars h_arrays s_arr s_len s_cap].
    rewrite !list_lookup_insert_eq by done.
    split; [done|]. split; [done|]. split.
    { rewrite Hcap, !length_app, !length_take, !length_drop.
      destruct clear_vacated; cbn; rewrite ?length_drop; lia. }
    split; [lia|]. split; [done|].
    replace (s_len s - 1) with (i + (s_len s - S i)) by lia.
    rewrite take_app_add' by (rewrite length_take; lia).
    rewrite take_app_length' by (rewrite length_take, length_drop; lia).
    apply (Forall2_deref_same_nodes _ _ h); [done|].
    apply Forall2_app.
    + replace (take i cells) with (take i (take (s_len s) cells))
        by (rewrite take_take; f_equal; lia).
      by apply Forall2_take.
    + replace (take (s_len s - S i) (drop (S i) cells))
        with (drop (S i) (take (s_len s) cells))
        by (rewrite take_drop_commute; do 2 f_equal; lia).
      by apply Forall2_drop.
  - repeat split; cbn [h_nodes h_vars h_arrays]; try done.
    + by rewrite length_insert.
    + intros x Hx. by apply list_lookup_insert_ne.
    + intros a Hlt. apply list_lookup_insert_ne. lia.
    + by rewrite length_insert.
Qed.

Local Abbreviation irt_delete := (irt_delete ValueAtDimension clear_vacated).
Local Abbreviation delete_all := (delete_all ValueAtDimension clear_vacated).

Lemma rebuild_single irt l i :
  rebuild (Entry:=Entry) irt 1 [Bundle l i None None]
  = ret [Bundle l i None None].
Proof. reflexivity. Qed.

(** One call of [delete] on a tree of one dimension. *)
Lemma irt_delete_one_dimension irt am v cache e d nds (h : heap) :
  dimensions irt = 1 ->
  working am h v nds ->
  increasing (value <$> nds) ->
  exists d' h',
    irt_delete irt (SVar v) cache e d h = Some (d', h')
    /\ working am h' v (remove_by value (ValueAtDimension e 1) nds)
    /\ framed am v h h'
    /\ (d' = wrap64 (d + 1)
        /\ S (length (remove_by value (ValueAtDimension e 1) nds)) = length nds
        \/ d' = d
           /\ length (remove_by value (ValueAtDimension e 1) nds) = length nds).
Proof.
  intros HD Hw Hinc.
  pose proof Hw as (s & cells & Hv & Ha & Hcap & Hlen & Ham & Hd).
  assert (Hlc : s_len s <= length cells) by lia.
  assert (Hnl : length (take (s_len s) cells) = length nds)
    by (by eapply Forall2_length).
  rewrite length_take_le in Hnl by done.
  destruct (list_search_split s cells nds (ValueAtDimension e 1) h Ha Hlc Hd Hinc)
    as (i & Hi & Hile & Hlo & Hhi).
  pose proof (remove_by_at value (ValueAtDimension e 1) nds i Hinc Hlo Hhi) as Hrm.
  unfold irt_delete. rewrite HD. cbn [descend].
  unfold bind at 1. unfold lift, bindR at 1. cbn [load]. rewrite Hv.
  unfold bindR at 1. unfold list_get. unfold bindR at 1. rewrite Hi.
  destruct (i =? s_len s) eqn:Ei.
  - apply Nat.eqb_eq in Ei. unfold retR. unfold ret.
    rewrite (lookup_ge_None_2 nds i) in Hrm by lia. rewrite Hrm.
    eexists _, _. split; [reflexivity|]. split; [done|].
    split; [apply framed_refl|]. by right.
  - apply Nat.eqb_neq in Ei. assert (Hilt : i < s_len s) by lia.
    destruct (lookup_lt_is_Some_2 cells i) as [c Hc]; [lia|].
    assert (Hec : take (s_len s) cells !! i = Some c)
      by (by rewrite lookup_take_lt).
    destruct (Forall2_lookup_l _ _ _ _ _ Hd Hec) as (old & Hold & Hdc).
    unfold index, bindR. rewrite (elems_working _ _ _ Ha Hlc), Hec.
    unfold retR. rewrite Hdc. rewrite Hold in Hrm.
    destruct (value old =? ValueAtDimension e 1)%Z eqn:Ev.
    + destruct (deref_Some _ _ _ Hdc) as (a & -> & _).
      cbn [app length]. rewrite rebuild_single.
      unfold ret at 1. unfold bind at 1. cbn [splice nb_newNode nb_list nb_index].
      destruct (list_deleteAt_spec am v i nds h Hw) as (h' & Hdel & Hw' & Hf);
        [lia|].
      unfold bind at 1. unfold bind at 1. rewrite Hdel. unfold ret, bind.
      rewrite Hrm.
      eexists _, _. split; [reflexivity|]. split; [done|]. split; [done|].
      left. split; [done|]. rewrite length_app, length_take, length_drop. lia.
    + unfold ret. rewrite Hrm.
      eexists _, _. split; [reflexivity|]. split; [done|].
      split; [apply framed_refl|]. by right.
Qed.

(** The nodes of the working list after a batch of deletions. *)
Definition remove_all (dimension : nat) (es : list Entry) (nds : list node)
  : list node :=
  fold_left (fun acc e => remove_by value (ValueAtDimension e dimension) acc)
    es nds.

Lemma remove_all_increasing d es nds :
  increasing (value <$> nds) -> increasing (value <$> remove_all d es nds).
Proof.
  revert nds. induction es as [|e es IH]; intros nds Hinc; [done|].
  apply IH. by apply remove_by_increasing.
Qed.

Lemma delete_all_one_dimension irt am v cache es d nds (h : heap) :
  dimensions irt = 1 ->
  working am h v nds ->
  increasing (value <$> nds) ->
  exists d' h',
    delete_all irt (SVar v) cache es d h = Some (d', h')
    /\ working am h' v (remove_all 1 es nds)
    /\ framed am v h h'
    /\ length (remove_all 1 es nds) <= length nds
    /\ wrap64 d'
       = wrap64 (d + Z.of_nat (length nds - length (remove_all 1 es nds))).
Proof.
  intros HD. revert d nds h.
  induction es as [|e es IH]; intros d nds h Hw Hinc; cbn [delete_all].
  { unfold ret. eexists _, _. split; [reflexivity|]. split; [done|].
    split; [apply framed_refl|]. split; [done|].
    cbn. by rewrite Nat.sub_diag, Z.add_0_r. }
  destruct (irt_delete_one_dimension irt am v cache e d nds h HD Hw Hinc)
    as (d1 & h1 & Hdel & Hw1 & Hf1 & Hcount).
  unfold bind at 1. rewrite Hdel.
  destruct (IH d1 _ h1 Hw1 (remove_by_increasing _ _ _ Hinc))
    as (d2 & h2 & Hall & Hw2 & Hf2 & Hle & Heq).
  eexists _, _. split; [exact Hall|]. split; [exact Hw2|].
  split; [by eapply framed_trans|].
  change (remove_all 1 (e :: es) nds)
    with (remove_all 1 es (remove_by value (ValueAtDimension e 1) nds)).
  destruct Hcount as [[-> Hl]|[-> Hl]].
  - split; [lia|]. rewrite Heq. unfold wrap64.
    rewrite Zplus_mod_idemp_l. f_equal. lia.
  - split; [lia|]. rewrite Heq, Hl. done.
Qed.

Lemma Delete_one_dimension_nodes irt es (h : heap) nds :
  dimensions irt = 1 ->
  holds irt h nds ->
  increasing (value <$> nds) ->
  exists t' h',
    Delete irt es h = Some (t', h')
    /\ dimensions t' = 1
    /\ holds t' h' (remove_all 1 es nds)
    /\ extends h h'
    /\ length (remove_all 1 es nds) <= length nds
    /\ Len t'
       = wrap64 (number irt
                 - Z.of_nat (length nds - length (remove_all 1 es nds))).
Proof.
  intros HD (cells & Hes & Hd) Hinc. unfold Delete. rewrite HD. cbn [newCache].
  unfold bind at 1. rewrite (clone_spec _ _ _ Hes).
  unfold bind at 1. unfold new_var at 1. cbn [h_vars h_nodes h_arrays].
  set (t := Slice _ _ _). set (h2 := Heap _ _ _).
  pose proof (elems_length _ _ _ Hes) as Hlen.
  destruct (delete_all_one_dimension irt (length (h_arrays h))
              (length (h_vars h)) (replicate 1 []) es 0 nds h2 HD)
    as (deleted & h3 & Hall & Hw & Hf & Hle & Heq).
  { exists t, cells. unfold h2, t. cbn [h_vars h_arrays s_arr s_len s_cap].
    rewrite !lookup_app_r, !Nat.sub_diag by done.
    split; [done|]. split; [done|]. split; [done|]. split; [lia|].
    split; [lia|].
    rewrite take_ge by lia. by apply (Forall2_deref_same_nodes _ _ h). }
  { done. }
  unfold bind at 1. rewrite Hall.
  destruct Hw as (s & cells' & Hv & Ha & Hcap & Hsl & Ham & Hd').
  unfold bind, lift, ret. cbn [load]. rewrite Hv.
  eexists _, _. split; [reflexivity|]. cbn [dimensions top].
  split; [done|]. split.
  { exists (take (s_len s) cells'). split; [|done].
    apply elems_working; [done | lia]. }
  destruct Hf as (Hn & Hvl & Hvs & Has & Hal). split.
  { repeat split.
    - exact Hn.
    - apply (prefix_agree _ (h_arrays h2)); [by apply prefix_app_r | exact Has].
    - apply (prefix_agree _ (h_vars h2)); [by apply prefix_app_r|].
      intros x Hx. apply Hvs. lia. }
  split; [done|]. unfold Len. cbn [number]. unfold wrap64 in *.
  rewrite <- Zminus_mod_idemp_r, Heq, Zminus_mod_idemp_r. done.
Qed.

(** *** From the nodes of the top list to the observers *)

Lemma sorted_tree_holds irt (h : heap) :
  sorted_tree irt h = Some true ->
  exists nds, holds irt h nds /\ increasing (value <$> nds).
Proof.
  intros Hs. destruct (sorted_elim _ _ _ _ _ Hs) as (es & nds & He & Hd & Hi & _).
  exists nds. split; [by exists es | done].
Qed.

Lemma concat_singletons {X Y} (f : X -> Y) (l : list X) :
  concat (map (fun x => [f x]) l) = f <$> l.
Proof. induction l as [|x l IH]; [done|]. cbn. by rewrite IH. Qed.

Lemma holds_sorted irt (h : heap) nds :
  dimensions irt = 1 -> holds irt h nds -> increasing (value <$> nds) ->
  sorted_tree irt h = Some true.
Proof.
  intros HD (cells & Hes & Hd) Hinc. unfold sorted_tree.
  rewrite sorted_unfold, HD. cbn [isLastDimension Nat.leb].
  unfold bindR at 1. rewrite Hes. unfold bindR at 1.
  rewrite (collect_intro _ cells h nds (map (fun nd => [value nd]) nds) Hd);
    [|by apply Forall2_map_r].
  unfold bindR at 1.
  rewrite (collect_intro _ cells h nds (map (fun nd => [true]) nds) Hd);
    [|by apply Forall2_map_r].
  unfold retR. f_equal. rewrite !concat_singletons.
  rewrite (increasing_ascending _ Hinc). cbn [andb].
  clear. induction nds as [|nd nds IH]; [done|]. done.
Qed.

(** The key and the entry of a node. *)
Definition item_of (nd : node) : Z * option Entry := (value nd, entry nd).

Lemma holds_leaves irt (h : heap) nds :
  dimensions irt = 1 -> holds irt h nds ->
  all_leaves irt h = Some (leaf_of <$> (item_of <$> nds)).
Proof.
  intros HD (cells & Hes & Hd). unfold all_leaves.
  rewrite leaves_unfold, HD. cbn [isLastDimension Nat.leb].
  unfold bindR at 1. rewrite Hes.
  rewrite (collect_intro _ cells h nds
             (map (fun nd => [([value nd], entry nd)]) nds) Hd);
    [|by apply Forall2_map_r].
  f_equal. rewrite concat_singletons. by rewrite <- list_fmap_compose.
Qed.

Lemma holds_contains irt (h : heap) nds e :
  dimensions irt = 1 -> holds irt h nds ->
  contains_tuple irt e h
  = Some (existsb (fun nd => (value nd =? ValueAtDimension e 1)%Z) nds).
Proof.
  intros HD (cells & Hes & Hd). unfold contains_tuple.
  rewrite contains_unfold, HD. cbn [isLastDimension Nat.leb].
  unfold bindR at 1. rewrite Hes. unfold bindR at 1.
  rewrite (collect_intro _ cells h nds
             (map (fun nd => [(value nd =? ValueAtDimension e 1)%Z]) nds) Hd).
  - unfold retR. f_equal. rewrite concat_singletons.
    clear. induction nds as [|nd nds IH]; [done|]. cbn. by rewrite IH.
  - apply Forall2_map_r. intros nd _.
    by destruct (value nd =? ValueAtDimension e 1)%Z.
Qed.

(** *** The items of a tree of one dimension *)

Lemma upsert_by_fmap {X Y} (key : X -> Z) (key' : Y -> Z) (f : X -> Y) x l :
  (forall y, key' (f y) = key y) ->
  f <$> upsert_by key x l = upsert_by key' (f x) (f <$> l).
Proof.
  intros Hk. induction l as [|y rest IH]; [done|].
  cbn [upsert_by fmap list_fmap]. rewrite !Hk.
  destruct (key x <? key y)%Z; [done|].
  destruct (key x =? key y)%Z; [done|]. cbn. by rewrite <- IH.
Qed.

Lemma remove_by_fmap {X Y} (key : X -> Z) (key' : Y -> Z) (f : X -> Y) k l :
  (forall y, key' (f y) = key y) ->
  f <$> remove_by key k l = remove_by key' k (f <$> l).
Proof.
  intros Hk. induction l as [|y rest IH]; [done|].
  cbn [remove_by fmap list_fmap]. rewrite !Hk.
  destruct (k =? key y)%Z; [done|]. cbn. by rewrite <- IH.
Qed.

Lemma item_of_upsert_all d es nds :
  item_of <$> upsert_all d es nds = put_all d es (item_of <$> nds).
Proof.
  revert nds. induction es as [|e es IH]; intros nds; [done|].
  change (upsert_all d (e :: es) nds)
    with (upsert_all d es (upsert_by value (leaf_node d e) nds)).
  change (put_all d (e :: es) (item_of <$> nds))
    with (put_all d es (put d e (item_of <$> nds))).
  rewrite IH. f_equal. by apply (upsert_by_fmap value fst item_of).
Qed.

Lemma item_of_remove_all d es nds :
  item_of <$> remove_all d es nds = take_out_all d es (item_of <$> nds).
Proof.
  revert nds. induction es as [|e es IH]; intros nds; [done|].
  change (remove_all d (e :: es) nds)
    with (remove_all d es (remove_by value (ValueAtDimension e d) nds)).
  change (take_out_all d (e :: es) (item_of <$> nds))
    with (take_out_all d es (take_out d e (item_of <$> nds))).
  rewrite IH. f_equal. by apply (remove_by_fmap value fst item_of).
Qed.

Lemma wrap64_range z : (0 <= wrap64 z < 2 ^ 64)%Z.
Proof. unfold wrap64. apply Z.mod_pos_bound. lia. Qed.

(** [Add] on a sorted tree of one dimension, in terms of its items. *)
Lemma Add_one_dimension_items irt es (h : heap) nds :
  dimensions irt = 1 ->
  (0 <= number irt < 2 ^ 64)%Z ->
  holds irt h nds ->
  increasing (value <$> nds) ->
  exists t' h' nds',
    Add irt es h = Some (t', h')
    /\ dimensions t' = 1
    /\ (0 <= number t' < 2 ^ 64)%Z
    /\ holds t' h' nds'
    /\ increasing (value <$> nds')
    /\ item_of <$> nds' = put_all 1 es (item_of <$> nds)
    /\ extends h h'
    /\ length nds <= length nds'
    /\ Len t' = wrap64 (Len irt + Z.of_nat (length nds' - length nds)).
Proof.
  intros HD Hn Hh Hinc. destruct es as [|e es].
  { exists irt, h, nds. repeat split; try done; try lia.
    rewrite Nat.sub_diag, Z.add_0_r. unfold Len, wrap64.
    symmetry. apply Z.mod_small. lia. }
  destruct (Add_one_dimension_nodes irt e es h nds HD Hh Hinc)
    as (t' & h' & Hadd & HD' & Hh' & Hext & Hle & Hlen).
  exists t', h', (upsert_all 1 (e :: es) nds).
  split; [done|]. split; [done|]. split.
  { unfold Len in Hlen. rewrite Hlen. apply wrap64_range. }
  split; [done|]. split; [by apply upsert_all_increasing|].
  split; [apply item_of_upsert_all|]. split; [done|]. by split.
Qed.

(** [Delete] on a sorted tree of one dimension, in terms of its items. *)
Lemma Delete_one_dimension_items irt es (h : heap) nds :
  dimensions irt = 1 ->
  holds irt h nds ->
  increasing (value <$> nds) ->
  exists t' h' nds',
    Delete irt es h = Some (t', h')
    /\ dimensions t' = 1
    /\ (0 <= number t' < 2 ^ 64)%Z
    /\ holds t' h' nds'
    /\ increasing (value <$> nds')
    /\ item_of <$> nds' = take_out_all 1 es (item_of <$> nds)
    /\ extends h h'
    /\ length nds' <= length nds
    /\ Len t' = wrap64 (Len irt - Z.of_nat (length nds - length nds')).
Proof.
  intros HD Hh Hinc.
  destruct (Delete_one_dimension_nodes irt es h nds HD Hh Hinc)
    as (t' & h' & Hdel & HD' & Hh' & Hext & Hle & Hlen).
  exists t', h', (remove_all 1 es nds).
  split; [done|]. split; [done|]. split.
  { unfold Len in Hlen. rewrite Hlen. apply wrap64_range. }
  split; [done|]. split; [by apply remove_all_increasing|].
  split; [apply item_of_remove_all|]. split; [done|]. by split.
Qed.

(** X10.  [Add] in one dimension.  On a sorted tree of one dimension
    [Add] returns a sorted tree whose leaves are the old leaves with
    every entry of the batch, in turn, inserted at its sorted position or
    put in the place of the leaf of equal coordinate; the length grows by
    the number of leaves gained, in [uint64] arithmetic. *)
Theorem Add_in_one_dimension irt es (h : heap) :
  dimensions irt = 1 ->
  (0 <= number irt < 2 ^ 64)%Z ->
  sorted_tree irt h = Some true ->
  exists kvs t' h',
    all_leaves irt h = Some (leaf_of <$> kvs)
    /\ Add irt es h = Some (t', h')
    /\ sorted_tree t' h' = Some true
    /\ all_leaves t' h' = Some (leaf_of <$> put_all 1 es kvs)
    /\ Len t'
       = wrap64 (Len irt + Z.of_nat (length (put_all 1 es kvs) - length kvs)).
Proof.
  intros HD Hn Hs. destruct (sorted_tree_holds _ _ Hs) as (nds & Hh & Hinc).
  destruct (Add_one_dimension_items irt es h nds HD Hn Hh Hinc)
    as (t' & h' & nds' & Hadd & HD' & _ & Hh' & Hinc' & Hitems & _ & _ & Hlen).
  exists (item_of <$> nds), t', h'.
  split; [by apply holds_leaves|]. split; [done|].
  split; [by eapply holds_sorted|]. split.
  - rewrite <- Hitems. by apply holds_leaves.
  - by rewrite <- Hitems, !length_fmap.
Qed.

(** X11.  In one dimension [Add] is immutable: whatever [Query] answered
    on any tree before a call of [Add] on a sorted tree of one dimension,
    it answers after it. *)
Theorem Add_in_one_dimension_keeps_older_trees irt es t' (h h' : heap)
    older I r :
  dimensions irt = 1 ->
  sorted_tree irt h = Some true ->
  Add irt es h = Some (t', h') ->
  Query older I h = Some r ->
  Query older I h' = Some r.
Proof.
  intros HD Hs Hadd Hq. destruct es as [|e es].
  { injection Hadd as <- <-. done. }
  destruct (sorted_tree_holds _ _ Hs) as (nds & Hh & Hinc).
  destruct (Add_one_dimension_nodes irt e es h nds HD Hh Hinc)
    as (t1 & h1 & Hadd1 & _ & _ & Hext & _).
  rewrite Hadd in Hadd1. injection Hadd1 as <- <-.
  by eapply mono_Query.
Qed.

(** X12.  [Delete] in one dimension.  On a sorted tree of one dimension
    [Delete] returns a sorted tree whose leaves are the old leaves
    without those whose coordinate is the coordinate of an entry of the
    batch; the length shrinks by the number of leaves lost, in [uint64]
    arithmetic. *)
Theorem Delete_in_one_dimension irt es (h : heap) :
  dimensions irt = 1 ->
  sorted_tree irt h = Some true ->
  exists kvs t' h',
    all_leaves irt h = Some (leaf_of <$> kvs)
    /\ Delete irt es h = Some (t', h')
    /\ sorted_tree t' h' = Some true
    /\ all_leaves t' h' = Some (leaf_of <$> take_out_all 1 es kvs)
    /\ Len t'
       = wrap64 (Len irt
                 - Z.of_nat (length kvs - length (take_out_all 1 es kvs))).
Proof.
  intros HD Hs. destruct (sorted_tree_holds _ _ Hs) as (nds & Hh & Hinc).
  destruct (Delete_one_dimension_items irt es h nds HD Hh Hinc)
    as (t' & h' & nds' & Hdel & HD' & _ & Hh' & Hinc' & Hitems & _ & _ & Hlen).
  exists (item_of <$> nds), t', h'.
  split; [by apply holds_leaves|]. split; [done|].
  split; [by eapply holds_sorted|]. split.
  - rewrite <- Hitems. by apply holds_leaves.
  - by rewrite <- Hitems, !length_fmap.
Qed.

(** *** How the operations compose in one dimension *)

Lemma remove_upsert {X} (key : X -> Z) x l :
  Forall (fun y => key y <> key x) l ->
  remove_by key (key x) (upsert_by key x l) = l
  /\ length (upsert_by key x l) = S (length l).
Proof.
  induction 1 as [|y rest Hy _ [IH1 IH2]]; cbn [upsert_by remove_by].
  { by rewrite Z.eqb_refl. }
  destruct (key x <? key y)%Z.
  { cbn [remove_by]. by rewrite Z.eqb_refl. }
  replace (key x =? key y)%Z with false by (symmetry; apply Z.eqb_neq; lia).
  cbn [remove_by length].
  replace (key x =? key y)%Z with false by (symmetry; apply Z.eqb_neq; lia).
  by rewrite IH1, IH2.
Qed.

Lemma upsert_upsert {X} (key : X -> Z) x x' l :
  key x = key x' ->
  upsert_by key x' (upsert_by key x l) = upsert_by key x' l
  /\ length (upsert_by key x' l) = length (upsert_by key x l).
Proof.
  intros Hk. induction l as [|y rest [IH1 IH2]]; cbn [upsert_by].
  { rewrite <- Hk, Z.ltb_irrefl, Z.eqb_refl. done. }
  rewrite <- Hk. destruct (key x <? key y)%Z eqn:E1.
  { cbn [upsert_by]. rewrite <- Hk, Z.ltb_irrefl, Z.eqb_refl. done. }
  destruct (key x =? key y)%Z eqn:E2.
  { cbn [upsert_by]. rewrite <- Hk, Z.ltb_irrefl, Z.eqb_refl. done. }
  cbn [upsert_by length]. rewrite <- Hk, E1, E2. by rewrite IH1, IH2.
Qed.

Lemma upsert_by_in {X} (key : X -> Z) x l : x ∈ upsert_by key x l.
Proof.
  induction l as [|y rest IH]; cbn [upsert_by]; [left|].
  destruct (key x <? key y)%Z; [left|].
  destruct (key x =? key y)%Z; [left | by right].
Qed.

(** The query of a single coordinate on the leaves of a sorted list
    holding that coordinate. *)
Lemma selected_point I k v (kvs : list (Z * option Entry)) :
  Sorted.StronglySorted Z.lt (fst <$> kvs) ->
  (k, v) ∈ kvs ->
  LowAtDimension I 1 = k -> HighAtDimension I 1 = k ->
  selected I 1 (leaf_of <$> kvs) = [v].
Proof.
  intros Hs Hin Hl Hh. unfold selected.
  induction kvs as [|[k' v'] rest IH]; [by apply elem_of_nil in Hin|].
  change (Sorted.StronglySorted Z.lt (k' :: (fst <$> rest))) in Hs.
  apply sorting.StronglySorted_cons in Hs as [Hall Hrest].
  cbn [fmap list_fmap List.filter leaf_of fst snd in_range].
  rewrite Hl, Hh, andb_true_r.
  rewrite Forall_fmap, Forall_forall in Hall.
  apply elem_of_cons in Hin as [[= <- <-]|Hin].
  - rewrite !Z.leb_refl. cbn [andb map snd]. f_equal.
    clear IH. induction rest as [|[k2 v2] rest IH2]; [done|].
    cbn [fmap list_fmap List.filter leaf_of fst snd in_range].
    rewrite Hl, Hh, andb_true_r.
    pose proof (Hall (k2, v2) (or_introl eq_refl)) as Hk2. cbn in Hk2.
    replace (k2 <=? k)%Z with false by (symmetry; apply Z.leb_gt; lia).
    rewrite andb_false_r. apply IH2.
    + intros x Hx. apply Hall. by right.
    + change (Sorted.StronglySorted Z.lt (k2 :: (fst <$> rest))) in Hrest.
      by apply sorting.StronglySorted_cons in Hrest as [_ ?].
  - pose proof (Hall (k, v) (proj1 (list_elem_of_In _ _) Hin)) as Hk.
    cbn in Hk.
    replace (k <=? k')%Z with false by (symmetry; apply Z.leb_gt; lia).
    cbn [andb]. by apply IH.
Qed.

Lemma same_leaves_same_Query t t' I (h h' : heap) :
  sorted_tree t h = Some true ->
  sorted_tree t' h' = Some true ->
  all_leaves t h = all_leaves t' h' ->
  exists r, Query t I h = Some r /\ Query t' I h' = Some r.
Proof.
  intros Hs Hs' Heq.
  destruct (Query_selects t I h Hs) as (ls & Hls & HQ).
  destruct (Query_selects t' I h' Hs') as (ls' & Hls' & HQ').
  rewrite Hls, Hls' in Heq. injection Heq as <-. by exists (selected I 1 ls).
Qed.

Lemma absent_items irt (h : heap) nds e :
  dimensions irt = 1 -> holds irt h nds ->
  contains_tuple irt e h = Some false ->
  Forall (fun kv => fst kv <> ValueAtDimension e 1) (item_of <$> nds).
Proof.
  intros HD Hh. rewrite (holds_contains _ _ _ _ HD Hh). intros [= Hex].
  apply Forall_fmap, Forall_forall. intros nd Hin. cbn.
  intros Heq. apply not_true_iff_false in Hex. apply Hex.
  apply existsb_exists. exists nd. split; [done | by apply Z.eqb_eq].
Qed.

(** X13.  [Add] then [Delete] in one dimension: adding an entry whose
    coordinate a sorted tree of one dimension does not hold and deleting
    it again gives a tree with the old length, the old leaves and the old
    answer to every query. *)
Theorem Add_then_Delete_in_one_dimension irt e (h : heap) :
  dimensions irt = 1 ->
  (0 <= number irt < 2 ^ 64)%Z ->
  sorted_tree irt h = Some true ->
  contains_tuple irt e h = Some false ->
  exists t1 h1 t2 h2,
    Add irt [e] h = Some (t1, h1)
    /\ Delete t1 [e] h1 = Some (t2, h2)
    /\ Len t2 = Len irt
    /\ all_leaves t2 h2 = all_leaves irt h
    /\ forall I, exists r, Query t2 I h2 = Some r /\ Query irt I h = Some r.
Proof.
  intros HD Hn Hs Habs. destruct (sorted_tree_holds _ _ Hs) as (nds & Hh & Hinc).
  pose proof (absent_items _ _ _ _ HD Hh Habs) as Hfresh.
  destruct (Add_one_dimension_items irt [e] h nds HD Hn Hh Hinc)
    as (t1 & h1 & nds1 & Hadd & HD1 & Hn1 & Hh1 & Hinc1 & Hi1 & _ & _ & Hlen1).
  destruct (Delete_one_dimension_items t1 [e] h1 nds1 HD1 Hh1 Hinc1)
    as (t2 & h2 & nds2 & Hdel & HD2 & _ & Hh2 & Hinc2 & Hi2 & _ & _ & Hlen2).
  destruct (remove_upsert fst (ValueAtDimension e 1, Some e) (item_of <$> nds))
    as [Hback Hgrow]; [done|].
  cbn [put_all take_out_all fold_left] in Hi1, Hi2. unfold put in Hi1.
  unfold take_out in Hi2. rewrite Hi1 in Hi2. cbn [fst] in Hback.
  rewrite Hback in Hi2.
  assert (Hl1 : length nds1 = S (length nds)).
  { rewrite <- (length_fmap item_of nds1), Hi1, Hgrow. by rewrite length_fmap. }
  assert (Hl2 : length nds2 = length nds).
  { by rewrite <- (length_fmap item_of nds2), Hi2, length_fmap. }
  assert (Hleaves : all_leaves t2 h2 = all_leaves irt h).
  { rewrite (holds_leaves _ _ _ HD2 Hh2), (holds_leaves _ _ _ HD Hh).
    by rewrite Hi2. }
  exists t1, h1, t2, h2. split; [done|]. split; [done|]. split; [|split].
  - rewrite Hlen2, Hlen1, Hl1, Hl2. unfold Len, wrap64.
    replace (S (length nds) - length nds) with 1 by lia.
    rewrite Zminus_mod_idemp_l.
    replace (number irt + Z.of_nat 1 - Z.of_nat 1)%Z with (number irt) by lia.
    apply Z.mod_small. lia.
  - done.
  - intros I. apply same_leaves_same_Query; [|done|done].
    by eapply holds_sorted.
Qed.

(** X14.  Overwrite in one dimension: adding to a sorted tree of one
    dimension an entry and then another entry of the same coordinate
    leaves the length as it was after the first call, gives the leaves
    that adding the second entry alone gives, and the query of that
    coordinate returns the second entry only. *)
Theorem Add_overwrites_in_one_dimension irt e e' (h : heap) :
  dimensions irt = 1 ->
  (0 <= number irt < 2 ^ 64)%Z ->
  sorted_tree irt h = Some true ->
  ValueAtDimension e 1 = ValueAtDimension e' 1 ->
  exists kvs t1 h1 t2 h2,
    all_leaves irt h = Some (leaf_of <$> kvs)
    /\ Add irt [e] h = Some (t1, h1)
    /\ Add t1 [e'] h1 = Some (t2, h2)
    /\ Len t2 = Len t1
    /\ all_leaves t2 h2 = Some (leaf_of <$> put 1 e' kvs)
    /\ forall I,
         LowAtDimension I 1 = ValueAtDimension e 1 ->
         HighAtDimension I 1 = ValueAtDimension e 1 ->
         Query t2 I h2 = Some [Some e'].
Proof.
  intros HD Hn Hs Hk. destruct (sorted_tree_holds _ _ Hs) as (nds & Hh & Hinc).
  destruct (Add_one_dimension_items irt [e] h nds HD Hn Hh Hinc)
    as (t1 & h1 & nds1 & Hadd & HD1 & Hn1 & Hh1 & Hinc1 & Hi1 & _ & _ & Hlen1).
  destruct (Add_one_dimension_items t1 [e'] h1 nds1 HD1 Hn1 Hh1 Hinc1)
    as (t2 & h2 & nds2 & Hadd2 & HD2 & _ & Hh2 & Hinc2 & Hi2 & _ & _ & Hlen2).
  destruct (upsert_upsert fst (ValueAtDimension e 1, Some e)
              (ValueAtDimension e' 1, Some e') (item_of <$> nds) Hk)
    as [Hsame Hsize].
  cbn [put_all fold_left] in Hi1, Hi2. unfold put in Hi1, Hi2.
  rewrite Hi1, Hsame in Hi2.
  assert (Hl : length nds2 = length nds1).
  { rewrite <- (length_fmap item_of nds2), <- (length_fmap item_of nds1).
    by rewrite Hi2, Hi1. }
  exists (item_of <$> nds), t1, h1, t2, h2.
  split; [by apply holds_leaves|]. split; [done|]. split; [done|].
  split; [|split].
  - rewrite Hlen2, Hl, Nat.sub_diag, Z.add_0_r. unfold Len, wrap64.
    apply Z.mod_small. lia.
  - rewrite (holds_leaves _ _ _ HD2 Hh2). by rewrite Hi2.
  - intros I Hlow Hhigh.
    destruct (Query_selects t2 I h2) as (ls & Hls & ->);
      [by eapply holds_sorted|].
    rewrite (holds_leaves _ _ _ HD2 Hh2) in Hls. injection Hls as <-.
    f_equal. apply (selected_point I (ValueAtDimension e' 1)).
    + rewrite <- list_fmap_compose. by apply increasing_strongly_sorted.
    + rewrite Hi2. apply (upsert_by_in fst).
    + congruence.
    + congruence.
Qed.

Lemma put_all_app d es1 es2 kvs :
  put_all d (es1 ++ es2) kvs = put_all d es2 (put_all d es1 kvs).
Proof. apply fold_left_app. Qed.

(** X15.  A batch and its parts in one dimension: on a sorted tree of
    one dimension, adding a batch in one call gives a tree of the same
    length, with the same leaves and the same answer to every query as
    adding a first part of the batch and then the rest in a second call. *)
Theorem batch_Add_in_one_dimension irt es1 es2 (h : heap) :
  dimensions irt = 1 ->
  (0 <= number irt < 2 ^ 64)%Z ->
  sorted_tree irt h = Some true ->
  exists t h1 ta ha tb hb,
    Add irt (es1 ++ es2) h = Some (t, h1)
    /\ Add irt es1 h = Some (ta, ha)
    /\ Add ta es2 ha = Some (tb, hb)
    /\ Len t = Len tb
    /\ (exists ls, all_leaves t h1 = Some ls /\ all_leaves tb hb = Some ls)
    /\ forall I, exists r, Query t I h1 = Some r /\ Query tb I hb = Some r.
Proof.
  intros HD Hn Hs. destruct (sorted_tree_holds _ _ Hs) as (nds & Hh & Hinc).
  destruct (Add_one_dimension_items irt (es1 ++ es2) h nds HD Hn Hh Hinc)
    as (t & h1 & nds1 & Hadd & HD1 & _ & Hh1 & Hinc1 & Hi1 & _ & Hle1 & Hlen1).
  destruct (Add_one_dimension_items irt es1 h nds HD Hn Hh Hinc)
    as (ta & ha & ndsa & Hadda & HDa & Hna & Hha & Hinca & Hia & _ & Hlea
        & Hlena).
  destruct (Add_one_dimension_items ta es2 ha ndsa HDa Hna Hha Hinca)
    as (tb & hb & ndsb & Haddb & HDb & _ & Hhb & Hincb & Hib & _ & Hleb
        & Hlenb).
  assert (Hitems : item_of <$> nds1 = item_of <$> ndsb).
  { by rewrite Hi1, Hib, Hia, put_all_app. }
  assert (Hl : length nds1 = length ndsb).
  { by rewrite <- (length_fmap item_of nds1), Hitems, length_fmap. }
  assert (Hleaves : all_leaves t h1 = all_leaves tb hb).
  { rewrite (holds_leaves _ _ _ HD1 Hh1), (holds_leaves _ _ _ HDb Hhb).
    by rewrite Hitems. }
  exists t, h1, ta, ha, tb, hb.
  split; [done|]. split; [done|]. split; [done|]. split; [|split].
  - rewrite Hlen1, Hlenb, Hlena, Hl. unfold Len, wrap64.
    rewrite Zplus_mod_idemp_l. f_equal. lia.
  - eexists. split; [by apply holds_leaves|].
    rewrite <- Hleaves. by apply holds_leaves.
  - intros I. apply same_leaves_same_Query; [by eapply holds_sorted| |done].
    by eapply holds_sorted.
Qed.

(** *** Every tree of one dimension the operations can build *)

Lemma selected_leaf_of I (kvs : list (Z * option Entry)) :
  selected I 1 (leaf_of <$> kvs) = items_within I kvs.
Proof.
  unfold selected, items_within. induction kvs as [|kv kvs IH]; [done|].
  cbn [fmap list_fmap List.filter leaf_of fst snd in_range].
  rewrite andb_true_r.
  destruct ((LowAtDimension I 1 <=? fst kv)%Z
            && (fst kv <=? HighAtDimension I 1)%Z); cbn [map]; by rewrite IH.
Qed.

Lemma calls_one_dimension cs irt (h : heap) nds :
  dimensions irt = 1 ->
  (0 <= number irt < 2 ^ 64)%Z ->
  holds irt h nds ->
  increasing (value <$> nds) ->
  Len irt = wrap64 (Z.of_nat (length nds)) ->
  exists t h' nds',
    calls irt cs h = Some (t, h')
    /\ dimensions t = 1
    /\ holds t h' nds'
    /\ increasing (value <$> nds')
    /\ item_of <$> nds' = items_after cs (item_of <$> nds)
    /\ Len t = wrap64 (Z.of_nat (length nds')).
Proof.
  revert irt h nds. induction cs as [|[es|es] cs IH];
    intros irt h nds HD Hn Hh Hinc Hlen; cbn [calls].
  - exists irt, h, nds. by repeat split.
  - destruct (Add_one_dimension_items irt es h nds HD Hn Hh Hinc)
      as (t1 & h1 & nds1 & Hadd & HD1 & Hn1 & Hh1 & Hinc1 & Hi1 & _ & Hle
          & Hlen1).
    unfold bind at 1. rewrite Hadd.
    destruct (IH t1 h1 nds1 HD1 Hn1 Hh1 Hinc1) as (t & h' & nds' & Hc & Hrest).
    { rewrite Hlen1, Hlen. unfold wrap64. rewrite Zplus_mod_idemp_l.
      f_equal. lia. }
    exists t, h', nds'. split; [done|].
    destruct Hrest as (? & ? & ? & Hi & ?). repeat split; try done.
    rewrite Hi, Hi1. done.
  - destruct (Delete_one_dimension_items irt es h nds HD Hh Hinc)
      as (t1 & h1 & nds1 & Hdel & HD1 & Hn1 & Hh1 & Hinc1 & Hi1 & _ & Hle
          & Hlen1).
    unfold bind at 1. rewrite Hdel.
    destruct (IH t1 h1 nds1 HD1 Hn1 Hh1 Hinc1) as (t & h' & nds' & Hc & Hrest).
    { rewrite Hlen1, Hlen. unfold wrap64. rewrite Zminus_mod_idemp_l.
      f_equal. lia. }
    exists t, h', nds'. split; [done|].
    destruct Hrest as (? & ? & ? & Hi & ?). repeat split; try done.
    rewrite Hi, Hi1. done.
Qed.

(** X16.  Trees of one dimension are kept right by every sequence of
    calls.  Starting from the new tree of one dimension, in any store,
    every sequence of calls of [Add] and [Delete] returns a tree that is
    sorted, whose leaves are the items the calls leave, in strictly
    ascending order of their coordinates, whose length is the number of
    its leaves (modulo 2^64), and from which [Query]
    returns, for every interval, the entries of exactly the items whose
    coordinate lies in the interval, in ascending order. *)
Theorem one_dimension_trees_are_consistent cs (h : heap) :
  exists t h',
    calls (NewImmutableRangeTree 1) cs h = Some (t, h')
    /\ sorted_tree t h' = Some true
    /\ Sorted.StronglySorted Z.lt (fst <$> items_after cs [])
    /\ all_leaves t h' = Some (leaf_of <$> items_after cs [])
    /\ Len t = wrap64 (Z.of_nat (length (items_after cs [])))
    /\ forall I, Query t I h' = Some (items_within I (items_after cs [])).
Proof.
  destruct (calls_one_dimension cs (NewImmutableRangeTree 1) h [])
    as (t & h' & nds & Hc & HD & Hh & Hinc & Hi & Hlen).
  { done. }
  { done. }
  { by exists []. }
  { by intros i j ? ? _ ?. }
  { done. }
  assert (Hs : sorted_tree t h' = Some true) by (by eapply holds_sorted).
  assert (Hl : all_leaves t h' = Some (leaf_of <$> items_after cs [])).
  { rewrite (holds_leaves _ _ _ HD Hh). by rewrite Hi. }
  exists t, h'. split; [done|]. split; [done|]. split; [|split; [done|split]].
  - change (items_after cs []) with (items_after cs (item_of <$> [])).
    rewrite <- Hi, <- list_fmap_compose. by apply increasing_strongly_sorted.
  - by rewrite Hlen, <- (length_fmap item_of nds), Hi.
  - intros I. destruct (Query_selects t I h' Hs) as (ls & Hls & ->).
    rewrite Hl in Hls. injection Hls as <-. by rewrite selected_leaf_of.
Qed.

(** ** Two dimensions: [Add] of one entry *)

Local Abbreviation list_getOrAdd := (list_getOrAdd ValueAtDimension).
Local Abbreviation put2 := (put2 ValueAtDimension).

Lemma working_more_arrays am v nds cells (h : heap) :
  working am h v nds ->
  working am (Heap (h_nodes h) (h_arrays h ++ [cells]) (h_vars h)) v nds.
Proof.
  intros (s & cs & Hv & Ha & Hcap & Hlen & Ham & Hd).
  exists s, cs. split; [done|]. split; [by apply lookup_app_l_Some|].
  split; [done|]. split; [done|]. split; [done|].
  by apply (Forall2_deref_same_nodes _ _ h).
Qed.

(** Fetch-or-insert on the working list, before the last dimension. *)
Lemma list_getOrAdd_spec am v e d D nds (h : heap) :
  working am h v nds ->
  increasing (value <$> nds) ->
  isLastDimension D d = false ->
  exists a fresh h' nd i,
    list_getOrAdd (SVar v) e d D h = Some ((a, fresh), h')
    /\ load_node a h' = Some nd
    /\ value nd = ValueAtDimension e d
    /\ working am h' v (upsert_by value nd nds)
    /\ upsert_by value nd nds !! i = Some nd
    /\ (forall s cells,
          h_vars h' !! v = Some s -> h_arrays h' !! s_arr s = Some cells ->
          cells !! i = Some (Some a) /\ i < s_len s)
    /\ framed am v h h'
    /\ (fresh = false -> h' = h /\ nds !! i = Some nd)
    /\ (fresh = true ->
        a = length (h_nodes h)
        /\ h_nodes h' = h_nodes h ++ [nd]
        /\ entry nd = None /\ s_len (orderedNodes nd) = 0
        /\ length (upsert_by value nd nds) = S (length nds)).
Proof.
  intros Hw Hinc Hlast.
  pose proof Hw as (s & cells & Hv & Ha & Hcap & Hlen & Ham & Hd).
  assert (Hlc : s_len s <= length cells) by lia.
  pose proof (lookup_lt_Some _ _ _ Hv) as Hvlt.
  pose proof (lookup_lt_Some _ _ _ Ha) as Halt.
  assert (Hnl : length (take (s_len s) cells) = length nds)
    by (by eapply Forall2_length).
  rewrite length_take_le in Hnl by done.
  destruct (list_search_split s cells nds (ValueAtDimension e d) h Ha Hlc Hd Hinc)
    as (i & Hi & Hile & Hlo & Hhi).
  unfold list_getOrAdd, bind at 1, lift at 1. cbn [load]. rewrite Hv.
  unfold bind at 1, lift at 1. rewrite Hi. rewrite Hlast. cbn [negb].
  (* the heap after [newNode], when a node is created *)
  set (nd := Node (ValueAtDimension e d) (@None Entry)
               (Slice (length (h_arrays h)) 0 0)).
  set (h1 := Heap (h_nodes h ++ [nd]) (h_arrays h ++ [[]]) (h_vars h)).
  assert (Hnew : newNode (ValueAtDimension e d) (Some e) true h
                 = Some (length (h_nodes h), h1)) by done.
  assert (Hw1 : working am h1 v nds).
  { apply (working_more_nodes am v nds nd
             (Heap (h_nodes h) (h_arrays h ++ [[]]) (h_vars h))).
    by apply working_more_arrays. }
  assert (Ha1 : h_arrays h1 !! s_arr s = Some cells)
    by (by apply lookup_app_l_Some).
  assert (Hd1 : Forall2 (fun c n => deref c h1 = Some n)
                  (take (s_len s) cells) nds).
  { destruct Hw1 as (s1 & c1 & Hv1 & Ha1' & _ & _ & _ & Hd1).
    cbn in Hv1. rewrite Hv in Hv1. injection Hv1 as <-.
    rewrite Ha1 in Ha1'. by injection Ha1' as <-. }
  assert (Hp1 : load_node (length (h_nodes h)) h1 = Some nd).
  { unfold load_node, h1. cbn. by rewrite lookup_app_r, Nat.sub_diag. }
  assert (Hf1 : framed am v h h1).
  { repeat split; cbn; try done.
    - by apply prefix_app_r.
    - intros a Hlt. apply lookup_app_l. lia.
    - rewrite length_app. cbn. lia. }
  pose proof (upsert_by_at value nd nds i Hlo Hhi) as Hup.
  destruct (i =? s_len s) eqn:Ei.
  - (* a new node at the end *)
    apply Nat.eqb_eq in Ei. subst i.
    unfold bind at 1. rewrite Hnew.
    destruct (append_spec s (Some (length (h_nodes h))) cells h1 Ha1 Hcap Hlen)
      as (s' & cells' & arrays' & Happ & Ha' & Hcap' & Hlen' & Hle' & Htake
          & Harr & Hal & Hbelow).
    unfold bind at 1. rewrite Happ. unfold bind, store, ret.
    cbn [h_vars h1]. replace (v <? length (h_vars h)) with true
      by (symmetry; by apply Nat.ltb_lt).
    rewrite (lookup_ge_None_2 nds (s_len s)) in Hup by lia.
    rewrite take_ge in Hup by lia.
    exists (length (h_nodes h)), true. eexists _, nd, (s_len s).
    split; [reflexivity|]. split; [exact Hp1|]. split; [done|].
    split; [|split; [|split; [|split; [|split]]]].
    + exists s', cells'. cbn [h_vars h_arrays h_nodes].
      rewrite list_lookup_insert_eq by done.
      repeat split; try done; [lia|].
      rewrite Hlen', Htake, Hup. apply Forall2_app.
      * by apply (Forall2_deref_same_nodes _ _ h1).
      * repeat constructor. exact Hp1.
    + rewrite Hup. rewrite lookup_app_r by lia.
      by rewrite Hnl, Nat.sub_diag.
    + cbn [h_vars h_arrays]. intros s2 cells2.
      rewrite list_lookup_insert_eq by done. intros [= <-] Hc2.
      rewrite Ha' in Hc2. injection Hc2 as <-. split; [|lia].
      assert (Hl : take (S (s_len s)) cells' !! s_len s
                   = Some (Some (length (h_nodes h)))).
      { rewrite Htake. rewrite lookup_app_r by (rewrite length_take; lia).
        rewrite length_take_le by done. by rewrite Nat.sub_diag. }
      by rewrite lookup_take_lt in Hl by lia.
    + apply (framed_trans _ _ h h1); [done|].
      repeat split; cbn [h_nodes h_vars h_arrays h1]; try done.
      * by rewrite length_insert.
      * intros x Hx. by apply list_lookup_insert_ne.
      * intros a Hlt. apply Hbelow. lia.
    + done.
    + intros _. split; [done|]. split; [done|]. split; [done|].
      split; [done|]. rewrite Hup, length_app. cbn. lia.
  - apply Nat.eqb_neq in Ei. assert (Hilt : i < s_len s) by lia.
    destruct (lookup_lt_is_Some_2 cells i) as [c Hc]; [lia|].
    assert (Hec : take (s_len s) cells !! i = Some c)
      by (by rewrite lookup_take_lt).
    destruct (Forall2_lookup_l _ _ _ _ _ Hd Hec) as (old & Hold & Hdc).
    unfold bind at 1, lift at 1, index, bindR.
    rewrite (elems_working _ _ _ Ha Hlc), Hec. unfold retR.
    unfold bind at 1, lift at 1. rewrite Hdc.
    destruct (value old =? ValueAtDimension e d)%Z eqn:Ev.
    + (* the node is there *)
      apply Z.eqb_eq in Ev.
      destruct (deref_Some _ _ _ Hdc) as (a & -> & Hla).
      assert (Hsame : upsert_by value old nds = nds).
      { rewrite (upsert_by_at value old nds i).
        - rewrite Hold, Z.eqb_refl. apply take_drop_middle. done.
        - intros j y Hj Hy. rewrite Ev. by eapply Hlo.
        - intros j y Hj Hy. rewrite Ev. by eapply Hhi. }
      exists a, false, h, old, i. unfold ret.
      split; [done|]. split; [done|]. split; [done|].
      rewrite Hsame. split; [done|]. split; [done|]. split.
      { intros s2 cells2 Hv2 Hc2. rewrite Hv in Hv2. injection Hv2 as <-.
        rewrite Ha in Hc2. injection Hc2 as <-. done. }
      split; [apply framed_refl|]. split; [done | done].
    + (* a new node in the middle *)
      apply Z.eqb_neq in Ev. rewrite Hold in Hup.
      replace (value old =? value nd)%Z with false in Hup
        by (symmetry; by apply Z.eqb_neq).
      unfold bind at 1. rewrite Hnew. unfold insert_at.
      destruct (append_spec s None cells h1 Ha1 Hcap Hlen)
        as (s' & cells' & arrays' & Happ & Ha' & Hcap' & Hlen' & Hle' & Htake
            & Harr & Hal & Hbelow).
      unfold bind at 1. unfold bind at 1. rewrite Happ.
      unfold bind at 1. unfold store.
      cbn [h_vars h1]. replace (v <? length (h_vars h)) with true
        by (symmetry; by apply Nat.ltb_lt).
      unfold bind at 1, lift at 1, load_array. cbn [h_arrays]. rewrite Ha'.
      pose proof (lookup_lt_Some _ _ _ Ha') as Halt'.
      rewrite store_array_spec by done. unfold ret.
      cbn [h_nodes h_arrays h_vars].
      assert (Hes : take (s_len s) cells' = take (s_len s) cells).
      { replace (take (s_len s) cells')
          with (take (s_len s) (take (S (s_len s)) cells'))
          by (rewrite take_take; f_equal; lia).
        rewrite Htake. apply take_app_length'. by rewrite length_take_le. }
      set (cells2 := take i cells' ++ _).
      assert (Hl2 : length cells2 = length cells').
      { unfold cells2. rewrite !length_app. cbn.
        rewrite !length_app, !length_take, !length_drop. lia. }
      assert (Ht2 : take (S (s_len s)) cells2
                    = take i (take (s_len s) cells)
                      ++ Some (length (h_nodes h))
                         :: drop i (take (s_len s) cells)).
      { unfold cells2.
        replace (S (s_len s)) with (i + S (s_len s - i)) by lia.
        rewrite take_app_add' by (rewrite length_take; lia). cbn [take].
        rewrite take_app_length' by (rewrite length_take, length_drop; lia).
        rewrite <- Hes. f_equal; [rewrite take_take; f_equal; lia|].
        f_equal. rewrite take_drop_commute. do 2 f_equal. lia. }
      exists (length (h_nodes h)), true. eexists _, nd, i.
      split; [reflexivity|]. split; [exact Hp1|]. split; [done|].
      split; [|split; [|split; [|split; [|split]]]].
      * exists s', cells2. cbn [h_vars h_arrays].
        rewrite !list_lookup_insert_eq by done.
        split; [done|]. split; [done|]. split; [lia|].
        split; [lia|]. split; [lia|].
        rewrite Hlen', Ht2, Hup.
        apply (Forall2_deref_same_nodes _ _ h1); [done|].
        apply Forall2_app; [by apply Forall2_take|].
        constructor; [exact Hp1 | by apply Forall2_drop].
      * rewrite Hup. rewrite lookup_app_r by (rewrite length_take; lia).
        rewrite length_take_le by lia. by rewrite Nat.sub_diag.
      * cbn [h_vars h_arrays]. intros s2 c2.
        rewrite list_lookup_insert_eq by done. intros [= <-].
        rewrite list_lookup_insert_eq by done. intros [= <-].
        split; [|lia].
        assert (Hl : take (S (s_len s)) cells2 !! i
                     = Some (Some (length (h_nodes h)))).
        { rewrite Ht2. rewrite lookup_app_r by (rewrite length_take; lia).
          rewrite length_take_le by (rewrite length_take; lia).
          by rewrite Nat.sub_diag. }
        by rewrite lookup_take_lt in Hl by lia.
      * apply (framed_trans _ _ h h1); [done|].
        repeat split; cbn [h_nodes h_vars h_arrays h1]; try done.
        -- by rewrite length_insert.
        -- intros x Hx. by apply list_lookup_insert_ne.
        -- intros a Hlt. rewrite list_lookup_insert_ne by lia.
           apply Hbelow. lia.
        -- rewrite length_insert. exact Hal.
      * done.
      * intros _. split; [done|]. split; [done|]. split; [done|].
        split; [done|]. rewrite Hup, length_app. cbn.
        rewrite length_take, length_drop. lia.
Qed.

(** *** Rows: the abstract content of a tree of two dimensions *)

(** The list [s] holds the items [kvs]. *)
Definition lists (h : heap) (s : slice) (kvs : list (Z * option Entry))
  : Prop :=
  exists cs,
    elems s h = Some cs
    /\ Forall2 (fun c kv => exists nd, deref c h = Some nd /\ item_of nd = kv)
         cs kvs.

(** The node [nd] stands for the row [kk]. *)
Definition row (h : heap) (nd : node) (kk : Z * list (Z * option Entry))
  : Prop :=
  value nd = fst kk /\ lists h (orderedNodes nd) (snd kk)
  /\ increasing (fst <$> snd kk).

Definition holds2 (irt : ImmutableRangeTree) (h : heap)
    (kvss : list (Z * list (Z * option Entry))) : Prop :=
  exists cells,
    elems (top irt) h = Some cells
    /\ Forall2 (fun c kk => exists nd, deref c h = Some nd /\ row h nd kk)
         cells kvss.

(** [h'] has the arrays of [h] and its nodes, up to their children
    lists. *)
Definition settled (h h' : heap) : Prop :=
  (forall x nd, h_nodes h !! x = Some nd ->
     exists nd', h_nodes h' !! x = Some nd' /\ item_of nd' = item_of nd)
  /\ (forall a cells, h_arrays h !! a = Some cells ->
        h_arrays h' !! a = Some cells).

Lemma settled_refl (h : heap) : settled h h.
Proof. split; [intros x nd ?; by exists nd | done]. Qed.

Lemma settled_trans (h1 h2 h3 : heap) :
  settled h1 h2 -> settled h2 h3 -> settled h1 h3.
Proof.
  intros [Hn Ha] [Hn' Ha']. split.
  - intros x nd Hx. destruct (Hn x nd Hx) as (nd' & Hx' & Hi).
    destruct (Hn' x nd' Hx') as (nd2 & Hx2 & Hi2). exists nd2.
    split; [done | congruence].
  - intros a cells Hc. by apply Ha', Ha.
Qed.

Lemma extends_settled (h h' : heap) : extends h h' -> settled h h'.
Proof.
  intros (Hn & Ha & _). split.
  - intros x nd Hx. exists nd. split; [by eapply prefix_lookup_Some | done].
  - intros a cells Hc. by eapply prefix_lookup_Some.
Qed.

Lemma elems_settled (h h' : heap) s cs :
  settled h h' -> elems s h = Some cs -> elems s h' = Some cs.
Proof.
  intros [_ Ha]. unfold elems, bindR, load_array.
  destruct (s_len s =? 0); [done|].
  destruct (h_arrays h !! s_arr s) as [cells|] eqn:Hc; [|done].
  rewrite (Ha _ _ Hc). by destruct (s_len s <=? length cells).
Qed.

Lemma lists_settled (h h' : heap) s kvs :
  settled h h' -> lists h s kvs -> lists h' s kvs.
Proof.
  intros Hs (cs & He & Hd). exists cs. split; [by eapply elems_settled|].
  destruct Hs as [Hn _]. clear He.
  induction Hd as [|c kv cs kvs (nd & Hc & Hi) _ IH]; [constructor|].
  constructor; [|done].
  destruct (deref_Some _ _ _ Hc) as (a & -> & Ha).
  destruct (Hn a nd Ha) as (nd' & Ha' & Hi'). exists nd'.
  split; [done | congruence].
Qed.

Lemma row_settled (h h' : heap) nd kk :
  settled h h' -> row h nd kk -> row h' nd kk.
Proof.
  intros Hs (Hv & Hl & Hi). split; [done|]. split; [|done].
  by eapply lists_settled.
Qed.

Lemma Forall2_split_exists {X Y W} (P : X -> Y -> Prop) (Q : Y -> W -> Prop)
    (l : list X) (k : list W) :
  Forall2 (fun x w => exists y, P x y /\ Q y w) l k ->
  exists m, Forall2 P l m /\ Forall2 Q m k.
Proof.
  induction 1 as [|x w l k (y & Hp & Hq) _ (m & IH1 & IH2)].
  - exists []. split; constructor.
  - exists (y :: m). split; by constructor.
Qed.

Lemma lists_nodes (h : heap) s kvs :
  lists h s kvs ->
  exists cs lnds,
    elems s h = Some cs
    /\ Forall2 (fun c nd => deref c h = Some nd) cs lnds
    /\ item_of <$> lnds = kvs.
Proof.
  intros (cs & He & Hd).
  destruct (Forall2_split_exists _ _ _ _ Hd) as (lnds & H1 & H2).
  exists cs, lnds. split; [done|]. split; [done|].
  clear -H2. induction H2 as [|nd kv lnds kvs Hi _ IH]; [done|].
  cbn. by rewrite Hi, IH.
Qed.

Lemma nodes_lists (h : heap) s cs lnds :
  elems s h = Some cs ->
  Forall2 (fun c nd => deref c h = Some nd) cs lnds ->
  lists h s (item_of <$> lnds).
Proof.
  intros He Hd. exists cs. split; [done|]. clear He.
  induction Hd as [|c nd cs lnds Hc _ IH]; [constructor|].
  constructor; [by exists nd | done].
Qed.

Lemma upsert_by_Forall2 {X Y} (R : X -> Y -> Prop) (key : X -> Z)
    (key' : Y -> Z) x y l k :
  (forall a b, R a b -> key a = key' b) ->
  R x y -> Forall2 R l k ->
  Forall2 R (upsert_by key x l) (upsert_by key' y k).
Proof.
  intros Hk Hxy Hlk. pose proof (Hk _ _ Hxy) as Hkx.
  induction Hlk as [|a b l k Hab Hrest IH]; cbn [upsert_by].
  { by repeat constructor. }
  rewrite <- (Hk _ _ Hab), <- Hkx.
  destruct (key x <? key a)%Z; [by repeat constructor|].
  destruct (key x =? key a)%Z; by constructor.
Qed.

Lemma upsert_by_insert {X} (key : X -> Z) x y l i :
  increasing (key <$> l) ->
  l !! i = Some y -> key y = key x ->
  upsert_by key x l = <[i:=x]> l.
Proof.
  intros Hinc Hy Hk. rewrite (upsert_by_at key x l i).
  - rewrite Hy, Hk, Z.eqb_refl. symmetry. apply insert_take_drop.
    by eapply lookup_lt_Some.
  - intros j z Hj Hz. rewrite <- Hk.
    apply (Hinc j i); [done| |]; by rewrite list_lookup_fmap, ?Hz, ?Hy.
  - intros j z Hj Hz. rewrite <- Hk.
    destruct (decide (i = j)) as [<-|Hne]; [rewrite Hy in Hz; by injection Hz as <-|].
    apply Z.lt_le_incl.
    apply (Hinc i j); [lia| |]; by rewrite list_lookup_fmap, ?Hz, ?Hy.
Qed.

Lemma children_of_at (kvss : list (Z * list (Z * option Entry))) i k kvs :
  increasing (fst <$> kvss) ->
  kvss !! i = Some (k, kvs) ->
  children_of k kvss = kvs.
Proof.
  unfold children_of. revert i. induction kvss as [|[k' kvs'] rest IH];
    intros i Hinc Hi; [done|].
  cbn [List.find fst]. destruct i as [|i].
  - injection Hi as -> ->. by rewrite Z.eqb_refl.
  - change (rest !! i = Some (k, kvs)) in Hi.
    assert (k' < k)%Z.
    { apply (Hinc 0 (S i)); [lia | done|].
      change ((fst <$> rest) !! i = Some (fst (k, kvs))).
      rewrite list_lookup_fmap. by rewrite Hi. }
    replace (k' =? k)%Z with false by (symmetry; apply Z.eqb_neq; lia).
    apply (IH i); [by eapply increasing_tail | done].
Qed.

Lemma children_of_absent (kvss : list (Z * list (Z * option Entry))) k :
  Forall (fun kk => fst kk <> k) kvss -> children_of k kvss = [].
Proof.
  unfold children_of. induction 1 as [|[k' kvs'] rest Hk _ IH]; [done|].
  cbn [List.find fst]. cbn in Hk.
  by replace (k' =? k)%Z with false by (symmetry; by apply Z.eqb_neq).
Qed.

Lemma values_of_items (lnds : list node) :
  value <$> lnds = fst <$> (item_of <$> lnds).
Proof. by rewrite <- list_fmap_compose. Qed.

(** The last iteration of [add] in two dimensions, below the node [a]
    whose value the cache does not hold: the children list is copied, the
    entry is put into the copy and the copy is given to the node. *)
Lemma add_last_two_dimensions irt a nd kvs c0 c1 e added (h : heap) :
  dimensions irt = 2 ->
  load_node a h = Some nd ->
  lists h (orderedNodes nd) kvs ->
  increasing (fst <$> kvs) ->
  Exists c1 (value nd) = false ->
  exists cache' added' s_new h',
    add_loop irt 1 2 (Some a) (SField a) [c0; c1] e added h
    = Some ((cache', added'), h')
    /\ h_nodes h'
       = <[a := Node (value nd) (entry nd) s_new]>
           (h_nodes h ++ [leaf_node 2 e])
    /\ lists h' s_new (put 2 e kvs)
    /\ h_vars h `prefix_of` h_vars h'
    /\ h_arrays h `prefix_of` h_arrays h'
    /\ (added' = wrap64 (added + 1) /\ length (put 2 e kvs) = S (length kvs)
        \/ added' = added /\ length (put 2 e kvs) = length kvs).
Proof.
  intros HD Hnd Hl Hinc Hex.
  destruct (lists_nodes _ _ _ Hl) as (cs & lnds & He & Hd & Hitems).
  pose proof (elems_length _ _ _ He) as Hlen.
  pose proof (lookup_lt_Some _ _ _ Hnd) as Halt.
  cbn [add_loop]. rewrite HD. cbn [isLastDimension Nat.leb].
  unfold add_clone. cbn [Nat.eqb Nat.sub lookup list_lookup].
  unfold bind at 1. unfold bind at 1. unfold lift at 1. cbn [deref].
  rewrite Hnd, Hex.
  unfold bind at 1, lift at 1. cbn [load]. unfold bindR at 1. rewrite Hnd.
  unfold retR at 1. unfold bind at 1. rewrite (clone_spec _ _ _ He).
  unfold bind at 1, new_var at 1. cbn [h_vars h_nodes h_arrays]. unfold ret at 1.
  set (tc := Slice (length (h_arrays h)) _ _).
  unfold bind at 1. unfold newNode, new_node. cbn [h_vars h_nodes h_arrays].
  set (hE := Heap (h_nodes h ++ [_]) (h_arrays h ++ [cs]) (h_vars h ++ [tc])).
  destruct (list_add_spec (length (h_arrays h)) (length (h_vars h))
              (length (h_nodes h)) (leaf_node 2 e) lnds hE)
    as (ov & hF & Hadd & Hw & Hn & Hf & Hov).
  { apply (working_more_nodes _ _ _ _
             (Heap (h_nodes h) (h_arrays h ++ [cs]) (h_vars h ++ [tc]))).
    exists tc, cs. unfold tc. cbn [h_vars h_arrays s_arr s_len s_cap].
    rewrite !lookup_app_r, !Nat.sub_diag by done.
    split; [done|]. split; [done|]. split; [done|]. split; [lia|].
    split; [lia|].
    rewrite take_ge by lia. by apply (Forall2_deref_same_nodes _ _ h). }
  { by rewrite values_of_items, Hitems. }
  { unfold load_node, hE. cbn. by rewrite lookup_app_r, Nat.sub_diag. }
  unfold bind at 1. rewrite Hadd.
  destruct Hw as (s' & cells' & Hv' & Ha' & Hcap' & Hle' & Ham' & Hd').
  assert (Hnda : h_nodes hF !! a = Some nd).
  { rewrite Hn. unfold hE. cbn. by apply lookup_app_l_Some. }
  unfold bind at 1. unfold link, bind at 1, lift at 1. cbn [load].
  rewrite Hv'. unfold store, bind at 1, lift at 1, load_node at 1.
  rewrite Hnda. unfold store_node.
  replace (a <? length (h_nodes hF)) with true
    by (symmetry; apply Nat.ltb_lt; by eapply lookup_lt_Some).
  unfold ret. eexists _, _, s', _. split; [reflexivity|].
  cbn [h_nodes h_vars h_arrays].
  destruct Hf as (_ & Hvl & Hvs & Has & Hal).
  assert (Hup : item_of <$> upsert_by value (leaf_node 2 e) lnds = put 2 e kvs).
  { unfold put. rewrite <- Hitems.
    by apply (upsert_by_fmap value fst item_of). }
  split; [by rewrite Hn|]. split; [|split; [|split]].
  - rewrite <- Hup.
    exists (take (s_len s') cells'). split.
    { apply elems_working; [done | lia]. }
    clear -Hd' Hnda. induction Hd' as [|c n cs ns Hc _ IH]; [constructor|].
    constructor; [|done].
    destruct (deref_Some _ _ _ Hc) as (b & -> & Hb). unfold load_node in Hb.
    cbn [deref]. unfold load_node. cbn [h_nodes].
    destruct (decide (b = a)) as [->|Hne].
    + rewrite list_lookup_insert_eq by (by eapply lookup_lt_Some).
      rewrite Hnda in Hb. injection Hb as <-. by eexists.
    + rewrite list_lookup_insert_ne by done. by exists n.
  - apply (prefix_agree _ (h_vars hE)); [by apply prefix_app_r|].
    intros x Hx. apply Hvs. lia.
  - apply (prefix_agree _ (h_arrays hE)); [by apply prefix_app_r | exact Has].
  - rewrite <- Hup, length_fmap, <- Hitems, length_fmap.
    destruct Hov as [[-> Hlen']|[[b ->] Hlen']]; [by left | by right].
Qed.

Lemma upsert_by_grows {X} (key : X -> Z) x l :
  increasing (key <$> l) ->
  length (upsert_by key x l) = S (length l) ->
  Forall (fun y => key y <> key x) l.
Proof.
  induction l as [|y rest IH]; intros Hinc Hlen; [constructor|].
  pose proof Hinc as Hss. apply increasing_strongly_sorted in Hss.
  change (Sorted.StronglySorted Z.lt (key y :: (key <$> rest))) in Hss.
  apply sorting.StronglySorted_cons in Hss as [Hy _].
  rewrite Forall_fmap in Hy. cbn [upsert_by] in Hlen.
  destruct (key x <? key y)%Z eqn:E1.
  { apply Z.ltb_lt in E1. constructor; [lia|].
    eapply Forall_impl; [|exact Hy]. intros z Hz. cbn in Hz. lia. }
  destruct (key x =? key y)%Z eqn:E2; [cbn in Hlen; lia|].
  apply Z.eqb_neq in E2. constructor; [lia|].
  apply IH; [by eapply increasing_tail|]. cbn in Hlen. lia.
Qed.

Lemma rows_values (h : heap) tnds kvss :
  Forall2 (row h) tnds kvss -> value <$> tnds = fst <$> kvss.
Proof.
  induction 1 as [|nd kk tnds kvss (Hv & _) _ IH]; [done|].
  cbn. by rewrite Hv, IH.
Qed.

Lemma increasing_lookup_inj vs i j x :
  increasing vs -> vs !! i = Some x -> vs !! j = Some x -> i = j.
Proof.
  intros Hinc Hi Hj. destruct (Nat.lt_trichotomy i j) as [Hlt|[->|Hlt]];
    [|done|].
  - pose proof (Hinc i j x x Hlt Hi Hj). lia.
  - pose proof (Hinc j i x x Hlt Hj Hi). lia.
Qed.

Lemma add_loop_unfold irt fuel i nd lst cache e added :
  add_loop irt (S fuel) i nd lst cache e added
  = (if isLastDimension (dimensions irt) i then
       let* (_, lst, cache) := add_clone i nd lst cache in
       let* nn := newNode (ValueAtDimension e i) (Some e) false in
       let* overwritten := list_add lst nn in
       let added :=
         match overwritten with
         | None => wrap64 (added + 1)
         | Some _ => added
         end in
       let* _ := match nd with Some _ => link nd lst | None => ret tt end in
       ret (cache, added)
     else
       let* (cloned, lst, cache) := add_clone i nd lst cache in
       let* _ := if cloned : bool then link nd lst else ret tt in
       let* (a, _) := list_getOrAdd lst e i (dimensions irt) in
       add_loop irt fuel (S i) (Some a) (SField a) cache e added).
Proof. reflexivity. Qed.

(** [Add] of one entry on a sorted tree of two dimensions, in terms of
    its rows. *)
Lemma Add_one_entry_two_dimensions irt e (h : heap) kvss :
  dimensions irt = 2 ->
  holds2 irt h kvss ->
  increasing (fst <$> kvss) ->
  exists t' h',
    Add irt [e] h = Some (t', h')
    /\ dimensions t' = 2
    /\ holds2 t' h' (put2 e kvss)
    /\ increasing (fst <$> put2 e kvss)
    /\ (Len t' = wrap64 (number irt + 1)
        /\ length (put 2 e (children_of (ValueAtDimension e 1) kvss))
           = S (length (children_of (ValueAtDimension e 1) kvss))
        \/ Len t' = wrap64 (number irt + 0)
           /\ length (put 2 e (children_of (ValueAtDimension e 1) kvss))
              = length (children_of (ValueAtDimension e 1) kvss)).
Proof.
  intros HD (cells & Hes & Hrows) Hinc.
  destruct (Forall2_split_exists _ _ _ _ Hrows) as (tnds & Hd & Hr).
  pose proof (rows_values _ _ _ Hr) as Hvals.
  pose proof (elems_length _ _ _ Hes) as Hlen.
  unfold Add. rewrite HD. cbn [newCache replicate].
  unfold bind at 1. rewrite (clone_spec _ _ _ Hes).
  unfold bind at 1, new_var at 1. cbn [h_vars h_nodes h_arrays].
  set (t := Slice _ _ _). set (hA := Heap _ _ _).
  assert (HextA : extends h hA).
  { repeat split; cbn; [done | by apply prefix_app_r | by apply prefix_app_r]. }
  cbn [add_all]. unfold irt_add. rewrite HD. rewrite add_loop_unfold, HD.
  cbn [isLastDimension Nat.leb]. unfold add_clone at 1. cbn [Nat.eqb].
  destruct (list_getOrAdd_spec (length (h_arrays h)) (length (h_vars h)) e 1 2
              tnds hA)
    as (a & fresh & hB & nd & i & Hget & Hnd & Hval & Hw & Hi & Hcell & Hf
        & Hold & Hnew).
  { exists t, cells. unfold hA, t. cbn [h_vars h_arrays s_arr s_len s_cap].
    rewrite !lookup_app_r, !Nat.sub_diag by done.
    split; [done|]. split; [done|]. split; [done|]. split; [lia|].
    split; [lia|].
    rewrite take_ge by lia. by apply (Forall2_deref_same_nodes _ _ h). }
  { by rewrite Hvals. }
  { done. }
  (* the store after the fetch keeps the rows of the old tree *)
  assert (HsB : settled h hB).
  { destruct Hf as (Hn & _ & _ & Ha & _). split.
    - intros x n Hx. exists n. split; [|done].
      eapply prefix_lookup_Some; [|exact Hn]. done.
    - intros x cs Hx. rewrite Ha by (by eapply lookup_lt_Some).
      unfold hA. cbn. by apply lookup_app_l_Some. }
  assert (Hr0 : Forall2 (row hB) tnds kvss).
  { eapply Forall2_strengthen; [exact Hr|]. intros n kk _ Hn.
    by eapply row_settled. }
  assert (Hchild :
    lists hB (orderedNodes nd) (children_of (ValueAtDimension e 1) kvss)
    /\ increasing (fst <$> children_of (ValueAtDimension e 1) kvss)
    /\ Forall2 (row hB) (upsert_by value nd tnds)
         (upsert_by fst
            (ValueAtDimension e 1, children_of (ValueAtDimension e 1) kvss)
            kvss)).
  { destruct fresh.
    - destruct (Hnew eq_refl) as (-> & HnB & Hent & Hsl & Hgrow).
      assert (Habs : Forall (fun kk => fst kk <> ValueAtDimension e 1) kvss).
      { apply (upsert_by_grows value nd tnds) in Hgrow; [|by rewrite Hvals].
        rewrite Hval in Hgrow. apply Forall_lookup. intros j kk Hj.
        destruct (Forall2_lookup_r _ _ _ _ _ Hr Hj) as (n & Hn & (Hv & _)).
        rewrite Forall_lookup in Hgrow. specialize (Hgrow j n Hn).
        congruence. }
      rewrite (children_of_absent _ _ Habs).
      assert (Hl0 : lists hB (orderedNodes nd) []).
      { exists []. split; [|constructor]. unfold elems. by rewrite Hsl. }
      split; [done|]. split; [by intros ? ? ? ? _ ?|].
      apply (upsert_by_Forall2 (row hB) value fst); [by intros ? ? [? _]| |done].
      split; [done|]. split; [done|]. by intros ? ? ? ? _ ?.
    - destruct (Hold eq_refl) as (-> & Hti).
      destruct (Forall2_lookup_l _ _ _ _ _ Hr0 Hti)
        as ([k kvs] & Hki & Hv & Hl & Hic).
      cbn [fst snd] in Hv, Hl, Hic.
      assert (k = ValueAtDimension e 1) as -> by congruence.
      rewrite (children_of_at _ _ _ _ Hinc Hki).
      split; [done|]. split; [done|].
      apply (upsert_by_Forall2 (row hA) value fst); [by intros ? ? [? _]| |done].
      by repeat split. }
  destruct Hchild as (Hlc & Hic & Hr1).
  destruct (add_last_two_dimensions irt a nd _ [] [] e 0 hB HD Hnd Hlc Hic
              eq_refl)
    as (cache' & added' & s_new & hG & Hloop & HnG & HlG & HvG & HaG & Hcount).
  unfold bind, ret, lift. rewrite Hget, Hloop.
  destruct Hw as (s1 & cells1 & Hv1 & Ha1 & Hcap1 & Hle1 & Ham1 & Hd1).
  destruct (Hcell s1 cells1 Hv1 Ha1) as [Hci Hilt].
  assert (HvG1 : h_vars hG !! length (h_vars h) = Some s1)
    by (by eapply prefix_lookup_Some).
  assert (HaG1 : h_arrays hG !! s_arr s1 = Some cells1)
    by (by eapply prefix_lookup_Some).
  pose proof (lookup_lt_Some _ _ _ Hnd) as Halt.
  cbn [load]. rewrite HvG1.
  eexists _, _. split; [reflexivity|]. cbn [dimensions top]. split; [done|].
  assert (HsG : settled hB hG).
  { split.
    - intros x n Hx. rewrite HnG. destruct (decide (x = a)) as [->|Hne].
      + rewrite list_lookup_insert_eq by (rewrite length_app; cbn; lia).
        eexists. split; [done|]. unfold load_node in Hnd.
        rewrite Hnd in Hx. by injection Hx as <-.
      + rewrite list_lookup_insert_ne by done. exists n.
        split; [by apply lookup_app_l_Some | done].
    - intros x cs Hx. by eapply prefix_lookup_Some. }
  set (k1 := ValueAtDimension e 1) in *.
  set (new := put 2 e (children_of k1 kvss)).
  set (kvss1 := upsert_by fst (k1, children_of k1 kvss) kvss) in *.
  assert (Hinc1 : increasing (fst <$> kvss1)) by (by apply upsert_by_increasing).
  assert (Hinct : increasing (value <$> upsert_by value nd tnds)).
  { apply upsert_by_increasing. by rewrite Hvals. }
  destruct (Forall2_lookup_l _ _ _ _ _ Hr1 Hi) as (kki & Hkki & Hrow_i).
  assert (Hput : put2 e kvss = <[i := (k1, new)]> kvss1).
  { unfold put2. fold k1. fold new.
    destruct (upsert_upsert fst (k1, children_of k1 kvss) (k1, new) kvss
                eq_refl) as [<- _].
    apply (upsert_by_insert fst _ kki); [done | done|].
    destruct Hrow_i as [<- _]. done. }
  split; [|split].
  - exists (take (s_len s1) cells1). split; [apply elems_working; [done|lia]|].
    rewrite Hput. apply Forall2_same_length_lookup. split.
    + rewrite length_insert.
      transitivity (length (upsert_by value nd tnds)); by eapply Forall2_length.
    + intros j c kk Hc Hkk.
      destruct (Forall2_lookup_l _ _ _ _ _ Hd1 Hc) as (nj & Hnj & Hdj).
      destruct (decide (j = i)) as [->|Hne].
      * rewrite list_lookup_insert_eq in Hkk by (by eapply lookup_lt_Some).
        injection Hkk as <-.
        rewrite lookup_take_lt in Hc by done. rewrite Hci in Hc.
        injection Hc as <-. eexists. split.
        { cbn [deref]. unfold load_node. rewrite HnG.
          apply list_lookup_insert_eq. rewrite length_app. cbn. lia. }
        split; [done|]. split; [exact HlG|].
        by apply upsert_by_increasing.
      * rewrite list_lookup_insert_ne in Hkk by done.
        pose proof (Forall2_lookup_lr _ _ _ _ _ _ Hr1 Hnj Hkk) as Hrow_j.
        exists nj. split; [|by eapply row_settled].
        destruct (deref_Some _ _ _ Hdj) as (b & -> & Hb).
        assert (b <> a).
        { intros ->. rewrite Hnd in Hb. injection Hb as <-.
          apply Hne.
          apply (increasing_lookup_inj (value <$> upsert_by value nd tnds)
                   j i (value nd)); [done| |]; by rewrite list_lookup_fmap,
            ?Hnj, ?Hi. }
        cbn [deref]. unfold load_node. rewrite HnG.
        rewrite list_lookup_insert_ne by done. by apply lookup_app_l_Some.
  - unfold put2. by apply upsert_by_increasing.
  - unfold Len. cbn [number]. fold new.
    destruct Hcount as [[-> Hl]|[-> Hl]]; [left | right]; (split; [|done]).
    + unfold wrap64. rewrite Zplus_mod_idemp_r. f_equal.
    + done.
Qed.

(** *** From the rows to the observers *)

Lemma sorted_last D fuel s d (h : heap) kvs :
  isLastDimension D d = true ->
  lists h s kvs -> increasing (fst <$> kvs) ->
  sorted D fuel s d h = Some true.
Proof.
  intros Hlast Hl Hinc.
  destruct (lists_nodes _ _ _ Hl) as (cs & lnds & He & Hd & Hitems).
  rewrite sorted_unfold, Hlast. unfold bindR at 1. rewrite He.
  unfold bindR at 1.
  rewrite (collect_intro _ cs h lnds (map (fun nd => [value nd]) lnds) Hd);
    [|by apply Forall2_map_r].
  unfold bindR at 1.
  rewrite (collect_intro _ cs h lnds (map (fun nd => [true]) lnds) Hd);
    [|by apply Forall2_map_r].
  unfold retR. f_equal. rewrite !concat_singletons.
  rewrite increasing_ascending by (by rewrite values_of_items, Hitems).
  cbn [andb]. clear. by induction lnds.
Qed.

Lemma leaves_last D fuel s d (h : heap) kvs :
  isLastDimension D d = true ->
  lists h s kvs ->
  leaves D fuel s d h = Some (leaf_of <$> kvs).
Proof.
  intros Hlast Hl.
  destruct (lists_nodes _ _ _ Hl) as (cs & lnds & He & Hd & Hitems).
  rewrite leaves_unfold, Hlast. unfold bindR at 1. rewrite He.
  rewrite (collect_intro _ cs h lnds
             (map (fun nd => [([value nd], entry nd)]) lnds) Hd);
    [|by apply Forall2_map_r].
  f_equal. rewrite concat_singletons, <- Hitems.
  by rewrite <- list_fmap_compose.
Qed.

Lemma holds2_nodes irt (h : heap) kvss :
  holds2 irt h kvss ->
  exists cells tnds,
    elems (top irt) h = Some cells
    /\ Forall2 (fun c nd => deref c h = Some nd) cells tnds
    /\ Forall2 (row h) tnds kvss.
Proof.
  intros (cells & Hes & Hrows).
  destruct (Forall2_split_exists _ _ _ _ Hrows) as (tnds & Hd & Hr).
  by exists cells, tnds.
Qed.

Lemma holds2_sorted irt (h : heap) kvss :
  dimensions irt = 2 -> holds2 irt h kvss -> increasing (fst <$> kvss) ->
  sorted_tree irt h = Some true.
Proof.
  intros HD Hh Hinc.
  destruct (holds2_nodes _ _ _ Hh) as (cells & tnds & Hes & Hd & Hr).
  unfold sorted_tree. rewrite sorted_unfold, HD.
  cbn [isLastDimension Nat.leb].
  unfold bindR at 1. rewrite Hes. unfold bindR at 1.
  rewrite (collect_intro _ cells h tnds (map (fun nd => [value nd]) tnds) Hd);
    [|by apply Forall2_map_r].
  unfold bindR at 1.
  rewrite (collect_intro _ cells h tnds (map (fun nd => [true]) tnds) Hd).
  - unfold retR. f_equal. rewrite !concat_singletons.
    rewrite increasing_ascending by (by rewrite (rows_values _ _ _ Hr)).
    cbn [andb]. clear. by induction tnds.
  - apply Forall2_map_r. intros nd Hin.
    apply list_elem_of_lookup in Hin as [j Hj].
    destruct (Forall2_lookup_l _ _ _ _ _ Hr Hj) as (kk & _ & _ & Hl & Hi).
    unfold bindR, retR.
    by rewrite (sorted_last 2 1 (orderedNodes nd) 2 h (snd kk)).
Qed.

Lemma holds2_leaves irt (h : heap) kvss :
  dimensions irt = 2 -> holds2 irt h kvss ->
  all_leaves irt h = Some (leaves2 kvss).
Proof.
  intros HD Hh.
  destruct (holds2_nodes _ _ _ Hh) as (cells & tnds & Hes & Hd & Hr).
  unfold all_leaves. rewrite leaves_unfold, HD.
  cbn [isLastDimension Nat.leb]. unfold bindR at 1. rewrite Hes.
  apply (collect_intro _ cells h tnds _ Hd).
  clear -Hr. induction Hr as [|nd kk tnds kvss (Hv & Hl & _) _ IH];
    cbn [map]; constructor; [|done].
  unfold bindR, retR.
  rewrite (leaves_last 2 1 (orderedNodes nd) 2 h (snd kk)) by done.
  f_equal. rewrite Hv. clear. induction (snd kk) as [|kv kvs IH]; [done|].
  cbn. by rewrite <- IH.
Qed.

Lemma Forall_exists_Forall2 {X Y} (P : X -> Y -> Prop) (l : list X) :
  Forall (fun x => exists y, P x y) l -> exists k, Forall2 P l k.
Proof.
  induction 1 as [|x l [y Hy] _ [k IH]].
  - exists []. constructor.
  - exists (y :: k). by constructor.
Qed.

Lemma sorted_tree_holds2 irt (h : heap) :
  dimensions irt = 2 ->
  sorted_tree irt h = Some true ->
  exists kvss, holds2 irt h kvss /\ increasing (fst <$> kvss).
Proof.
  intros HD Hs. unfold sorted_tree in Hs. rewrite HD in Hs.
  destruct (sorted_elim _ _ _ _ _ Hs) as (es & nds & He & Hd & Hinc & Hsub).
  destruct (Forall_exists_Forall2 (row h) nds) as [kvss Hr].
  { apply Forall_lookup. intros j nd Hj.
    destruct (Hsub eq_refl nd) as (f' & [= <-] & Hs');
      [by eapply list_elem_of_lookup_2|].
    destruct (sorted_elim _ _ _ _ _ Hs') as (es' & lnds & He' & Hd' & Hinc' & _).
    exists (value nd, item_of <$> lnds). split; [done|]. split.
    - by eapply nodes_lists.
    - cbn [snd]. by rewrite <- values_of_items. }
  exists kvss. split.
  - exists es. split; [done|].
    clear -Hd Hr. revert kvss Hr.
    induction Hd as [|c nd es nds Hc _ IH]; intros kvss Hr;
      inversion Hr as [|? kk ? kvss' Hk Hrest]; subst; constructor.
    + by exists nd.
    + by apply IH.
  - by rewrite <- (rows_values _ _ _ Hr).
Qed.

Local Abbreviation adds := (adds ValueAtDimension).
Local Abbreviation rows_after := (rows_after ValueAtDimension).

Lemma leaves2_cons kk (kvss : list (Z * list (Z * option Entry))) :
  length (leaves2 (Entry:=Entry) (kk :: kvss))
  = length (snd kk) + length (leaves2 kvss).
Proof. unfold leaves2. cbn [map concat]. by rewrite length_app, length_map. Qed.

Lemma leaves2_length_upsert k c (kvss : list (Z * list (Z * option Entry))) :
  increasing (fst <$> kvss) ->
  length (leaves2 (upsert_by fst (k, c) kvss)) + length (children_of k kvss)
  = length (leaves2 kvss) + length c.
Proof.
  induction kvss as [|[k0 c0] rest IH]; intros Hinc.
  { cbn [upsert_by]. rewrite leaves2_cons. cbn. lia. }
  cbn [upsert_by fst]. unfold children_of. cbn [List.find fst].
  destruct (k <? k0)%Z eqn:E1.
  - apply Z.ltb_lt in E1.
    replace (k0 =? k)%Z with false by (symmetry; apply Z.eqb_neq; lia).
    fold (children_of k rest). rewrite children_of_absent.
    + rewrite !leaves2_cons. cbn. lia.
    + apply Forall_lookup. intros j kk Hj.
      assert (k0 < fst kk)%Z; [|lia].
      apply (Hinc 0 (S j)); [lia | done|].
      change ((fst <$> rest) !! j = Some (fst kk)).
      rewrite list_lookup_fmap. by rewrite Hj.
  - apply Z.ltb_ge in E1. destruct (k =? k0)%Z eqn:E2.
    + apply Z.eqb_eq in E2. subst k0. rewrite Z.eqb_refl.
      rewrite !leaves2_cons. cbn. lia.
    + apply Z.eqb_neq in E2.
      replace (k0 =? k)%Z with false by (symmetry; apply Z.eqb_neq; lia).
      fold (children_of k rest). rewrite !leaves2_cons. cbn [snd].
      pose proof (IH (increasing_tail _ _ Hinc)). lia.
Qed.

Lemma upsert_by_nonempty {X} (key : X -> Z) x l : upsert_by key x l <> [].
Proof.
  destruct l as [|y rest]; cbn [upsert_by]; [done|].
  destruct (key x <? key y)%Z; [done|]. by destruct (key x =? key y)%Z.
Qed.

Lemma put2_nonempty_rows e (kvss : list (Z * list (Z * option Entry))) :
  Forall (fun kk => snd kk <> []) kvss ->
  Forall (fun kk => snd kk <> []) (put2 e kvss).
Proof.
  intros Hall. apply Forall_forall. intros kk Hin%list_elem_of_In.
  apply upsert_by_elem in Hin as [->|Hin].
  - cbn [snd]. apply upsert_by_nonempty.
  - rewrite Forall_forall in Hall. apply Hall. by apply list_elem_of_In.
Qed.

Lemma holds2_children_nonempty irt (h : heap) kvss :
  dimensions irt = 2 -> holds2 irt h kvss ->
  Forall (fun kk => snd kk <> []) kvss ->
  all_children_nonempty irt h = Some true.
Proof.
  intros HD Hh Hall.
  destruct (holds2_nodes _ _ _ Hh) as (cells & tnds & Hes & Hd & Hr).
  unfold all_children_nonempty. rewrite HD. cbn [children_nonempty].
  cbn [isLastDimension Nat.leb]. unfold bindR at 1. rewrite Hes.
  unfold bindR at 1.
  rewrite (collect_intro _ cells h tnds (map (fun nd => [true]) tnds) Hd).
  - unfold retR. f_equal. rewrite concat_singletons. clear. by induction tnds.
  - apply Forall2_map_r. intros nd Hin.
    apply list_elem_of_lookup in Hin as [j Hj].
    destruct (Forall2_lookup_l _ _ _ _ _ Hr Hj) as (kk & Hkk & _ & Hl & _).
    rewrite Forall_lookup in Hall. pose proof (Hall j kk Hkk) as Hne.
    destruct Hl as (cs & He & Hf).
    pose proof (elems_length _ _ _ He) as Hlen.
    assert (length cs = length (snd kk)) by (by eapply Forall2_length).
    replace (s_len (orderedNodes nd) =? 0) with false; [done|].
    symmetry. apply Nat.eqb_neq. destruct (snd kk); [done | cbn in *; lia].
Qed.

(** X17.  [Add] of one entry in two dimensions builds the right tree.
    On a sorted tree of two dimensions, [Add] of one entry returns a
    sorted tree whose leaves are the old leaves with the entry put into
    the row of its first coordinate (a row created if it is missing), at
    the sorted position of its second coordinate or in the place of the
    leaf of the same coordinates; the length grows by the number of
    leaves gained, in [uint64] arithmetic. *)
Theorem Add_one_entry_in_two_dimensions irt e (h : heap) :
  dimensions irt = 2 ->
  sorted_tree irt h = Some true ->
  exists kvss t' h',
    all_leaves irt h = Some (leaves2 kvss)
    /\ Add irt [e] h = Some (t', h')
    /\ sorted_tree t' h' = Some true
    /\ all_leaves t' h' = Some (leaves2 (put2 e kvss))
    /\ Len t'
       = wrap64 (Len irt
                 + Z.of_nat (length (leaves2 (put2 e kvss))
                             - length (leaves2 kvss))).
Proof.
  intros HD Hs. destruct (sorted_tree_holds2 _ _ HD Hs) as (kvss & Hh & Hinc).
  destruct (Add_one_entry_two_dimensions irt e h kvss HD Hh Hinc)
    as (t' & h' & Hadd & HD' & Hh' & Hinc' & Hlen).
  exists kvss, t', h'. split; [by apply holds2_leaves|]. split; [done|].
  split; [by eapply holds2_sorted|]. split; [by apply holds2_leaves|].
  pose proof (leaves2_length_upsert (ValueAtDimension e 1)
                (put 2 e (children_of (ValueAtDimension e 1) kvss)) kvss Hinc)
    as Hcount.
  fold (put2 e kvss) in Hcount. unfold Len in *.
  destruct Hlen as [[-> Hl]|[-> Hl]]; f_equal; lia.
Qed.

Lemma adds_two_dimensions es irt (h : heap) kvss :
  dimensions irt = 2 ->
  holds2 irt h kvss ->
  increasing (fst <$> kvss) ->
  Forall (fun kk => snd kk <> []) kvss ->
  Len irt = wrap64 (Z.of_nat (length (leaves2 kvss))) ->
  exists t h',
    adds irt es h = Some (t, h')
    /\ dimensions t = 2
    /\ holds2 t h' (rows_after es kvss)
    /\ increasing (fst <$> rows_after es kvss)
    /\ Forall (fun kk => snd kk <> []) (rows_after es kvss)
    /\ Len t = wrap64 (Z.of_nat (length (leaves2 (rows_after es kvss)))).
Proof.
  revert irt h kvss. induction es as [|e es IH];
    intros irt h kvss HD Hh Hinc Hne Hlen; cbn [adds].
  { exists irt, h. by repeat split. }
  destruct (Add_one_entry_two_dimensions irt e h kvss HD Hh Hinc)
    as (t1 & h1 & Hadd & HD1 & Hh1 & Hinc1 & Hlen1).
  unfold bind at 1. rewrite Hadd.
  apply (IH t1 h1 (put2 e kvss)); try done.
  - by apply put2_nonempty_rows.
  - pose proof (leaves2_length_upsert (ValueAtDimension e 1)
                  (put 2 e (children_of (ValueAtDimension e 1) kvss)) kvss Hinc)
      as Hcount.
    fold (put2 e kvss) in Hcount. unfold Len in *.
    destruct Hlen1 as [[-> Hl]|[-> Hl]]; rewrite Hlen; unfold wrap64;
      rewrite Zplus_mod_idemp_l; f_equal; lia.
Qed.

(** X18.  Trees of two dimensions built one entry at a time are
    consistent.  Starting from the new tree of two dimensions, in any
    store, adding any entries one call each returns a tree that is
    sorted at both levels, in which every node of the first level has
    children, whose leaves are the rows the entries leave, whose length
    is the number of its leaves (modulo 2^64), and from which [Query]
    returns, for every interval, the entries of exactly the leaves
    inside the interval, in the order of the leaves, which is the strict
    lexicographic order of their coordinates. *)
Theorem two_dimension_trees_by_single_adds es (h : heap) :
  exists t h',
    adds (NewImmutableRangeTree 2) es h = Some (t, h')
    /\ sorted_tree t h' = Some true
    /\ all_children_nonempty t h' = Some true
    /\ all_leaves t h' = Some (leaves2 (rows_after es []))
    /\ Sorted.StronglySorted lex_lt (map fst (leaves2 (rows_after es [])))
    /\ Len t = wrap64 (Z.of_nat (length (leaves2 (rows_after es []))))
    /\ forall I,
         Query t I h' = Some (selected I 1 (leaves2 (rows_after es []))).
Proof.
  destruct (adds_two_dimensions es (NewImmutableRangeTree 2) h [])
    as (t & h' & Hadds & HD & Hh & Hinc & Hne & Hlen).
  { done. }
  { exists []. split; [done | constructor]. }
  { by intros i j ? ? _ ?. }
  { constructor. }
  { done. }
  assert (Hs : sorted_tree t h' = Some true) by (by eapply holds2_sorted).
  exists t, h'. split; [done|]. split; [done|].
  split; [by eapply holds2_children_nonempty|].
  split; [by apply holds2_leaves|]. split.
  { eapply leaves_lex_sorted; [exact Hs|]. by apply holds2_leaves. }
  split; [done|].
  intros I. destruct (Query_selects t I h' Hs) as (ls & Hls & ->).
  rewrite (holds2_leaves _ _ _ HD Hh) in Hls. by injection Hls as <-.
Qed.

(** ** Two dimensions: [Delete] of the only leaf of a row *)

(** The lookup of a value that a sorted list holds. *)
Lemma list_get_sorted s cells nds (h : heap) i nd :
  h_arrays h !! s_arr s = Some cells -> s_len s <= length cells ->
  Forall2 (fun c n => deref c h = Some n) (take (s_len s) cells) nds ->
  increasing (value <$> nds) ->
  nds !! i = Some nd ->
  exists a,
    list_get s (value nd) h = Some (Some a, i)
    /\ cells !! i = Some (Some a) /\ load_node a h = Some nd.
Proof.
  intros Ha Hlc Hd Hinc Hi.
  assert (Hnl : length (take (s_len s) cells) = length nds)
    by (by eapply Forall2_length).
  rewrite length_take_le in Hnl by done.
  pose proof (lookup_lt_Some _ _ _ Hi) as Hilt.
  destruct (list_search_split s cells nds (value nd) h Ha Hlc Hd Hinc)
    as (i' & Hs & Hile & Hlo & Hhi).
  assert (i' = i) as ->.
  { destruct (Nat.lt_trichotomy i i') as [Hlt|[->|Hlt]]; [|done|].
    - pose proof (Hlo i nd Hlt Hi). lia.
    - destruct (lookup_lt_is_Some_2 nds i') as [n' Hn']; [lia|].
      pose proof (Hhi i' n' (le_n _) Hn').
      assert (value n' < value nd)%Z; [|lia].
      apply (Hinc i' i); [done| |]; by rewrite list_lookup_fmap, ?Hn', ?Hi. }
  destruct (lookup_lt_is_Some_2 cells i) as [c Hc]; [lia|].
  assert (Hec : take (s_len s) cells !! i = Some c)
    by (rewrite lookup_take_lt by lia; done).
  destruct (Forall2_lookup_l _ _ _ _ _ Hd Hec) as (nd' & Hnd' & Hdc).
  rewrite Hi in Hnd'. injection Hnd' as <-.
  destruct (deref_Some _ _ _ Hdc) as (a & -> & Hla).
  exists a. split; [|by split].
  unfold list_get, bindR at 1. rewrite Hs.
  replace (i =? s_len s) with false by (symmetry; apply Nat.eqb_neq; lia).
  unfold bindR at 1, index, bindR at 1.
  rewrite (elems_working _ _ _ Ha Hlc), Hec. unfold retR at 1.
  unfold bindR. cbn [deref]. rewrite Hla. by rewrite Z.eqb_refl.
Qed.

Lemma working_more_vars am v nds s (h : heap) :
  working am h v nds ->
  working am (Heap (h_nodes h) (h_arrays h) (h_vars h ++ [s])) v nds.
Proof.
  intros (s0 & cs & Hv & Ha & Hcap & Hlen & Ham & Hd).
  exists s0, cs. split; [by apply lookup_app_l_Some|]. split; [done|].
  split; [done|]. split; [done|]. split; [done|].
  by apply (Forall2_deref_same_nodes _ _ h).
Qed.

Lemma rebuild_two irt l0 i0 a s cs (h : heap) :
  load (SField a) h = Some s ->
  elems s h = Some cs ->
  s_len s = 1 ->
  rebuild irt 2 [Bundle l0 i0 None None; Bundle (SField a) 0 (Some a) None] h
  = Some ([Bundle l0 i0 None None;
           Bundle (SVar (length (h_vars h))) 0 (Some a) None],
          Heap (h_nodes h) (h_arrays h ++ [cs])
            (h_vars h ++ [Slice (length (h_arrays h)) 1 1])).
Proof.
  intros Hl He Hlen. rewrite rebuild_unfold.
  change ([Bundle l0 i0 None None; Bundle (SField a) 0 (Some a) None] !! 1)
    with (Some (Bundle (SField a) 0 (Some a) None)).
  cbn [previousNode nb_list nb_index nb_newNode].
  unfold bind at 1, lift at 1. rewrite Hl.
  unfold bind at 1. rewrite (clone_spec _ _ _ He). rewrite Hlen.
  unfold bind at 1, new_var at 1. cbn [h_vars h_nodes h_arrays s_len Nat.eqb].
  reflexivity.
Qed.

Lemma rows_settled (h h' : heap) cells kvss :
  settled h h' -> h_nodes h' = h_nodes h ->
  Forall2 (fun c kk => exists nd, deref c h = Some nd /\ row h nd kk)
    cells kvss ->
  Forall2 (fun c kk => exists nd, deref c h' = Some nd /\ row h' nd kk)
    cells kvss.
Proof.
  intros Hset Hn F.
  induction F as [|c kk cl kks (nd0 & Hc & Hrw) _ IH]; [constructor|].
  constructor; [|done]. exists nd0.
  split; [|by eapply row_settled].
  destruct (deref_Some _ _ _ Hc) as (y & -> & Hy).
  cbn [deref]. unfold load_node. by rewrite Hn.
Qed.

(** The cells [deleteAt] leaves in the array. *)
Definition cells_without (i : nat) (s : slice) (cells : list (option addr))
  : list (option addr) :=
  take i cells ++ take (s_len s - S i) (drop (S i) cells)
    ++ (if clear_vacated then None :: drop (s_len s) cells
        else drop (s_len s - 1) cells).

Lemma list_deleteAt_exact v i s cells (h : heap) :
  h_vars h !! v = Some s ->
  h_arrays h !! s_arr s = Some cells ->
  i < s_len s ->
  list_deleteAt clear_vacated (SVar v) i h
  = Some (tt, Heap (h_nodes h)
                (<[s_arr s := cells_without i s cells]> (h_arrays h))
                (<[v := Slice (s_arr s) (s_len s - 1) (s_cap s)]> (h_vars h))).
Proof.
  intros Hv Ha Hi.
  pose proof (lookup_lt_Some _ _ _ Hv). pose proof (lookup_lt_Some _ _ _ Ha).
  unfold list_deleteAt, bind, lift. cbn [load]. rewrite Hv.
  replace (s_len s <=? i) with false by (symmetry; apply Nat.leb_gt; lia).
  unfold load_array. rewrite Ha. rewrite store_array_spec by done.
  unfold store. cbn [h_vars].
  by replace (v <? length (h_vars h)) with true
    by (symmetry; by apply Nat.ltb_lt).
Qed.

Lemma cells_without_elems i s cells :
  i < s_len s -> s_len s <= length cells ->
  take (s_len s - 1) (cells_without i s cells)
  = take i (take (s_len s) cells) ++ drop (S i) (take (s_len s) cells).
Proof.
  intros Hi Hl. unfold cells_without.
  replace (s_len s - 1) with (i + (s_len s - S i)) by lia.
  rewrite take_app_add' by (rewrite length_take; lia).
  rewrite take_app_length' by (rewrite length_take, length_drop; lia).
  f_equal; [rewrite take_take; f_equal; lia|].
  rewrite take_drop_commute. do 2 f_equal. lia.
Qed.

(** [Delete] of an entry that is the only leaf of its row, on a sorted
    tree of two dimensions: the row goes. *)
Lemma Delete_single_leaf_row irt e (h : heap) kvss i x :
  dimensions irt = 2 ->
  holds2 irt h kvss ->
  increasing (fst <$> kvss) ->
  kvss !! i = Some (ValueAtDimension e 1, [(ValueAtDimension e 2, x)]) ->
  exists t' h',
    Delete irt [e] h = Some (t', h')
    /\ dimensions t' = 2
    /\ holds2 t' h' (take i kvss ++ drop (S i) kvss)
    /\ Len t' = wrap64 (number irt - 1).
Proof.
  intros HD Hh Hinc Hrow.
  destruct (holds2_nodes _ _ _ Hh) as (cells & tnds & Hes & Hd & Hr).
  pose proof (rows_values _ _ _ Hr) as Hvals.
  pose proof (elems_length _ _ _ Hes) as Hlen.
  destruct (Forall2_lookup_r _ _ _ _ _ Hr Hrow) as (nd & Hnd_i & Hv & Hl & _).
  cbn [fst snd] in Hv, Hl.
  unfold Delete. rewrite HD. cbn [newCache replicate].
  unfold bind at 1. rewrite (clone_spec _ _ _ Hes).
  unfold bind at 1, new_var at 1. cbn [h_vars h_nodes h_arrays].
  set (t := Slice _ _ _). set (hA := Heap _ _ _).
  assert (HextA : extends h hA).
  { repeat split; cbn; [done | by apply prefix_app_r | by apply prefix_app_r]. }
  assert (HvA : h_vars hA !! length (h_vars h) = Some t).
  { unfold hA. cbn. by rewrite lookup_app_r, Nat.sub_diag. }
  assert (HaA : h_arrays hA !! s_arr t = Some cells).
  { unfold hA, t. cbn. by rewrite lookup_app_r, Nat.sub_diag. }
  assert (HdA : Forall2 (fun c n => deref c hA = Some n)
                  (take (s_len t) cells) tnds).
  { unfold t. cbn [s_len]. rewrite take_ge by lia.
    by apply (Forall2_deref_same_nodes _ _ h). }
  assert (HwA : working (length (h_arrays h)) hA (length (h_vars h)) tnds).
  { exists t, cells. split; [done|]. split; [done|].
    split; [unfold t; cbn; lia|]. split; [unfold t; cbn; lia|].
    split; [unfold t; cbn; lia | done]. }
  (* the two lookups *)
  destruct (list_get_sorted t cells tnds hA i nd HaA) as (a & Hget1 & Hcell & Hla);
    [unfold t; cbn; lia | done | by rewrite Hvals | done |].
  rewrite Hv in Hget1.
  pose proof (lists_settled _ _ _ _ (extends_settled _ _ HextA) Hl) as HlA.
  destruct (lists_nodes _ _ _ HlA) as (cs & lnds & He & Hdc & Hitems).
  destruct lnds as [|ln [|? ?]]; try discriminate.
  injection Hitems as Hk2 Hent.
  pose proof (elems_length _ _ _ He) as Hclen.
  assert (Hcl : length cs = length [ln]) by (by eapply Forall2_length).
  cbn [length] in Hcl.
  destruct (elems_array _ _ _ He) as (ccells & Hca & Hcle); [lia|].
  assert (Hcs : cs = take (s_len (orderedNodes nd)) ccells).
  { pose proof (elems_working _ _ _ Hca Hcle) as He'. congruence. }
  destruct (list_get_sorted (orderedNodes nd) ccells [ln] hA 0 ln Hca Hcle)
    as (b & Hget2 & Hcell2 & Hlb);
    [by rewrite <- Hcs | by intros [|?] [|?] ? ? ? ? ?; try lia | done|].
  rewrite Hk2 in Hget2.
  assert (Hdesc : descend 2 1 None (SVar (length (h_vars h))) e [] hA
                  = Some (Some [Bundle (SVar (length (h_vars h))) i None None;
                                Bundle (SField a) 0 (Some a) None])).
  { rewrite descend_unfold. unfold bindR at 1. cbn [load]. rewrite HvA.
    unfold bindR at 1. rewrite Hget1. rewrite descend_unfold.
    unfold bindR at 1. cbn [load]. unfold bindR at 1. rewrite Hla.
    unfold retR at 1. unfold bindR at 1. rewrite Hget2. done. }
  (* the copy of the children list *)
  assert (Hld : load (SField a) hA = Some (orderedNodes nd)).
  { cbn [load]. unfold bindR, retR. by rewrite Hla. }
  assert (Hsl : s_len (orderedNodes nd) = 1) by lia.
  pose proof (rebuild_two irt (SVar (length (h_vars h))) i a _ _ hA Hld He Hsl)
    as Hreb.
  set (sc := Slice (length (h_arrays hA)) 1 1) in Hreb.
  set (hC := Heap (h_nodes hA) (h_arrays hA ++ [cs]) (h_vars hA ++ [sc]))
    in Hreb.
  pose proof (lookup_lt_Some _ _ _ Hnd_i) as Hilt.
  assert (Htl : length tnds = length cells) by (symmetry; by eapply Forall2_length).
  (* the two removals *)
  assert (Hdel1 := list_deleteAt_exact (length (h_vars h)) i t cells hC).
  set (hD := Heap (h_nodes hC) _ _) in Hdel1.
  assert (Hdel2 := list_deleteAt_exact (length (h_vars hA)) 0 sc cs hD).
  set (hE := Heap (h_nodes hD) _ _) in Hdel2.
  assert (HvC : h_vars hC !! length (h_vars h) = Some t).
  { unfold hC. cbn [h_vars]. by apply lookup_app_l_Some. }
  assert (HaC : h_arrays hC !! s_arr t = Some cells).
  { unfold hC. cbn [h_arrays]. by apply lookup_app_l_Some. }
  specialize (Hdel1 HvC HaC ltac:(unfold t; cbn [s_len]; lia)).
  assert (HvD : h_vars hD !! length (h_vars hA) = Some sc).
  { unfold hD, hC. cbn [h_vars].
    rewrite list_lookup_insert_ne by (unfold hA; cbn [h_vars]; rewrite length_app; cbn; lia).
    by rewrite lookup_app_r, Nat.sub_diag. }
  assert (HaD : h_arrays hD !! s_arr sc = Some cs).
  { unfold hD, hC, sc, t. cbn [h_arrays s_arr].
    rewrite list_lookup_insert_ne by (unfold hA; cbn [h_arrays]; rewrite length_app; cbn; lia).
    by rewrite lookup_app_r, Nat.sub_diag. }
  specialize (Hdel2 HvD HaD ltac:(unfold sc; cbn [s_len]; lia)).
  assert (Hdel : delete_all irt (SVar (length (h_vars h))) [[]; []] [e] 0 hA
                 = Some (wrap64 (0 + 1), hE)).
  { cbn [delete_all]. unfold irt_delete. rewrite HD.
    unfold bind, lift. rewrite Hdesc.
    cbn [length]. rewrite Hreb.
    cbn [splice nb_newNode nb_list nb_index].
    unfold bind. rewrite Hdel1, Hdel2. reflexivity. }
  unfold bind at 1. rewrite Hdel. unfold bind, lift, ret. cbn [load].
  assert (HvE : h_vars hE !! length (h_vars h)
                = Some (Slice (s_arr t) (s_len t - 1) (s_cap t))).
  { unfold hE, hD. cbn [h_vars].
    rewrite list_lookup_insert_ne
      by (unfold hA; cbn [h_vars]; rewrite length_app; cbn; lia).
    apply list_lookup_insert_eq. by eapply lookup_lt_Some. }
  assert (HaE : h_arrays hE !! s_arr t = Some (cells_without i t cells)).
  { unfold hE, hD. cbn [h_arrays].
    rewrite list_lookup_insert_ne
      by (unfold sc, t, hA; cbn [s_arr h_arrays]; rewrite length_app; cbn; lia).
    apply list_lookup_insert_eq. by eapply lookup_lt_Some. }
  assert (Hset : settled h hE).
  { split; [intros y nd0 Hy; by exists nd0|].
    intros y c Hy. pose proof (lookup_lt_Some _ _ _ Hy).
    unfold hE, hD, hC, sc, t, hA. cbn [h_arrays s_arr].
    rewrite !list_lookup_insert_ne by (rewrite ?length_app; cbn [length]; lia).
    by do 2 apply lookup_app_l_Some. }
  rewrite HvE. eexists _, _. split; [reflexivity|]. split; [done|].
  split; [|done].
  exists (take i cells ++ drop (S i) cells). split.
  - unfold elems, bindR, retR, load_array. cbn [top s_len s_arr].
    change (s_len t) with (s_len (top irt)).
    destruct (s_len (top irt) - 1 =? 0) eqn:E0.
    + apply Nat.eqb_eq in E0.
      assert (i = 0) as -> by lia.
      f_equal. symmetry. apply nil_length_inv.
      rewrite length_app, length_take, length_drop. lia.
    + rewrite HaE.
      assert (Hcw : length (cells_without i t cells) >= s_len (top irt) - 1).
      { unfold cells_without, t. cbn [s_len].
        rewrite !length_app, !length_take, length_drop.
        destruct clear_vacated; cbn [length]; rewrite length_drop; lia. }
      replace (s_len (top irt) - 1 <=? length (cells_without i t cells))
        with true by (symmetry; apply Nat.leb_le; lia).
      change (s_len (top irt) - 1) with (s_len t - 1) at 1.
      rewrite cells_without_elems by (unfold t; cbn [s_len]; lia).
      unfold t. cbn [s_len]. rewrite <- Hlen. by rewrite firstn_all.
  - destruct Hh as (cells' & Hes' & F).
    assert (cells' = cells) as -> by congruence.
    pose proof (rows_settled h hE cells kvss Hset eq_refl F) as F'.
    apply Forall2_app; [by apply Forall2_take | by apply Forall2_drop].
Qed.

Lemma remove_by_lookup {X} (key : X -> Z) k l i y :
  increasing (key <$> l) -> l !! i = Some y -> key y = k ->
  remove_by key k l = take i l ++ drop (S i) l.
Proof.
  intros Hinc Hi Hk.
  rewrite (remove_by_at key k l i Hinc).
  - rewrite Hi.
    by replace (key y =? k)%Z with true by (symmetry; by apply Z.eqb_eq).
  - intros j z Hj Hz. subst k.
    apply (Hinc j i); [done | by rewrite list_lookup_fmap, Hz
                      | by rewrite list_lookup_fmap, Hi].
  - intros j z Hj Hz. subst k. destruct (decide (i = j)) as [->|Hne].
    + assert (z = y) as -> by congruence. lia.
    + apply Z.lt_le_incl.
      apply (Hinc i j); [lia | by rewrite list_lookup_fmap, Hi
                        | by rewrite list_lookup_fmap, Hz].
Qed.

Lemma children_of_lookup k (kvss : list (Z * list (Z * option Entry))) c :
  children_of k kvss = c -> c <> [] -> exists i, kvss !! i = Some (k, c).
Proof.
  unfold children_of.
  destruct (List.find _ kvss) as [kk|] eqn:Hf; [|by intros <-].
  intros <- _. apply find_some in Hf as [Hin Hk]. apply Z.eqb_eq in Hk.
  apply list_elem_of_In, list_elem_of_lookup_1 in Hin as [i Hi].
  exists i. rewrite Hi. destruct kk as [k' c]. cbn in *. by subst.
Qed.

(** The leaves of one row. *)
Definition row_leaves (kk : Z * list (Z * option Entry))
  : list (list Z * option Entry) :=
  map (fun kv => ([fst kk; fst kv], snd kv)) (snd kk).

Lemma leaves2_cons_app kk (kvss : list (Z * list (Z * option Entry))) :
  leaves2 (kk :: kvss) = row_leaves kk ++ leaves2 kvss.
Proof. done. Qed.

Lemma filter_row_leaves k (kk : Z * list (Z * option Entry)) :
  List.filter (in_row k) (row_leaves kk)
  = (if (fst kk =? k)%Z then row_leaves kk else [])
  /\ List.filter (fun l => negb (in_row k l)) (row_leaves kk)
     = (if (fst kk =? k)%Z then [] else row_leaves kk).
Proof.
  unfold row_leaves. destruct kk as [k' c]. cbn [fst snd].
  induction c as [|kv c [IH1 IH2]]; [cbn; by destruct (k' =? k)%Z|].
  cbn [map List.filter].
  change (in_row k ([k'; fst kv], snd kv)) with (k' =? k)%Z.
  rewrite IH1, IH2. by destruct (k' =? k)%Z.
Qed.

Lemma filter_leaves2_absent k (kvss : list (Z * list (Z * option Entry))) :
  Forall (fun kk => fst kk <> k) kvss ->
  List.filter (in_row k) (leaves2 kvss) = []
  /\ List.filter (fun l => negb (in_row k l)) (leaves2 kvss) = leaves2 kvss.
Proof.
  induction 1 as [|kk kvss Hk _ [IH1 IH2]]; [done|].
  rewrite leaves2_cons_app, !List.filter_app, IH1, IH2.
  destruct (filter_row_leaves k kk) as [-> ->].
  by replace (fst kk =? k)%Z with false by (symmetry; by apply Z.eqb_neq).
Qed.

Lemma increasing_head_absent (kk : Z * list (Z * option Entry)) kvss k :
  increasing (fst <$> kk :: kvss) -> (k <= fst kk)%Z ->
  Forall (fun kk' => fst kk' <> k) kvss.
Proof.
  intros Hinc Hk. apply Forall_lookup. intros j kk' Hj.
  assert (fst kk < fst kk')%Z; [|lia].
  apply (Hinc 0 (S j)); [lia | done|].
  change ((fst <$> kvss) !! j = Some (fst kk')).
  by rewrite list_lookup_fmap, Hj.
Qed.

(** The leaves of the row of [k], and the leaves of the other rows. *)
Lemma filter_leaves2 k (kvss : list (Z * list (Z * option Entry))) :
  increasing (fst <$> kvss) ->
  List.filter (in_row k) (leaves2 kvss)
  = map (fun kv => ([k; fst kv], snd kv)) (children_of k kvss)
  /\ List.filter (fun l => negb (in_row k l)) (leaves2 kvss)
     = leaves2 (remove_by fst k kvss).
Proof.
  induction kvss as [|kk kvss IH]; intros Hinc; [done|].
  rewrite leaves2_cons_app, !List.filter_app.
  destruct (filter_row_leaves k kk) as [-> ->].
  unfold children_of. cbn [List.find remove_by]. rewrite (Z.eqb_sym k).
  destruct (fst kk =? k)%Z eqn:Ek.
  - apply Z.eqb_eq in Ek.
    destruct (filter_leaves2_absent k kvss) as [-> ->].
    { eapply increasing_head_absent; [exact Hinc | lia]. }
    subst k. by rewrite app_nil_r.
  - destruct (IH (increasing_tail _ _ Hinc)) as [IH1 IH2].
    cbn [app]. split; [exact IH1|].
    by rewrite leaves2_cons_app, IH2.
Qed.

(** X19.  [Delete] of the only leaf of a row, in two dimensions.  On a
    sorted tree of two dimensions in which the leaf at the coordinates of
    the entry is the only leaf with that first coordinate, [Delete] of the
    entry returns a sorted tree whose leaves are the other leaves, in
    their order: the row goes with its leaf.  The length is one less, in
    [uint64] arithmetic. *)
Theorem Delete_only_leaf_of_a_row irt e (h : heap) ls x :
  dimensions irt = 2 ->
  sorted_tree irt h = Some true ->
  all_leaves irt h = Some ls ->
  List.filter (in_row (ValueAtDimension e 1)) ls
  = [([ValueAtDimension e 1; ValueAtDimension e 2], x)] ->
  exists t' h',
    Delete irt [e] h = Some (t', h')
    /\ sorted_tree t' h' = Some true
    /\ all_leaves t' h'
       = Some (List.filter
                 (fun l => negb (in_row (ValueAtDimension e 1) l)) ls)
    /\ Len t' = wrap64 (Len irt - 1).
Proof.
  intros HD Hs Hls Hrow.
  destruct (sorted_tree_holds2 _ _ HD Hs) as (kvss & Hh & Hinc).
  rewrite (holds2_leaves _ _ _ HD Hh) in Hls. injection Hls as <-.
  destruct (filter_leaves2 (ValueAtDimension e 1) kvss Hinc) as [Hin Hout].
  rewrite Hin in Hrow.
  assert (Hc : children_of (ValueAtDimension e 1) kvss
               = [(ValueAtDimension e 2, x)]).
  { destruct (children_of _ kvss) as [|[k2 y] [|? ?]]; [done| |done].
    cbn in Hrow. by injection Hrow as -> ->. }
  destruct (children_of_lookup _ _ _ Hc) as [i Hi]; [done|].
  destruct (Delete_single_leaf_row irt e h kvss i x HD Hh Hinc Hi)
    as (t' & h' & Hdel & HD' & Hh' & Hlen).
  rewrite <- (remove_by_lookup fst (ValueAtDimension e 1) kvss i _ Hinc Hi)
    in Hh' by done.
  exists t', h'. split; [done|]. split.
  - eapply holds2_sorted; [done | exact Hh' |]. by apply remove_by_increasing.
  - split; [|done]. rewrite Hout. by apply holds2_leaves.
Qed.

End Coverage.

End Theory.

Lemma Delete_of_no_entries_witness :
  Add coord sample_tree [] sample_heap = Some (sample_tree, sample_heap)
  /\ exists t' h',
       Delete coord false sample_tree [] sample_heap = Some (t', h')
       /\ Len t' = Len sample_tree
       /\ forall I,
            is_Some (Query sample_tree I sample_heap)
            /\ Query t' I h' = Query sample_tree I sample_heap.
Proof.
  apply (Delete_of_no_entries coord false sample_tree sample_heap).
  - discriminate.
  - vm_compute. split; [discriminate | reflexivity].
  - eexists. vm_compute. reflexivity.
Defined.

Lemma Delete_keeps_older_trees_witness :
  exists t' h',
    Delete coord false sample_tree [e11] sample_heap = Some (t', h')
    /\ Query sample_tree whole h' = Some [Some e11; Some e21].
Proof.
  destruct (Delete coord false sample_tree [e11] sample_heap)
    as [[t' h']|] eqn:Hd.
  - exists t', h'. split; [reflexivity|].
    apply (Delete_keeps_older_trees coord false sample_tree [e11] t'
             sample_heap h' sample_tree whole _ Hd).
    vm_compute. reflexivity.
  - vm_compute in Hd. discriminate.
Defined.

Lemma Add_counts_at_most_the_batch_witness :
  dimensions sample_tree = dimensions (NewImmutableRangeTree 2)
  /\ exists k,
       k <= length [e11; e21]
       /\ Len sample_tree
          = wrap64 (Len (NewImmutableRangeTree 2) + Z.of_nat k).
Proof.
  apply (Add_counts_at_most_the_batch coord (NewImmutableRangeTree 2)
           [e11; e21] sample_tree empty_heap sample_heap).
  - vm_compute. split; [discriminate | reflexivity].
  - vm_compute. reflexivity.
Defined.

Lemma Delete_of_absent_entries_witness :
  Delete coord false sample_tree [e77; e12] sample_heap
  = Delete coord false sample_tree [] sample_heap.
Proof.
  apply (Delete_of_absent_entries coord false sample_tree [e77; e12]
           sample_heap).
  repeat constructor.
Defined.

Lemma Query_narrower_interval_witness :
  exists rI rJ,
    Query sample_tree around11 sample_heap = Some rI
    /\ Query sample_tree whole sample_heap = Some rJ
    /\ sublist rI rJ.
Proof.
  apply (Query_narrower_interval sample_tree around11 whole sample_heap).
  - vm_compute. reflexivity.
  - intros k. cbn. lia.
Defined.

Lemma Query_empty_interval_witness :
  Query sample_tree inverted sample_heap = Some [].
Proof.
  apply (Query_empty_interval sample_tree inverted 1 sample_heap).
  - vm_compute. reflexivity.
  - cbn. lia.
  - cbn. lia.
Defined.

Lemma Add_in_one_dimension_witness :
  exists kvs t' h',
    all_leaves line_tree line_heap = Some (leaf_of <$> kvs)
    /\ Add coord line_tree [p2; p3'] line_heap = Some (t', h')
    /\ sorted_tree t' h' = Some true
    /\ all_leaves t' h' = Some (leaf_of <$> put_all coord 1 [p2; p3'] kvs)
    /\ Len t'
       = wrap64 (Len line_tree
                 + Z.of_nat (length (put_all coord 1 [p2; p3'] kvs)
                             - length kvs)).
Proof.
  apply (Add_in_one_dimension coord line_tree [p2; p3'] line_heap).
  - reflexivity.
  - vm_compute. split; [discriminate | reflexivity].
  - vm_compute. reflexivity.
Defined.

Lemma Add_in_one_dimension_keeps_older_trees_witness :
  exists t' h',
    Add coord line_tree [p2; p3'] line_heap = Some (t', h')
    /\ Query line_tree whole h' = Some [Some p1; Some p3].
Proof.
  destruct (Add coord line_tree [p2; p3'] line_heap) as [[t' h']|] eqn:Ha.
  - exists t', h'. split; [reflexivity|].
    apply (Add_in_one_dimension_keeps_older_trees coord line_tree [p2; p3'] t'
             line_heap h' line_tree whole).
    + reflexivity.
    + vm_compute. reflexivity.
    + exact Ha.
    + vm_compute. reflexivity.
  - vm_compute in Ha. discriminate.
Defined.

Lemma Delete_in_one_dimension_witness :
  exists kvs t' h',
    all_leaves line_tree line_heap = Some (leaf_of <$> kvs)
    /\ Delete coord true line_tree [p2; p3'] line_heap = Some (t', h')
    /\ sorted_tree t' h' = Some true
    /\ all_leaves t' h'
       = Some (leaf_of <$> take_out_all coord 1 [p2; p3'] kvs)
    /\ Len t'
       = wrap64 (Len line_tree
                 - Z.of_nat (length kvs
                             - length (take_out_all coord 1 [p2; p3'] kvs))).
Proof.
  apply (Delete_in_one_dimension coord true line_tree [p2; p3'] line_heap).
  - reflexivity.
  - vm_compute. reflexivity.
Defined.

Lemma Add_then_Delete_in_one_dimension_witness :
  exists t1 h1 t2 h2,
    Add coord line_tree [p2] line_heap = Some (t1, h1)
    /\ Delete coord true t1 [p2] h1 = Some (t2, h2)
    /\ Len t2 = Len line_tree
    /\ all_leaves t2 h2 = all_leaves line_tree line_heap
    /\ forall I,
         exists r,
           Query t2 I h2 = Some r /\ Query line_tree I line_heap = Some r.
Proof.
  apply (Add_then_Delete_in_one_dimension coord true line_tree p2 line_heap).
  - reflexivity.
  - vm_compute. split; [discriminate | reflexivity].
  - vm_compute. reflexivity.
  - vm_compute. reflexivity.
Defined.

Lemma Add_overwrites_in_one_dimension_witness :
  exists kvs t1 h1 t2 h2,
    all_leaves line_tree line_heap = Some (leaf_of <$> kvs)
    /\ Add coord line_tree [p3] line_heap = Some (t1, h1)
    /\ Add coord t1 [p3'] h1 = Some (t2, h2)
    /\ Len t2 = Len t1
    /\ all_leaves t2 h2 = Some (leaf_of <$> put coord 1 p3' kvs)
    /\ forall I,
         LowAtDimension I 1 = coord p3 1 ->
         HighAtDimension I 1 = coord p3 1 ->
         Query t2 I h2 = Some [Some p3'].
Proof.
  apply (Add_overwrites_in_one_dimension coord line_tree p3 p3' line_heap).
  - reflexivity.
  - vm_compute. split; [discriminate | reflexivity].
  - vm_compute. reflexivity.
  - reflexivity.
Defined.

Lemma batch_Add_in_one_dimension_witness :
  exists t h1 ta ha tb hb,
    Add coord line_tree ([p2] ++ [p3']) line_heap = Some (t, h1)
    /\ Add coord line_tree [p2] line_heap = Some (ta, ha)
    /\ Add coord ta [p3'] ha = Some (tb, hb)
    /\ Len t = Len tb
    /\ (exists ls, all_leaves t h1 = Some ls /\ all_leaves tb hb = Some ls)
    /\ forall I, exists r, Query t I h1 = Some r /\ Query tb I hb = Some r.
Proof.
  apply (batch_Add_in_one_dimension coord line_tree [p2] [p3'] line_heap).
  - reflexivity.
  - vm_compute. split; [discriminate | reflexivity].
  - vm_compute. reflexivity.
Defined.

Lemma Add_one_entry_in_two_dimensions_witness :
  exists kvss t' h',
    all_leaves sample_tree sample_heap = Some (leaves2 kvss)
    /\ Add coord sample_tree [e12] sample_heap = Some (t', h')
    /\ sorted_tree t' h' = Some true
    /\ all_leaves t' h' = Some (leaves2 (put2 coord e12 kvss))
    /\ Len t'
       = wrap64 (Len sample_tree
                 + Z.of_nat (length (leaves2 (put2 coord e12 kvss))
                             - length (leaves2 kvss))).
Proof.
  apply (Add_one_entry_in_two_dimensions coord sample_tree e12 sample_heap).
  - reflexivity.
  - vm_compute. reflexivity.
Defined.

(** The two-dimensional sample tree is sorted, so [Query_sorted] applies
    to it: the whole interval returns its two entries, (1,1) before
    (2,1). *)
Lemma Delete_only_leaf_of_a_row_witness :
  exists t' h',
    Delete coord false sample_tree [e11] sample_heap = Some (t', h')
    /\ sorted_tree t' h' = Some true
    /\ all_leaves t' h'
       = Some (List.filter (fun l => negb (in_row (coord e11 1) l))
                 [([1; 1]%Z, Some e11); ([2; 1]%Z, Some e21)])
    /\ Len t' = wrap64 (Len sample_tree - 1).
Proof.
  apply (Delete_only_leaf_of_a_row coord false sample_tree e11 sample_heap
           [([1; 1]%Z, Some e11); ([2; 1]%Z, Some e21)] (Some e11)).
  - reflexivity.
  - vm_compute. reflexivity.
  - vm_compute. reflexivity.
  - vm_compute. reflexivity.
Defined.

Lemma Query_sorted_witness :
  sorted_tree sample_tree sample_heap = Some true
  /\ exists ls,
       all_leaves sample_tree sample_heap = Some ls
       /\ Sorted.StronglySorted lex_lt (map fst ls)
       /\ Query sample_tree whole sample_heap = Some (selected whole 1 ls)
       /\ selected whole 1 ls = [Some e11; Some e21].
Proof.
  assert (Hs : sorted_tree sample_tree sample_heap = Some true)
    by (vm_compute; reflexivity).
  split; [exact Hs|].
  destruct (Query_sorted sample_tree whole sample_heap Hs) as (ls & Hls & Ho & HQ).
  exists ls. repeat split; try done.
  vm_compute in Hls. injection Hls as <-. vm_compute. reflexivity.
Defined.

(** ** The defects, at concrete inputs *)

(** C1.  Immutability fails for [Add]: in two dimensions, adding (1,2) to
    the tree that holds (1,1) changes what the older tree returns for the
    same interval, from [(1,1)] to [(1,1); (1,2)], while its length stays
    1.  The node for the first coordinate is shared by both trees and
    [add] assigns the new children list to it. *)
Theorem Add_changes_parent_query :
  fst <$> query_around_add empty_heap
  = Some ([Some e11], [Some e11; Some e12], 1%Z).
Proof. vm_compute. reflexivity. Qed.

(** C2.  Range correctness fails in three dimensions: after adding
    (1,1,1) to the empty tree, a query whose interval contains the point
    returns nothing. *)
Theorem Query_misses_added_point :
  observe single_add_3d (fun t => Query t whole) = Some [].
Proof. vm_compute. reflexivity. Qed.

(** C3.  Count consistency fails in three dimensions: after adding
    (1,1,1) to the empty tree, [Len] is 1 and the exhaustive traversal
    reaches no tuple. *)
Theorem Len_exceeds_reachable_tuples :
  observe single_add_3d
    (fun t => let? ts := reachable_tuples t in
              retR (Len t, length (remove_dups ts)))
  = Some (1%Z, 0).
Proof. vm_compute. reflexivity. Qed.

(** C4.  Overwrite fails in three dimensions: adding the same
    coordinates a second time raises [Len] from 1 to 2, and the query at
    those coordinates returns neither entry. *)
Theorem second_Add_of_same_point_counts :
  observe add_twice_3d
    (fun '(t, t') => let? q := Query t' whole in retR (Len t, Len t', q))
  = Some (1%Z, 2%Z, []).
Proof. vm_compute. reflexivity. Qed.

(** C5.  Add followed by Delete is not the identity on the contents: in
    two dimensions, with (1,1) stored, adding (1,2) and deleting it gives
    a tree of length 1 whose query still returns (1,2) when [deleteAt]
    leaves the vacated cell as it was, and panics on a nil node when
    [deleteAt] clears it.  The replacement node built by [delete] keeps
    the length the children list had before the removal. *)
Theorem Delete_after_Add_keeps_point (clear_vacated : bool) :
  observe (add_then_delete clear_vacated)
    (fun '(before, t, t2) => fun h =>
       Some (before, Len t, Len t2, Query t2 whole h))
  = Some ([Some e11], 1%Z, 1%Z,
          if clear_vacated then None else Some [Some e11; Some e12]).
Proof. destruct clear_vacated; vm_compute; reflexivity. Qed.

(** With a cache whose [Insert] records the value (the cache package is
    not among the sources; this is the spec's description of it), a batch
    differs from the same additions one call each: in three dimensions,
    adding (1,1,1) and (1,1,2) in one call gives a tree whose query
    returns (1,1,2), while adding them in two calls gives a tree whose
    query returns nothing; both have length 2.  [add] discards whatever
    [Insert] returns, so with an [Insert] that returns the grown slice
    and leaves its receiver alone the cache never hits. *)
Lemma batch_Add_with_recording_cache :
  observe batch_3d (fun t => let? q := Query t whole in retR (Len t, q))
  = Some (2%Z, [Some e112])
  /\ observe one_by_one_3d (fun t => let? q := Query t whole in retR (Len t, q))
     = Some (2%Z, []).
Proof. split; vm_compute; reflexivity. Qed.

(** C8.  The non-empty children invariant fails in three dimensions:
    after adding (1,1,1) to the empty tree, the node of the first
    dimension has an empty children list. *)
Theorem Add_leaves_empty_children :
  observe single_add_3d all_children_nonempty = Some false.
Proof. vm_compute. reflexivity. Qed.

(** C9.  [Delete] neither skips every absent entry nor counts the
    deleted ones.  The tree holds (1,1) and (1,2), its length is 2, and
    (1,3) is not in it; deleting (1,2) alone returns a tree of length 1.
    - Deleting (1,2) and then the absent (1,3) in one batch panics when
      [deleteAt] clears the vacated cell: the lookup of (1,3) reads the
      nil cell that the replacement node of the first deletion still
      spans.  When [deleteAt] leaves the cell, the length is 1.
    - Deleting (1,2) three times in one batch panics in the same way
      when [deleteAt] clears the cell; when it leaves the cell, every
      one of the three lookups succeeds, the length of the returned tree
      is 2 - 3 in [uint64] arithmetic, and its query still returns both
      entries. *)
Theorem Delete_batch_after_found_entry (clear_vacated : bool) :
  observe (delete_from_pair clear_vacated [e12])
    (fun '(has13, t, t') => retR (has13, Len t, Len t'))
  = Some (false, 2%Z, 1%Z)
  /\ observe (delete_from_pair clear_vacated [e12; e13])
       (fun '(_, _, t') => retR (Len t'))
     = (if clear_vacated then None else Some 1%Z)
  /\ observe (delete_from_pair clear_vacated [e12; e12; e12])
       (fun '(_, _, t') => let? q := Query t' whole in retR (Len t', q))
     = (if clear_vacated then None
        else Some ((2 ^ 64 - 1)%Z, [Some e11; Some e12])).
Proof. destruct clear_vacated; vm_compute; repeat split; reflexivity. Qed.
